(** * fastio: buffered token reader and writer

    A shallow embedding of the Go package [fastio] ([FastReader] in
    reader.go, [FastWriter] in writer.go) and the properties of its
    read and write engines.

    Conventions of the embedding:
    - a Go [byte] is an [ascii] (eight bits), a [[]byte] and a Go
      [string] are [list byte];
    - a Go [int] is a [Z]; arithmetic that can leave the 64-bit range is
      written with [wrap];
    - a method with a pointer receiver is a state transformer on the
      record it mutates; a method that indexes a slice or loops runs in
      the monad [M], whose outcomes are a normal return, a run-time
      panic, or the exhaustion of the loop budget handed to it;
    - [io.Reader] and [io.Writer] are type classes over the state of the
      device behind the interface. *)

From Stdlib Require Import ZArith Ascii String Lia.
From stdpp Require Import base list strings.

Local Open Scope Z_scope.

(** ** Bytes *)

Abbreviation byte := ascii.

Definition code (b : byte) : Z := Z.of_N (N_of_ascii b).
Definition byte_of (z : Z) : byte := ascii_of_N (Z.to_N z).

Definition bytes (s : string) : list byte := list_ascii_of_string s.

Definition SP : byte := " "%char.
Definition LF : byte := "010"%char.
Definition CR : byte := "013"%char.
Definition TAB : byte := "009"%char.

(** [b == ' ' || b == '\n' || b == '\r' || b == '\t'] *)
Definition isSpace (b : byte) : bool :=
  bool_decide (b = SP) || bool_decide (b = LF)
  || bool_decide (b = CR) || bool_decide (b = TAB).

(** [!(b < '0' || b > '9')] *)
Definition isDigit (b : byte) : bool :=
  negb ((code b <? 48) || (code b >? 57)).

(** ** The Go [int] *)

(** [int] and [int64] are the 64-bit two's complement integers (the
    package is used on 64-bit platforms), [uint64] the integers modulo
    [2^64]. *)
Definition wrap (z : Z) : Z := (z + 2 ^ 63) mod 2 ^ 64 - 2 ^ 63.
Definition wrapU (z : Z) : Z := z mod 2 ^ 64.

(** Equal as 64-bit patterns. *)
Definition eqm (x y : Z) : Prop := x mod 2 ^ 64 = y mod 2 ^ 64.
Definition MinInt : Z := - 2 ^ 63.
Definition MaxInt : Z := 2 ^ 63 - 1.
Definition isInt (z : Z) : Prop := MinInt <= z <= MaxInt.

(** ** Errors *)

(** The error values the package meets: the two sentinels of [io], a
    value made by [errors.New], a value that wraps another one
    ([fmt.Errorf] with [%w]), and the package's own [writerError]. *)
Inductive error : Type :=
| io_EOF
| io_ErrShortWrite
| errors_New (msg : string)
| fmt_Errorf (msg : string) (inner : error)
| writerError (err : error).

#[global] Instance error_eq_dec : EqDecision error.
Proof. solve_decision. Defined.

(** [err.Error()] *)
Fixpoint Error (e : error) : string :=
  match e with
  | io_EOF => "EOF"
  | io_ErrShortWrite => "short write"
  | errors_New msg => msg
  | fmt_Errorf msg inner => (msg ++ ": " ++ Error inner)%string
  | writerError err => Error err
  end.

(** [errors.Is(e, target)] for a target without an [Is] method of its
    own: equality, then the [Is] method of [writerError] (equal
    messages), then the same question for the wrapped error. *)
Fixpoint errors_Is (e target : error) : bool :=
  bool_decide (e = target)
  || match e with
     | fmt_Errorf _ inner => errors_Is inner target
     | writerError err =>
         bool_decide (Error err = Error target) || errors_Is err target
     | _ => false
     end.

(** ** Outcomes and the state monad of the methods *)

Inductive outcome (A : Type) : Type :=
| Done (a : A)
| Panic
| Timeout.
Arguments Done {A} a.
Arguments Panic {A}.
Arguments Timeout {A}.

Definition M (St A : Type) : Type := St → outcome (A * St).

#[global] Instance M_ret {St} : MRet (M St) := λ A a st, Done (a, st).
#[global] Instance M_bind {St} : MBind (M St) := λ A B f m st,
  match m st with
  | Done (a, st') => f a st'
  | Panic => Panic
  | Timeout => Timeout
  end.

Definition timeout {St A} : M St A := λ _, Timeout.

Ltac unbind := unfold mbind, M_bind, mret, M_ret.

(** [s[i]]: a panic when the index is out of range. *)
Definition index (s : list byte) (i : Z) : option byte :=
  if (0 <=? i) && (i <? Z.of_nat (length s)) then s !! Z.to_nat i else None.

(** [s[:j]]: a panic when [j] is out of range. *)
Definition slice_to (s : list byte) (j : Z) : option (list byte) :=
  if (0 <=? j) && (j <=? Z.of_nat (length s)) then Some (take (Z.to_nat j) s)
  else None.

(** [s[i:]] *)
Definition slice_from (s : list byte) (i : Z) : option (list byte) :=
  if (0 <=? i) && (i <=? Z.of_nat (length s)) then Some (drop (Z.to_nat i) s)
  else None.

(** ** The interfaces of package [io] *)

(** [Read(p)]: the device is handed a slice of [len] bytes; it answers
    with the bytes it stored at the front of the slice, the count it
    reports and its error.  Nothing ties the count to the bytes stored:
    that is the device's contract, not a fact of the type. *)
Class io_Reader (R : Type) : Type :=
  io_Read : R → nat → (list byte * Z * option error) * R.

(** [Write(p)]: the count accepted and the error. *)
Class io_Writer (W : Type) : Type :=
  io_Write : W → list byte → (Z * option error) * W.

(** What a slice of the given contents holds after a device stored
    [data] at its front. *)
Definition stored (p data : list byte) : list byte :=
  take (length p) (data ++ drop (length data) p).

(** A device that counts the calls made on it. *)
Record Metered (R : Type) : Type := { device : R; reads : nat }.
Arguments device {R} _.
Arguments reads {R} _.

#[global] Instance Metered_Reader {R} `{io_Reader R} : io_Reader (Metered R) :=
  λ m len, let '(out, d) := io_Read (device m) len in
           (out, {| device := d; reads := S (reads m) |}).

(** [strings.Reader] (and [bytes.Reader]): [s] and the read index [i]. *)
Record strings_Reader : Type := { s : list byte; i : nat }.

Definition strings_NewReader (str : list byte) : strings_Reader :=
  {| s := str; i := 0 |}.

#[global] Instance strings_Reader_Read : io_Reader strings_Reader :=
  λ rd len,
    if (length (s rd) <=? i rd)%nat then (([], 0, Some io_EOF), rd)
    else
      let data := take len (drop (i rd) (s rd)) in
      ((data, Z.of_nat (length data), None),
       {| s := s rd; i := (i rd + length data)%nat |}).

(** A test double for a source: it answers the calls with the
    responses of a script, in order, and with end of input afterwards. *)
Record scripted_Reader : Type :=
  { script : list (list byte * Z * option error) }.

#[global] Instance scripted_Reader_Read : io_Reader scripted_Reader :=
  λ rd _,
    match script rd with
    | [] => (([], 0, Some io_EOF), rd)
    | out :: rest => (out, {| script := rest |})
    end.



(** [bytes.Buffer] as a sink: it takes everything and keeps it. *)
Record bytes_Buffer : Type := { contents : list byte }.

#[global] Instance bytes_Buffer_Write : io_Writer bytes_Buffer :=
  λ b p, ((Z.of_nat (length p), None), {| contents := contents b ++ p |}).

(** [errorWriter] of writer_test.go. *)
Inductive errorWriter : Type := mkErrorWriter.

#[global] Instance errorWriter_Write : io_Writer errorWriter :=
  λ e _, ((0, Some (errors_New "write error")), e).

(** A sink that takes at most [room] bytes of a call and reports no
    error. *)
Record shortWriter : Type := { room : nat; taken : list byte }.

#[global] Instance shortWriter_Write : io_Writer shortWriter :=
  λ sw p, ((Z.of_nat (length (take (room sw) p)), None),
           {| room := room sw; taken := taken sw ++ take (room sw) p |}).

(** A sink that records the argument of every call made on it. *)
Record Logged (W : Type) : Type := { sink : W; calls : list (list byte) }.
Arguments sink {W} _.
Arguments calls {W} _.

#[global] Instance Logged_Writer {W} `{io_Writer W} : io_Writer (Logged W) :=
  λ l p, let '(out, d) := io_Write (sink l) p in
         (out, {| sink := d; calls := calls l ++ [p] |}).

Definition logged {W} (d : W) : Logged W := {| sink := d; calls := [] |}.

(** ** Package [strconv] *)

(** The decimal digits of [u], most significant first, in front of
    [acc]; [fuel] bounds the number of digits. *)
Fixpoint formatBits (fuel : nat) (u : Z) (acc : list byte) : list byte :=
  match fuel with
  | O => acc
  | S fuel =>
      let acc := byte_of (48 + u mod 10) :: acc in
      if u <? 10 then acc else formatBits fuel (u / 10) acc
  end.

(** [strconv.AppendUint(dst, u, 10)]; a [uint64] has at most 20 digits. *)
Definition strconv_AppendUint (dst : list byte) (u : Z) : list byte :=
  dst ++ formatBits 20 u [].

(** [strconv.AppendInt(dst, i, 10)] *)
Definition strconv_AppendInt (dst : list byte) (i : Z) : list byte :=
  if i <? 0 then dst ++ "-"%char :: formatBits 20 (- i) []
  else dst ++ formatBits 20 i [].

(** ** reader.go *)

Module Reader.

Definition defaultReaderBufSize : nat := 64 * 1024.

Section Engine.
Context {R : Type} `{io_Reader R}.

Record FastReader : Type := {
  r : R;
  buf : list byte;
  pos : Z;
  n : Z;
  err : option error;
}.

Definition NewReader (rd : R) : FastReader :=
  {| r := rd; buf := replicate defaultReaderBufSize zero;
     pos := 0; n := 0; err := None |}.

Definition Err (fr : FastReader) : option error := err fr.

Definition set_pos (p : Z) (fr : FastReader) : FastReader :=
  {| r := r fr; buf := buf fr; pos := p; n := n fr; err := err fr |}.

Definition set_err (e : option error) (fr : FastReader) : FastReader :=
  {| r := r fr; buf := buf fr; pos := pos fr; n := n fr; err := e |}.

Definition fill (fr : FastReader) : FastReader :=
  match err fr with
  | Some _ => fr
  | None =>
      let '((data, cnt, e), rd) := io_Read (r fr) (length (buf fr)) in
      let cnt := if cnt <? 0 then 0 else cnt in
      {| r := rd; buf := stored (buf fr) data; pos := 0; n := cnt; err := e |}
  end.

(** [if fr.err == nil { fr.err = io.EOF }] *)
Definition eof_if_nil (fr : FastReader) : FastReader :=
  match err fr with
  | None => set_err (Some io_EOF) fr
  | Some _ => fr
  end.

Definition ensureData (fr : FastReader) : option error * FastReader :=
  if bool_decide (err fr ≠ None)
     && negb (bool_decide (err fr = Some io_EOF) && (pos fr <? n fr))
  then (err fr, fr)
  else if pos fr >=? n fr then
    let fr := fill fr in
    if n fr =? 0 then let fr := eof_if_nil fr in (err fr, fr)
    else (None, fr)
  else (None, fr).

(** The part of [ReadByte] after the byte was taken and [pos] advanced. *)
Definition readAhead (b : byte) (fr : FastReader)
  : (byte * option error) * FastReader :=
  let fr1 :=
    if pos fr >=? n fr
    then (if bool_decide (err fr = None) then fill fr else fr)
    else fr in
  if (pos fr >=? n fr) && (n fr1 =? 0) then
    let fr2 := eof_if_nil fr1 in ((b, err fr2), fr2)
  else if (pos fr1 >=? n fr1) && bool_decide (err fr1 ≠ None) then
    ((b, err fr1), fr1)
  else ((b, None), fr1).

Definition ReadByte : M FastReader (byte * option error) := λ fr,
  match ensureData fr with
  | (Some e, fr) => Done ((zero, Some e), fr)
  | (None, fr) =>
      match index (buf fr) (pos fr) with
      | None => Panic
      | Some b => Done (readAhead b (set_pos (pos fr + 1) fr))
      end
  end.

Definition PeekByte : M FastReader (byte * option error) := λ fr,
  match ensureData fr with
  | (Some e, fr) => Done ((zero, Some e), fr)
  | (None, fr) =>
      match index (buf fr) (pos fr) with
      | None => Panic
      | Some b => Done ((b, None), fr)
      end
  end.

Fixpoint SkipSpaces (fuel : nat) : M FastReader (option error) :=
  match fuel with
  | O => timeout
  | S fuel =>
      '(b, e) ← PeekByte;
      match e with
      | Some e => if errors_Is e io_EOF then mret None else mret (Some e)
      | None =>
          if isSpace b then _ ← ReadByte; SkipSpaces fuel
          else mret None
      end
  end.

(** The loop of [NextWord]; [acc] is the local [buf]. *)
Fixpoint wordLoop (fuel : nat) (acc : list byte)
  : M FastReader (list byte * option error) :=
  match fuel with
  | O => timeout
  | S fuel =>
      '(b, e) ← PeekByte;
      match e with
      | Some e =>
          if errors_Is e io_EOF then
            if bool_decide (length acc = 0%nat) then mret ([], Some io_EOF)
            else mret (acc, None)
          else mret ([], Some e)
      | None =>
          if isSpace b then
            if bool_decide (length acc = 0%nat) then mret ([], Some io_EOF)
            else mret (acc, None)
          else _ ← ReadByte; wordLoop fuel (acc ++ [b])
      end
  end.

Definition NextWord (fuel : nat) : M FastReader (list byte * option error) :=
  e ← SkipSpaces fuel;
  match e with
  | Some e =>
      if errors_Is e io_EOF then mret ([], Some io_EOF) else mret ([], Some e)
  | None => wordLoop fuel []
  end.

(** The digit loop shared by [NextInt], [NextInt64] and [NextUint64]:
    [norm] is the wrap-around of the accumulator's type.  The result is
    the error of an early return, or the value and [digitsRead]. *)
Fixpoint digitLoop (norm : Z → Z) (fuel : nat) (val digitsRead : Z)
  : M FastReader (option error * Z * Z) :=
  match fuel with
  | O => timeout
  | S fuel =>
      '(b, e) ← PeekByte;
      match e with
      | Some e =>
          if errors_Is e io_EOF then mret (None, val, digitsRead)
          else mret (Some e, 0, digitsRead)
      | None =>
          if negb (isDigit b) then mret (None, val, digitsRead)
          else
            _ ← ReadByte;
            digitLoop norm fuel (norm (val * 10 + (code b - 48)))
                      (wrap (digitsRead + 1))
      end
  end.

Definition errNoDigits (fn : string) : error :=
  errors_New ("fastio: " ++ fn ++ ": no digits found")%string.

(** What follows the digit loop: the early return of the loop, the
    error for no digits, or [sign * val]. *)
Definition finish (fn : string) (norm : Z → Z) (sign : Z)
    (out : option error * Z * Z) : Z * option error :=
  let '(e, val, digitsRead) := out in
  match e with
  | Some e => (0, Some e)
  | None =>
      if digitsRead =? 0 then (0, Some (errNoDigits fn))
      else (norm (sign * val), None)
  end.

(** [if b == '-' { sign = -1; ReadByte() } else if b == '+' { ReadByte() }] *)
Definition readSign (b : byte) : M FastReader Z :=
  if bool_decide (b = "-"%char) then _ ← ReadByte; mret (-1)
  else if bool_decide (b = "+"%char) then _ ← ReadByte; mret 1
  else mret 1.

Definition NextInt (fuel : nat) : M FastReader (Z * option error) :=
  e ← SkipSpaces fuel;
  match e with
  | Some e => mret (0, Some e)
  | None =>
      '(b, e) ← PeekByte;
      match e with
      | Some e => mret (0, Some e)
      | None =>
          sign ← readSign b;
          out ← digitLoop wrap fuel 0 0;
          mret (finish "NextInt" wrap sign out)
      end
  end.

Definition NextInt64 (fuel : nat) : M FastReader (Z * option error) :=
  e ← SkipSpaces fuel;
  match e with
  | Some e => mret (0, Some e)
  | None =>
      '(b, e) ← PeekByte;
      match e with
      | Some e => mret (0, Some e)
      | None =>
          sign ← readSign b;
          out ← digitLoop wrap fuel 0 0;
          mret (finish "NextInt64" wrap sign out)
      end
  end.

Definition NextUint64 (fuel : nat) : M FastReader (Z * option error) :=
  e ← SkipSpaces fuel;
  match e with
  | Some e => mret (0, Some e)
  | None =>
      '(b, e) ← PeekByte;
      match e with
      | Some e => mret (0, Some e)
      | None =>
          _ ← (if bool_decide (b = "+"%char) then _ ← ReadByte; mret tt
               else mret tt);
          out ← digitLoop wrapU fuel 0 0;
          mret (finish "NextUint64" wrapU 1 out)
      end
  end.

(** The loop of [NextLine]: the accumulated bytes, and the error when
    the function returns from inside the loop. *)
Fixpoint lineLoop (fuel : nat) (acc : list byte)
  : M FastReader (list byte * option error) :=
  match fuel with
  | O => timeout
  | S fuel =>
      '(b, e) ← ReadByte;
      match e with
      | Some e =>
          if errors_Is e io_EOF then
            if bool_decide (length acc = 0%nat) then mret ([], Some io_EOF)
            else mret (acc, None)
          else mret ([], Some e)
      | None =>
          if bool_decide (b = LF) then mret (acc, None)
          else lineLoop fuel (acc ++ [b])
      end
  end.

(** [if len(buf) > 0 && buf[len(buf)-1] == '\r' { buf = buf[:len(buf)-1] }] *)
Definition stripCR (l : list byte) : list byte :=
  match last l with
  | Some b => if bool_decide (b = CR) then take (length l - 1) l else l
  | None => l
  end.

Definition NextLine (fuel : nat) : M FastReader (list byte * option error) :=
  '(acc, e) ← lineLoop fuel [];
  match e with
  | Some e => mret ([], Some e)
  | None => mret (stripCR acc, None)
  end.

End Engine.
Arguments FastReader R : clear implicits.

(** *** Invariant, terminal states and calls *)

Section Ops.
Context {R : Type} `{io_Reader R}.

(** The buffer invariant. *)
Definition Inv (fr : FastReader R) : Prop :=
  0 <= pos fr ∧ pos fr <= n fr ∧ n fr <= Z.of_nat (length (buf fr)).

(** The state in which the sticky error answers every call: an error is
    set and, when it is [io.EOF], the buffer is used up. *)
Definition terminal (fr : FastReader R) : Prop :=
  err fr ≠ None ∧ ¬ (err fr = Some io_EOF ∧ pos fr < n fr).

(** The operations of the read engine, and a call of one of them that
    keeps the error it returns. *)
Inductive readOp : Type :=
| opReadByte | opPeekByte | opSkipSpaces | opNextWord
| opNextInt | opNextInt64 | opNextUint64 | opNextLine.

Definition call (o : readOp) (fuel : nat) : M (FastReader R) (option error) :=
  match o with
  | opReadByte => out ← ReadByte; mret (snd out)
  | opPeekByte => out ← PeekByte; mret (snd out)
  | opSkipSpaces => SkipSpaces fuel
  | opNextWord => out ← NextWord fuel; mret (snd out)
  | opNextInt => out ← NextInt fuel; mret (snd out)
  | opNextInt64 => out ← NextInt64 fuel; mret (snd out)
  | opNextUint64 => out ← NextUint64 fuel; mret (snd out)
  | opNextLine => out ← NextLine fuel; mret (snd out)
  end.

(** What a call returns in a terminal state with the sticky error [e]. *)
Definition answer (o : readOp) (e : error) : option error :=
  match o with
  | opSkipSpaces => if errors_Is e io_EOF then None else Some e
  | opNextWord | opNextLine => if errors_Is e io_EOF then Some io_EOF else Some e
  | _ => Some e
  end.

(** The sticky error behind an error a tokenizer returned: the same
    value, or a value that [errors.Is] classifies as end of input when
    the tokenizer returned [io.EOF] itself. *)
Definition behind (e e' : error) : Prop :=
  e = e' ∨ (e = io_EOF ∧ errors_Is e' io_EOF = true).


(** A source that never reports more bytes than the slice has room for. *)
Definition Bounded : Prop :=
  ∀ (rd : R) (len : nat), snd (fst (fst (io_Read rd len))) <= Z.of_nat len.
End Ops.

(** *** The reader over a [strings.Reader] *)

(** The bytes the device has not handed out yet. *)
Definition remaining (rd : strings_Reader) : list byte := drop (i rd) (s rd).

(** The unread part of the buffer, [buf[pos:n]]. *)
Definition window {R} (fr : FastReader R) : list byte :=
  drop (Z.to_nat (pos fr)) (take (Z.to_nat (n fr)) (buf fr)).

(** [Rep fr rest]: the reader stands in front of the input [rest]. *)
Definition Rep (fr : FastReader strings_Reader) (rest : list byte) : Prop :=
  (0 < length (buf fr))%nat
  ∧ 0 <= pos fr <= n fr ∧ n fr <= Z.of_nat (length (buf fr))
  ∧ match err fr with
    | None => rest = window fr ++ remaining (r fr)
    | Some e => e = io_EOF ∧ rest = [] ∧ n fr <= pos fr
    end.

(** *** What the tokenizers do, read off the input alone *)

Definition headNot (P : byte → bool) (l : list byte) : Prop :=
  match l with [] => True | b :: _ => P b = false end.

Fixpoint takeWhile (P : byte → bool) (l : list byte) : list byte :=
  match l with
  | b :: t => if P b then b :: takeWhile P t else []
  | [] => []
  end.

Fixpoint skipWhile (P : byte → bool) (l : list byte) : list byte :=
  match l with
  | b :: t => if P b then skipWhile P t else l
  | [] => []
  end.

(** The value a run of digits adds to an accumulator. *)
Definition accum (norm : Z → Z) (ds : list byte) (val : Z) : Z :=
  fold_left (λ v b, norm (v * 10 + (code b - 48))) ds val.

(** [digitsRead] after [k] increments. *)
Fixpoint bump (k : nat) (c : Z) : Z :=
  match k with O => c | S k => bump k (wrap (c + 1)) end.

(** The sign and the input after it. *)
Definition signOf (l : list byte) : Z * list byte :=
  match l with
  | b :: t =>
      if bool_decide (b = "-"%char) then (-1, t)
      else if bool_decide (b = "+"%char) then (1, t)
      else (1, l)
  | [] => (1, [])
  end.

(** The result of [NextInt] on the input [l] and the input left. *)
Definition nextInt_spec (l : list byte) : (Z * option error) * list byte :=
  match skipWhile isSpace l with
  | [] => ((0, Some io_EOF), [])
  | b :: t =>
      let '(sign, l2) := signOf (b :: t) in
      let ds := takeWhile isDigit l2 in
      (finish "NextInt" wrap sign (None, accum wrap ds 0, bump (length ds) 0),
       skipWhile isDigit l2)
  end.


End Reader.

(** ** writer.go *)

Module Writer.

Definition defaultWriterBufSize : nat := 64 * 1024.

Section Engine.
Context {W : Type} `{io_Writer W}.

Record FastWriter : Type := {
  w : W;
  buf : list byte;
  pos : Z;
  err : option error;
  autoFlush : bool;
  limit : Z;
  scratch : list byte;
}.

Definition NewWriter (wr : W) : FastWriter :=
  {| w := wr; buf := replicate defaultWriterBufSize zero; pos := 0;
     err := None; autoFlush := false;
     limit := Z.of_nat defaultWriterBufSize / 2; scratch := [] |}.

Definition NewWriterWithAutoFlush (wr : W) (lim : Z) : FastWriter :=
  let lim :=
    if (lim <=? 0) || (lim >? Z.of_nat defaultWriterBufSize)
    then Z.of_nat defaultWriterBufSize / 2 else lim in
  {| w := wr; buf := replicate defaultWriterBufSize zero; pos := 0;
     err := None; autoFlush := true; limit := lim; scratch := [] |}.

Definition Err (fw : FastWriter) : option error := err fw.

Definition set_w (wr : W) (fw : FastWriter) : FastWriter :=
  {| w := wr; buf := buf fw; pos := pos fw; err := err fw;
     autoFlush := autoFlush fw; limit := limit fw; scratch := scratch fw |}.

Definition set_buf (b : list byte) (fw : FastWriter) : FastWriter :=
  {| w := w fw; buf := b; pos := pos fw; err := err fw;
     autoFlush := autoFlush fw; limit := limit fw; scratch := scratch fw |}.

Definition set_pos (p : Z) (fw : FastWriter) : FastWriter :=
  {| w := w fw; buf := buf fw; pos := p; err := err fw;
     autoFlush := autoFlush fw; limit := limit fw; scratch := scratch fw |}.

Definition set_err (e : option error) (fw : FastWriter) : FastWriter :=
  {| w := w fw; buf := buf fw; pos := pos fw; err := e;
     autoFlush := autoFlush fw; limit := limit fw; scratch := scratch fw |}.

Definition set_scratch (sc : list byte) (fw : FastWriter) : FastWriter :=
  {| w := w fw; buf := buf fw; pos := pos fw; err := err fw;
     autoFlush := autoFlush fw; limit := limit fw; scratch := sc |}.

(** [fw.w.Write(p)] *)
Definition sinkWrite (p : list byte) (fw : FastWriter)
  : (Z * option error) * FastWriter :=
  let '(out, wr) := io_Write (w fw) p in (out, set_w wr fw).

Definition Flush : M FastWriter (option error) := λ fw,
  match err fw with
  | Some e => Done (Some e, fw)
  | None =>
      if pos fw =? 0 then Done (None, fw)
      else
        match slice_to (buf fw) (pos fw) with
        | None => Panic
        | Some p =>
            let '((cnt, e), fw) := sinkWrite p fw in
            match e with
            | Some e => Done (Some e, set_err (Some (writerError e)) fw)
            | None =>
                if cnt <? pos fw then
                  let fw := set_err (Some (writerError io_ErrShortWrite)) fw in
                  Done (err fw, fw)
                else Done (None, set_pos 0 fw)
            end
        end
  end.

Definition checkWriter : M FastWriter (option error) := λ fw,
  match err fw with
  | Some e => Done (Some e, fw)
  | None =>
      let '((_, e), fw) := sinkWrite [] fw in
      match e with
      | Some e =>
          let fw := set_err (Some (writerError e)) fw in Done (err fw, fw)
      | None => Done (None, fw)
      end
  end.

(** [_, err := fw.w.Write(fw.buf[:0])] and what follows it in the
    branch of [ensureSpace] for a request larger than the buffer. *)
Definition emptyWrite : M FastWriter (option error) := λ fw,
  let '((_, e), fw) := sinkWrite [] fw in
  match e with
  | Some e => Done (Some e, set_err (Some (writerError e)) fw)
  | None => Done (None, fw)
  end.

(** [ensureSpace] after its probe. *)
Definition makeRoom (k : Z) : M FastWriter (option error) := λ fw,
  if k >? Z.of_nat (length (buf fw)) then
    (e ← Flush;
     match e with
     | Some e => mret (Some e)
     | None => emptyWrite
     end) fw
  else if pos fw + k >? Z.of_nat (length (buf fw)) then
    (e ← Flush;
     match e with
     | Some e => mret (Some e)
     | None => mret None
     end) fw
  else Done (None, fw).

Definition ensureSpace (k : Z) : M FastWriter (option error) := λ fw,
  match err fw with
  | Some e => Done (Some e, fw)
  | None =>
      (e ← (if pos fw =? 0 then checkWriter else mret None);
       match e with
       | Some e => mret (Some e)
       | None => makeRoom k
       end) fw
  end.

(** [n := copy(fw.buf[fw.pos:], p); fw.pos += n] *)
Definition copyIn (p : list byte) : M FastWriter nat := λ fw,
  match slice_from (buf fw) (pos fw) with
  | None => Panic
  | Some dst =>
      let k := Nat.min (length dst) (length p) in
      let b := take (Z.to_nat (pos fw)) (buf fw) ++ take k p ++ drop k dst in
      Done (k, set_pos (pos fw + Z.of_nat k) (set_buf b fw))
  end.

(** [if fw.autoFlush && fw.pos >= fw.limit { ... fw.Flush() ... }] *)
Definition flushIfDue : M FastWriter (option error) := λ fw,
  if autoFlush fw && (pos fw >=? limit fw) then Flush fw else Done (None, fw).

(** The loop of [Write]. *)
Fixpoint writeLoop (fuel : nat) (p : list byte) (total : Z)
  : M FastWriter (Z * option error) :=
  match p with
  | [] => mret (total, None)
  | _ :: _ =>
      match fuel with
      | O => timeout
      | S fuel =>
          e ← ensureSpace (Z.of_nat (length p));
          match e with
          | Some e => mret (total, Some e)
          | None =>
              k ← copyIn p;
              e ← flushIfDue;
              match e with
              | Some e => mret (total + Z.of_nat k, Some e)
              | None => writeLoop fuel (drop k p) (total + Z.of_nat k)
              end
          end
      end
  end.

(** Every round of the loop moves at least one byte unless the buffer
    has no room at all; [len(p)] rounds are then enough. *)
Definition Write (p : list byte) : M FastWriter (Z * option error) := λ fw,
  match err fw with
  | Some e => Done ((0, Some e), fw)
  | None => writeLoop (length p) p 0 fw
  end.

(** [fw.buf[fw.pos] = b; fw.pos++] *)
Definition putByte (b : byte) : M FastWriter unit := λ fw,
  match index (buf fw) (pos fw) with
  | None => Panic
  | Some _ =>
      Done (tt, set_pos (pos fw + 1)
                  (set_buf (<[Z.to_nat (pos fw) := b]> (buf fw)) fw))
  end.

Definition WriteByte (b : byte) : M FastWriter (option error) :=
  e ← ensureSpace 1;
  match e with
  | Some e => mret (Some e)
  | None => _ ← putByte b; flushIfDue
  end.

Definition WriteBytes (b : list byte) : M FastWriter (option error) :=
  '(_, e) ← Write b; mret e.

Definition WriteString (str : list byte) : M FastWriter (option error) :=
  WriteBytes str.

Definition WriteLine (str : list byte) : M FastWriter (option error) :=
  e ← WriteString str;
  match e with
  | Some e => mret (Some e)
  | None => WriteByte LF
  end.

Definition WriteInt (v : Z) : M FastWriter (option error) := λ fw,
  let fw := set_scratch (strconv_AppendInt (take 0 (scratch fw)) v) fw in
  WriteBytes (scratch fw) fw.

Definition WriteUint64 (v : Z) : M FastWriter (option error) := λ fw,
  let fw := set_scratch (strconv_AppendUint (take 0 (scratch fw)) v) fw in
  WriteBytes (scratch fw) fw.

Definition WriteInt64 (v : Z) : M FastWriter (option error) := λ fw,
  let fw := set_scratch (strconv_AppendInt (take 0 (scratch fw)) v) fw in
  WriteBytes (scratch fw) fw.

End Engine.
Arguments FastWriter W : clear implicits.

(** *** Invariant, sink log and the effect of an operation *)

(** The buffer invariant; every constructor gives a buffer that is not
    empty. *)
Definition Inv {W} (fw : FastWriter W) : Prop :=
  (0 < length (buf fw))%nat ∧ 0 <= pos fw <= Z.of_nat (length (buf fw)).

(** The buffered bytes, [buf[:pos]]. *)
Definition pending {W} (fw : FastWriter W) : list byte :=
  take (Z.to_nat (pos fw)) (buf fw).

Section Log.
Context {W : Type} `{io_Writer W}.

(** The sink after the calls [cs]. *)
Definition replay (cs : list (list byte)) (d : W) : W :=
  fold_left (λ d c, snd (io_Write d c)) cs d.

(** Whether the sink took every one of the calls [cs] in full and
    without an error. *)
Fixpoint allAccepted (d : W) (cs : list (list byte)) : bool :=
  match cs with
  | [] => true
  | c :: cs =>
      bool_decide (snd (fst (io_Write d c)) = None)
      && (Z.of_nat (length c) <=? fst (fst (io_Write d c)))
      && allAccepted (snd (io_Write d c)) cs
  end.

(** A sink that takes every call in full. *)
Definition Accepting : Prop :=
  ∀ (d : W) (p : list byte), fst (io_Write d p) = (Z.of_nat (length p), None).

(** [effect more payload out fw fw']: an operation that was to append
    [payload] and returned [out] took the writer from [fw] to [fw'] and
    made the sink calls [more], in this order. *)
Definition effect (more : list (list byte)) (payload : list byte)
    (out : option error) (fw fw' : FastWriter (Logged W)) : Prop :=
  Inv fw' ∧ length (buf fw') = length (buf fw)
  ∧ autoFlush fw' = autoFlush fw ∧ limit fw' = limit fw
  ∧ calls (w fw') = calls (w fw) ++ more
  ∧ sink (w fw') = replay more (sink (w fw))
  ∧ Forall (λ c, (length c ≤ length (buf fw))%nat) more
  ∧ match out with
    | None =>
        err fw = None ∧ err fw' = None
        ∧ concat more ++ pending fw' = pending fw ++ payload
    | Some _ =>
        err fw' ≠ None
        ∧ (err fw = None → allAccepted (sink (w fw)) more = false)
    end.

(** The sink calls of [ensureSpace k] when none of them fails: the
    probe of an empty buffer, then for a request above the capacity the
    buffered bytes (when there are some) and an empty write, and for a
    request that does not fit the free room the buffered bytes. *)
Definition roomCalls (k : Z) (fw : FastWriter (Logged W)) : list (list byte) :=
  (if pos fw =? 0 then [[]] else [])
  ++ (if Z.of_nat (length (buf fw)) <? k then
        (if pos fw =? 0 then [] else [pending fw]) ++ [[]]
      else if Z.of_nat (length (buf fw)) <? pos fw + k then [pending fw]
      else []).

(** The append operations of the write engine. *)
Inductive appendOp : Type :=
| opWriteByte (b : byte)
| opWrite (p : list byte)
| opWriteBytes (p : list byte)
| opWriteString (str : list byte)
| opWriteLine (str : list byte)
| opWriteInt (v : Z)
| opWriteInt64 (v : Z)
| opWriteUint64 (v : Z).

Definition run (o : appendOp) : M (FastWriter (Logged W)) (option error) :=
  match o with
  | opWriteByte b => WriteByte b
  | opWrite p => out ← Write p; mret (snd out)
  | opWriteBytes p => WriteBytes p
  | opWriteString str => WriteString str
  | opWriteLine str => WriteLine str
  | opWriteInt v => WriteInt v
  | opWriteInt64 v => WriteInt64 v
  | opWriteUint64 v => WriteUint64 v
  end.

(** The bytes an operation is to append. *)
Definition payload (o : appendOp) : list byte :=
  match o with
  | opWriteByte b => [b]
  | opWrite p | opWriteBytes p | opWriteString p => p
  | opWriteLine str => str ++ [LF]
  | opWriteInt v | opWriteInt64 v => strconv_AppendInt [] v
  | opWriteUint64 v => strconv_AppendUint [] v
  end.
End Log.

End Writer.

(** ** Writing integers and reading them back

    The package's two engines composed: each value goes out with
    [WriteInt], one byte after it with [WriteByte], [Flush] ends the
    output; the text is read back with as many [NextInt] calls. *)

Module RoundTrip.

Section Programs.
Context {W : Type} `{io_Writer W} {R : Type} `{io_Reader R}.

Fixpoint writeInts (items : list (Z * byte))
    : M (Writer.FastWriter W) (option error) :=
  match items with
  | [] => Writer.Flush
  | (v, sep) :: rest =>
      e ← Writer.WriteInt v;
      match e with
      | Some e => mret (Some e)
      | None =>
          e ← Writer.WriteByte sep;
          match e with
          | Some e => mret (Some e)
          | None => writeInts rest
          end
      end
  end.

(** [k] calls of [NextInt]; the values read until the first error. *)
Fixpoint readInts (k fuel : nat)
    : M (Reader.FastReader R) (list Z * option error) :=
  match k with
  | O => mret ([], None)
  | S k =>
      out ← Reader.NextInt fuel;
      match snd out with
      | Some e => mret ([], Some e)
      | None =>
          rest ← readInts k fuel;
          mret (fst out :: fst rest, snd rest)
      end
  end.
End Programs.

(** The text of a sequence of values, each with its byte after it. *)
Definition render (items : list (Z * byte)) : list byte :=
  concat (map (λ it, strconv_AppendInt [] (fst it) ++ [snd it]) items).

End RoundTrip.

(** ** Decimal text *)

(** The number a run of decimal digits denotes. *)
Definition decimal (ds : list byte) : Z := Reader.accum (λ z, z) ds 0.

(** ** A writer driven by a sequence of calls

    The way writer_test.go drives a writer: the calls one after the
    other, given up at the first that fails, and a closing [Flush]. *)

Module Calls.
Section Calls.
Context {W : Type} `{io_Writer W}.

Fixpoint runAll (ops : list Writer.appendOp)
    : M (Writer.FastWriter (Logged W)) (option error) :=
  match ops with
  | [] => Writer.Flush
  | o :: ops =>
      e ← Writer.run o;
      match e with
      | Some e => mret (Some e)
      | None => runAll ops
      end
  end.
End Calls.

(** The bytes the calls are to append, in order. *)
Definition payloads (ops : list Writer.appendOp) : list byte :=
  concat (map Writer.payload ops).
End Calls.

(** ** The example program

    [main] of the example that reads a count and as many numbers from
    the standard input and writes their sum and a line feed to the
    standard output. *)

Module Example.
Section Main.
Context {R : Type} `{io_Reader R} {W : Type} `{io_Writer W}.

(** The loop of [main] with [k] numbers still to read; [None] is the
    [return] on a failed read. *)
Fixpoint sumLoop (k fuel : nat) (sum : Z)
    : M (Reader.FastReader R) (option Z) :=
  match k with
  | O => mret (Some sum)
  | S k =>
      '(x, e) ← Reader.NextInt fuel;
      match e with
      | Some _ => mret None
      | None => sumLoop k fuel (wrap (sum + x))
      end
  end.

(** [main] up to where it returns: the writer at that point. *)
Definition body (fuel : nat) (fr : Reader.FastReader R)
    (fw : Writer.FastWriter W) : outcome (Writer.FastWriter W) :=
  match Reader.NextInt fuel fr with
  | Done ((_, Some _), _) => Done fw
  | Done ((cnt, None), fr) =>
      match sumLoop (Z.to_nat cnt) fuel 0 fr with
      | Done (None, _) => Done fw
      | Done (Some sum, _) =>
          match (_ ← Writer.WriteInt sum; Writer.WriteByte LF) fw with
          | Done (_, fw) => Done fw
          | Panic => Panic
          | Timeout => Timeout
          end
      | Panic => Panic
      | Timeout => Timeout
      end
  | Panic => Panic
  | Timeout => Timeout
  end.

(** [main], with the deferred [Flush]: the writer it leaves behind. *)
Definition main (fuel : nat) (stdin : R) (stdout : W)
    : outcome (Writer.FastWriter W) :=
  match body fuel (Reader.NewReader stdin) (Writer.NewWriter stdout) with
  | Done fw =>
      match Writer.Flush fw with
      | Done (_, fw) => Done fw
      | Panic => Panic
      | Timeout => Timeout
      end
  | Panic => Panic
  | Timeout => Timeout
  end.
End Main.

(** The sum the loop computes, with the wrap-around of [int]. *)
Definition total (xs : list Z) : Z := fold_left (λ s x, wrap (s + x)) xs 0.
End Example.

(** * The read engine *)

Module ReaderFacts.
Import Reader.


Lemma strings_Read_nil rd len :
  remaining rd = [] → io_Read rd len = (([], 0, Some io_EOF), rd).
Proof.
  unfold remaining, io_Read, strings_Reader_Read. intros Hr.
  assert (length (drop (i rd) (s rd)) = 0%nat) as Hl by (rewrite Hr; done).
  rewrite length_drop in Hl.
  destruct (Nat.leb_spec (length (s rd)) (i rd)); [done | lia].
Qed.

Lemma strings_Read_cons rd len x xs :
  remaining rd = x :: xs →
  ∃ rd', io_Read rd len
         = ((take len (x :: xs), Z.of_nat (length (take len (x :: xs))), None), rd')
         ∧ remaining rd' = drop len (x :: xs).
Proof.
  unfold remaining, io_Read, strings_Reader_Read. intros Hr.
  assert (length (drop (i rd) (s rd)) = S (length xs)) as Hl by (rewrite Hr; done).
  rewrite length_drop in Hl.
  destruct (Nat.leb_spec (length (s rd)) (i rd)); [lia |].
  rewrite Hr. eexists; split; [reflexivity |]. simpl.
  rewrite <- drop_drop, Hr.
  destruct (decide (len ≤ length (x :: xs))%nat).
  - by rewrite length_take_le.
  - rewrite length_take_ge by lia. rewrite !drop_ge; [done | lia | done].
Qed.

Lemma length_stored p data : length (stored p data) = length p.
Proof.
  unfold stored. rewrite length_take, length_app, length_drop. lia.
Qed.

Lemma take_stored p data :
  (length data ≤ length p)%nat → take (length data) (stored p data) = data.
Proof.
  intros Hl. unfold stored. rewrite take_take, Nat.min_l by done.
  by rewrite take_app_length.
Qed.

Lemma index_Some l (k : Z) b :
  0 <= k → l !! Z.to_nat k = Some b → index l k = Some b.
Proof.
  intros Hk Hl. unfold index.
  apply lookup_lt_Some in Hl as Hlt.
  destruct (Z.leb_spec 0 k); [| lia].
  destruct (Z.ltb_spec k (Z.of_nat (length l))); [done | lia].
Qed.

Lemma window_cons {R} (fr : FastReader R) b t :
  window fr = b :: t →
  pos fr < n fr ∨ pos fr < 0 → 0 <= pos fr →
  buf fr !! Z.to_nat (pos fr) = Some b
  ∧ window (set_pos (pos fr + 1) fr) = t.
Proof.
  unfold window. simpl. intros Hw _ Hp.
  assert ((take (Z.to_nat (n fr)) (buf fr)) !! Z.to_nat (pos fr) = Some b) as Hl.
  { rewrite <- (Nat.add_0_r (Z.to_nat (pos fr))), <- lookup_drop, Hw. done. }
  split.
  - apply lookup_take_Some in Hl. tauto.
  - replace (Z.to_nat (pos fr + 1)) with (S (Z.to_nat (pos fr))) by lia.
    rewrite (drop_S _ _ _ Hl) in Hw. congruence.
Qed.

Lemma window_nil {R} (fr : FastReader R) :
  n fr <= pos fr → window fr = [].
Proof.
  intros Hle. unfold window. apply drop_ge. rewrite length_take. lia.
Qed.

Lemma window_lt {R} (fr : FastReader R) b t :
  window fr = b :: t → 0 <= pos fr → pos fr < n fr.
Proof.
  intros Hw Hp. destruct (Z.lt_ge_cases (pos fr) (n fr)); [done |].
  rewrite window_nil in Hw by done. done.
Qed.

(** Refilling an exhausted buffer. *)
Lemma fill_Rep fr rest :
  Rep fr rest → err fr = None → n fr <= pos fr →
  let fr' := fill fr in
  Rep fr' rest ∧ pos fr' = 0
  ∧ match rest with
    | [] => err fr' = Some io_EOF ∧ n fr' = 0
    | _ :: _ => err fr' = None ∧ 0 < n fr'
    end.
Proof.
  intros (Hcap & Hpos & Hn & Hrep) He Hle. rewrite He in Hrep.
  rewrite window_nil in Hrep by done. simpl in Hrep.
  unfold fill. rewrite He.
  destruct rest as [| b t].
  - rewrite strings_Read_nil by done. simpl.
    unfold Rep; simpl. rewrite length_stored. repeat split; try done; lia.
  - destruct (strings_Read_cons (r fr) (length (buf fr)) b t) as (rd' & -> & Hrem);
      [done |].
    cbv zeta. cbn [fst snd].
    set (data := take (length (buf fr)) (b :: t)) in *.
    assert (length data ≤ length (buf fr))%nat as Hdl
      by (unfold data; rewrite length_take; lia).
    assert (0 < length data)%nat as Hd0
      by (unfold data; rewrite length_take; simpl; lia).
    destruct (Z.ltb_spec (Z.of_nat (length data)) 0); [lia |].
    unfold Rep, window; simpl. rewrite length_stored.
    repeat split; try lia.
    rewrite Nat2Z.id, take_stored by done. rewrite Hrem.
    unfold data. change (Z.to_nat 0) with 0%nat. by rewrite drop_0, take_drop.
Qed.

Lemma ensureData_nil fr :
  Rep fr [] →
  ∃ fr', ensureData fr = (Some io_EOF, fr') ∧ Rep fr' []
         ∧ err fr' = Some io_EOF.
Proof.
  intros HR. pose proof HR as (Hcap & Hpos & Hn & Hrep).
  unfold ensureData. destruct (err fr) as [e |] eqn:He.
  - destruct Hrep as (-> & _ & Hle).
    rewrite bool_decide_true by done. rewrite bool_decide_true by done.
    destruct (Z.ltb_spec (pos fr) (n fr)); [lia |]. simpl.
    exists fr. by rewrite He.
  - simpl. symmetry in Hrep. apply app_eq_nil in Hrep as [Hw Hr].
    assert (n fr <= pos fr) as Hle.
    { destruct (Z.lt_ge_cases (pos fr) (n fr)); [| lia].
      unfold window in Hw. apply (f_equal length) in Hw.
      rewrite length_drop, length_take in Hw. simpl in Hw. lia. }
    destruct (Z.geb_spec (pos fr) (n fr)); [| lia].
    destruct (fill_Rep fr [] HR He Hle) as (HR' & Hp' & He' & Hn').
    rewrite Hn'. simpl. unfold eof_if_nil. rewrite He'.
    eexists; split; [by rewrite He' |]. done.
Qed.

Lemma ensureData_cons fr b t :
  Rep fr (b :: t) →
  ∃ fr', ensureData fr = (None, fr') ∧ Rep fr' (b :: t)
         ∧ err fr' = None ∧ pos fr' < n fr'.
Proof.
  intros HR. pose proof HR as (Hcap & Hpos & Hn & Hrep).
  unfold ensureData. destruct (err fr) as [e |] eqn:He.
  { by destruct Hrep as (_ & ? & _). }
  simpl. destruct (Z.geb_spec (pos fr) (n fr)) as [Hge | Hlt].
  - destruct (fill_Rep fr (b :: t) HR He) as (HR' & Hp' & He' & Hn'); [lia |].
    destruct (Z.eqb_spec (n (fill fr)) 0); [lia |].
    eexists; split; [done |]. split; [exact HR' |]. split; [done | lia].
  - exists fr. rewrite He. done.
Qed.

(** A reader with an unread byte in its buffer and no error. *)
Lemma Rep_ready fr b t :
  Rep fr (b :: t) → err fr = None → pos fr < n fr →
  index (buf fr) (pos fr) = Some b
  ∧ ensureData fr = (None, fr)
  ∧ Rep (set_pos (pos fr + 1) fr) t.
Proof.
  intros (Hcap & Hpos & Hn & Hrep) He Hlt. rewrite He in Hrep.
  destruct (window fr) as [| b' w] eqn:Hw.
  { unfold window in Hw. apply (f_equal length) in Hw.
    rewrite length_drop, length_take in Hw. simpl in Hw. lia. }
  injection Hrep as <- Ht.
  destruct (window_cons fr b w Hw) as [Hl Hw']; [lia | lia |].
  split; [apply index_Some; [lia | done] |]. split.
  - unfold ensureData. rewrite He. simpl.
    destruct (Z.geb_spec (pos fr) (n fr)); [lia | done].
  - unfold Rep. simpl. rewrite He. repeat split; try done; try lia.
    by rewrite Hw'.
Qed.

Lemma PeekByte_nil fr :
  Rep fr [] →
  ∃ fr', PeekByte fr = Done ((zero, Some io_EOF), fr') ∧ Rep fr' []
         ∧ err fr' = Some io_EOF.
Proof.
  intros HR. destruct (ensureData_nil fr HR) as (fr' & Hed & HR' & He').
  unfold PeekByte. rewrite Hed. eauto.
Qed.

Lemma PeekByte_cons fr b t :
  Rep fr (b :: t) →
  ∃ fr', PeekByte fr = Done ((b, None), fr') ∧ Rep fr' (b :: t)
         ∧ err fr' = None ∧ pos fr' < n fr'.
Proof.
  intros HR. destruct (ensureData_cons fr b t HR) as (fr' & Hed & HR' & He' & Hlt).
  destruct (Rep_ready fr' b t HR' He' Hlt) as (Hix & _ & _).
  unfold PeekByte. rewrite Hed, Hix. eauto 6.
Qed.

Lemma ReadByte_nil fr :
  Rep fr [] →
  ∃ fr', ReadByte fr = Done ((zero, Some io_EOF), fr') ∧ Rep fr' []
         ∧ err fr' = Some io_EOF.
Proof.
  intros HR. destruct (ensureData_nil fr HR) as (fr' & Hed & HR' & He').
  unfold ReadByte. rewrite Hed. eauto.
Qed.

Lemma readAhead_Rep fr b t :
  Rep fr t → err fr = None →
  ∃ fr', readAhead b fr
         = ((b, match t with [] => Some io_EOF | _ => None end), fr')
         ∧ Rep fr' t.
Proof.
  intros HR He. unfold readAhead.
  destruct (Z.geb_spec (pos fr) (n fr)) as [Hge | Hlt].
  - rewrite bool_decide_true by done.
    destruct (fill_Rep fr t HR He) as (HR3 & Hp3 & Ht); [lia |].
    destruct t as [| c t']; destruct Ht as [He3 Hn3].
    + rewrite Hn3. simpl.
      unfold eof_if_nil. rewrite He3. cbn match. rewrite He3. eauto.
    + destruct (Z.eqb_spec (n (fill fr)) 0); [lia |]. simpl.
      rewrite He3. rewrite bool_decide_false by (intros ?; done).
      rewrite andb_false_r. eauto.
  - cbn [andb]. destruct (Z.geb_spec (pos fr) (n fr)); [lia |]. cbn [andb].
    destruct t as [| c t']; [| eauto].
    exfalso. destruct HR as (? & ? & ? & Hrep). rewrite He in Hrep.
    symmetry in Hrep. apply app_eq_nil in Hrep as [Hw _].
    unfold window in Hw. apply (f_equal length) in Hw.
    rewrite length_drop, length_take in Hw. simpl in Hw. lia.
Qed.

(** The byte read is the next byte of the input; it comes with the
    end-of-input error exactly when it was the last one. *)
Lemma ReadByte_cons fr b t :
  Rep fr (b :: t) →
  ∃ fr', ReadByte fr
         = Done ((b, match t with [] => Some io_EOF | _ => None end), fr')
         ∧ Rep fr' t.
Proof.
  intros HR. destruct (ensureData_cons fr b t HR) as (fr1 & Hed & HR1 & He1 & Hlt).
  destruct (Rep_ready fr1 b t HR1 He1 Hlt) as (Hix & _ & HR2).
  unfold ReadByte. rewrite Hed, Hix.
  destruct (readAhead_Rep _ b t HR2) as (fr' & -> & HR'); [done |]. eauto.
Qed.


Lemma SkipSpaces_Rep ws : ∀ rest fr fuel,
  Forall (λ b, isSpace b = true) ws → headNot isSpace rest →
  Rep fr (ws ++ rest) → (length ws < fuel)%nat →
  ∃ fr', SkipSpaces fuel fr = Done (None, fr') ∧ Rep fr' rest.
Proof.
  induction ws as [| w ws IH]; intros rest fr fuel Hws Hrest HR Hfuel;
    (destruct fuel as [| fuel]; [simpl in Hfuel; lia |]);
    cbn [SkipSpaces]; unbind.
  - destruct rest as [| b t].
    + destruct (PeekByte_nil fr HR) as (fr' & -> & HR' & _). eauto.
    + destruct (PeekByte_cons fr b t HR) as (fr' & -> & HR' & _).
      simpl in Hrest. rewrite Hrest. eauto.
  - apply Forall_cons in Hws as [Hw Hws].
    destruct (PeekByte_cons fr w (ws ++ rest) HR) as (fr1 & -> & HR1 & _).
    rewrite Hw.
    destruct (ReadByte_cons fr1 w (ws ++ rest) HR1) as (fr2 & -> & HR2).
    apply IH; [done | done | done | simpl in Hfuel; lia].
Qed.


Lemma digitLoop_Rep norm ds : ∀ rest fr fuel val cnt,
  Forall (λ b, isDigit b = true) ds → headNot isDigit rest →
  Rep fr (ds ++ rest) → (length ds < fuel)%nat →
  ∃ fr', digitLoop norm fuel val cnt fr
         = Done ((None, accum norm ds val, bump (length ds) cnt), fr')
         ∧ Rep fr' rest.
Proof.
  induction ds as [| d ds IH]; intros rest fr fuel val cnt Hds Hrest HR Hfuel;
    (destruct fuel as [| fuel]; [simpl in Hfuel; lia |]);
    cbn [digitLoop]; unbind.
  - destruct rest as [| b t].
    + destruct (PeekByte_nil fr HR) as (fr' & -> & HR' & _). eauto.
    + destruct (PeekByte_cons fr b t HR) as (fr' & -> & HR' & _).
      simpl in Hrest. rewrite Hrest. eauto.
  - apply Forall_cons in Hds as [Hd Hds].
    destruct (PeekByte_cons fr d (ds ++ rest) HR) as (fr1 & -> & HR1 & _).
    rewrite Hd. cbn [negb].
    destruct (ReadByte_cons fr1 d (ds ++ rest) HR1) as (fr2 & -> & HR2).
    apply IH; [done | done | done | simpl in Hfuel; lia].
Qed.

Lemma bump_small k : ∀ c, 0 <= c → c + Z.of_nat k <= MaxInt →
  bump k c = c + Z.of_nat k.
Proof.
  induction k as [| k IH]; intros c Hc Hle; cbn [bump]; [lia |].
  assert (wrap (c + 1) = c + 1) as ->.
  { unfold wrap, MaxInt in *. rewrite Z.mod_small; lia. }
  rewrite IH; lia.
Qed.

Lemma span_While P l :
  l = takeWhile P l ++ skipWhile P l
  ∧ Forall (λ b, P b = true) (takeWhile P l)
  ∧ headNot P (skipWhile P l).
Proof.
  induction l as [| b t (IH1 & IH2 & IH3)]; simpl; [done |].
  destruct (P b) eqn:Hb; simpl.
  - split; [congruence |]. split; [by constructor | done].
  - done.
Qed.

Lemma length_takeWhile P l : (length (takeWhile P l) ≤ length l)%nat.
Proof.
  induction l as [| b t IH]; simpl; [done |]. destruct (P b); simpl; lia.
Qed.

Lemma length_skipWhile P l : (length (skipWhile P l) ≤ length l)%nat.
Proof.
  induction l as [| b t IH]; simpl; [done |]. destruct (P b); simpl; lia.
Qed.

Lemma SkipSpaces_spec fr l fuel :
  Rep fr l → (length l < fuel)%nat →
  ∃ fr', SkipSpaces fuel fr = Done (None, fr') ∧ Rep fr' (skipWhile isSpace l).
Proof.
  intros HR Hfuel. destruct (span_While isSpace l) as (Hl & Hws & Hrest).
  rewrite Hl in HR. pose proof (length_takeWhile isSpace l).
  eapply SkipSpaces_Rep; eauto. lia.
Qed.

Lemma digitLoop_spec norm fr l fuel val cnt :
  Rep fr l → (length l < fuel)%nat →
  ∃ fr', digitLoop norm fuel val cnt fr
         = Done ((None, accum norm (takeWhile isDigit l) val,
                  bump (length (takeWhile isDigit l)) cnt), fr')
         ∧ Rep fr' (skipWhile isDigit l).
Proof.
  intros HR Hfuel. destruct (span_While isDigit l) as (Hl & Hds & Hrest).
  rewrite Hl in HR. pose proof (length_takeWhile isDigit l).
  eapply digitLoop_Rep; eauto. lia.
Qed.

Lemma readSign_Rep fr b t :
  Rep fr (b :: t) →
  ∃ fr', readSign b fr = Done (fst (signOf (b :: t)), fr')
         ∧ Rep fr' (snd (signOf (b :: t))).
Proof.
  intros HR. unfold readSign, signOf. unbind.
  destruct (ReadByte_cons fr b t HR) as (fr' & Hrd & HR').
  destruct (bool_decide (b = "-"%char)); [rewrite Hrd; eauto |].
  destruct (bool_decide (b = "+"%char)); [rewrite Hrd; eauto |].
  eauto.
Qed.

Lemma length_signOf l : (length (snd (signOf l)) ≤ length l)%nat.
Proof.
  destruct l as [| b t]; [done |]. unfold signOf.
  destruct (bool_decide (b = "-"%char)); [simpl; lia |].
  destruct (bool_decide (b = "+"%char)); simpl; lia.
Qed.

(** [NextInt] computes [nextInt_spec] and leaves the reader in front of
    the input that function leaves. *)
Lemma NextInt_spec fr l fuel :
  Rep fr l → (length l < fuel)%nat →
  ∃ fr', NextInt fuel fr = Done (fst (nextInt_spec l), fr')
         ∧ Rep fr' (snd (nextInt_spec l)).
Proof.
  intros HR Hfuel. unfold NextInt, nextInt_spec. unbind.
  destruct (SkipSpaces_spec fr l fuel HR Hfuel) as (fr1 & -> & HR1).
  pose proof (length_skipWhile isSpace l) as Hlen.
  destruct (skipWhile isSpace l) as [| b t].
  { destruct (PeekByte_nil fr1 HR1) as (fr2 & -> & HR2 & _). eauto. }
  destruct (PeekByte_cons fr1 b t HR1) as (fr2 & -> & HR2 & _).
  destruct (readSign_Rep fr2 b t HR2) as (fr3 & -> & HR3).
  pose proof (length_signOf (b :: t)) as Hlen2.
  destruct (signOf (b :: t)) as [sign l2]. cbn [fst snd] in *.
  destruct (digitLoop_spec wrap fr3 l2 fuel 0 0 HR3) as (fr4 & -> & HR4); [lia |].
  eauto.
Qed.

Lemma Rep_NewReader (l : list byte) : Rep (NewReader (strings_NewReader l)) l.
Proof.
  unfold Rep, NewReader, window, remaining, strings_NewReader. cbn [buf pos n err r s i].
  rewrite length_replicate. unfold defaultReaderBufSize.
  split; [lia |]. split; [lia |]. split; [lia |]. done.
Qed.

Lemma Rep_err fr rest :
  Rep fr rest → err fr = None ∨ (err fr = Some io_EOF ∧ rest = []).
Proof.
  intros (_ & _ & _ & Hrep). destruct (err fr); [right | by left].
  by destruct Hrep as (-> & -> & _).
Qed.

Lemma isSpace_codes (b : byte) :
  isSpace b = true ↔ code b = 32 ∨ code b = 9 ∨ code b = 13 ∨ code b = 10.
Proof.
  destruct b as [[] [] [] [] [] [] [] []]; vm_compute; intuition congruence.
Qed.

Lemma lineLoop_unterminated l : ∀ acc x fr fuel,
  Forall (λ b, b ≠ LF) l → Rep fr (l ++ [x]) → (length l < fuel)%nat →
  ∃ fr', lineLoop fuel acc fr
         = Done (match acc ++ l with
                 | [] => ([], Some io_EOF)
                 | _ => (acc ++ l, None)
                 end, fr')
         ∧ Rep fr' [].
Proof.
  induction l as [| b l IH]; intros acc x fr fuel Hl HR Hfuel;
    (destruct fuel as [| fuel]; [simpl in Hfuel; lia |]);
    cbn [lineLoop]; unbind.
  - destruct (ReadByte_cons fr x [] HR) as (fr' & -> & HR').
    change (errors_Is io_EOF io_EOF) with true. cbv iota.
    rewrite app_nil_r. destruct acc; cbn; eauto.
  - apply Forall_cons in Hl as [Hb Hl].
    destruct (ReadByte_cons fr b (l ++ [x])) as (fr' & -> & HR'); [done |].
    assert (match l ++ [x] with [] => Some io_EOF | _ :: _ => None end = None)
      as -> by (by destruct l).
    rewrite bool_decide_false by done.
    destruct (IH (acc ++ [b]) x fr' fuel Hl HR') as (fr2 & -> & HR2);
      [simpl in Hfuel; lia |].
    rewrite <- app_assoc. cbn [app]. eauto.
Qed.

(** C2 (the code departs from it): on an unterminated final line
    [l ++ [x]] (no line feed in [l]; [x] is the last byte of the input)
    [NextLine] loses the last byte: it returns [l] (less a trailing
    carriage return) when [l] is not empty and the end-of-input error
    when [l] is empty, although the byte [x] was still to be read. *)
Theorem NextLine_unterminated (fr : FastReader strings_Reader)
    (l : list byte) (x : byte) (fuel : nat) :
  Forall (λ b, b ≠ LF) l → Rep fr (l ++ [x]) → (length l < fuel)%nat →
  ∃ fr', NextLine fuel fr
         = Done (match l with
                 | [] => ([], Some io_EOF)
                 | _ => (stripCR l, None)
                 end, fr')
         ∧ Rep fr' [].
Proof.
  intros Hl HR Hfuel. unfold NextLine. unbind.
  destruct (lineLoop_unterminated l [] x fr fuel Hl HR Hfuel) as (fr' & -> & HR').
  cbn [app]. destruct l; eauto.
Qed.

Lemma NextLine_unterminated_witness :
  ∃ fr', NextLine 10 (NewReader (strings_NewReader (bytes "abc")))
         = Done ((bytes "ab", None), fr') ∧ Rep fr' [].
Proof.
  apply (NextLine_unterminated _ (bytes "ab") "c"%char 10).
  - repeat constructor; done.
  - apply (Rep_NewReader (bytes "abc")).
  - simpl. lia.
Defined.

(** C7: [SkipSpaces] consumes the maximal leading run of bytes from
    space (0x20), tab (0x09), carriage return (0x0D) and line feed
    (0x0A), no more and no less, and returns without error for every
    input, also when the run reaches the end of the input. *)
Theorem SkipSpaces_contract (fr : FastReader strings_Reader)
    (input : list byte) (fuel : nat) :
  Rep fr input → (length (takeWhile isSpace input) < fuel)%nat →
  (∃ fr', SkipSpaces fuel fr = Done (None, fr')
          ∧ Rep fr' (skipWhile isSpace input))
  ∧ input = takeWhile isSpace input ++ skipWhile isSpace input
  ∧ Forall (λ b, isSpace b = true) (takeWhile isSpace input)
  ∧ headNot isSpace (skipWhile isSpace input)
  ∧ ∀ b, isSpace b = true ↔ code b = 32 ∨ code b = 9 ∨ code b = 13 ∨ code b = 10.
Proof.
  intros HR Hfuel. destruct (span_While isSpace input) as (Hl & Hws & Hrest).
  split; [| by auto using isSpace_codes].
  rewrite Hl in HR. eapply SkipSpaces_Rep; eauto.
Qed.

Lemma SkipSpaces_contract_witness :
  ∃ fr', SkipSpaces 10 (NewReader (strings_NewReader [SP; SP; SP; LF; TAB; CR; SP]))
         = Done (None, fr') ∧ Rep fr' [].
Proof.
  apply (SkipSpaces_contract _ [SP; SP; SP; LF; TAB; CR; SP] 10).
  - apply Rep_NewReader.
  - vm_compute. lia.
Defined.

(** *** Decimal text and the digit loop *)

Lemma wrap_eqm x : eqm (wrap x) x.
Proof.
  unfold eqm, wrap.
  rewrite Zminus_mod, Z.mod_mod by lia.
  rewrite <- Zminus_mod. f_equal. lia.
Qed.

Lemma eqm_wrap x y : eqm x y → wrap x = wrap y.
Proof.
  unfold eqm, wrap. intros Hxy.
  rewrite (Z.add_mod x), (Z.add_mod y), Hxy by lia. done.
Qed.

Lemma wrap_isInt v : isInt v → wrap v = v.
Proof.
  unfold isInt, MinInt, MaxInt, wrap. intros Hv. rewrite Z.mod_small; lia.
Qed.

Lemma eqm_step x y d : eqm x y → eqm (wrap (x * 10 + d)) (y * 10 + d).
Proof.
  intros Hxy. unfold eqm in *. rewrite wrap_eqm.
  rewrite (Z.add_mod (x * 10)), (Z.add_mod (y * 10)) by lia.
  rewrite (Z.mul_mod x), (Z.mul_mod y), Hxy by lia. done.
Qed.

Lemma accum_wrap_eqm ds : ∀ x y,
  eqm x y → eqm (accum wrap ds x) (accum (λ z, z) ds y).
Proof.
  induction ds as [| d ds IH]; intros x y Hxy; cbn [accum fold_left]; [done |].
  apply IH. by apply eqm_step.
Qed.

Lemma code_byte_of z : 0 <= z < 256 → code (byte_of z) = z.
Proof.
  intros Hz. unfold code, byte_of. rewrite N_ascii_embedding by lia. lia.
Qed.

Lemma isDigit_byte_of d : 0 <= d < 10 → isDigit (byte_of (48 + d)) = true.
Proof.
  intros Hd. unfold isDigit. rewrite code_byte_of by lia.
  destruct (Z.ltb_spec (48 + d) 48); [lia |].
  destruct (Z.gtb_spec (48 + d) 57); [lia | done].
Qed.

Lemma formatBits_S fuel u acc :
  formatBits (S fuel) u acc
  = if u <? 10 then byte_of (48 + u mod 10) :: acc
    else formatBits fuel (u / 10) (byte_of (48 + u mod 10) :: acc).
Proof. reflexivity. Qed.

(** The digits [formatBits] puts in front of [acc]. *)
Lemma formatBits_spec fuel : ∀ u acc,
  0 <= u < 10 ^ Z.of_nat (S fuel) →
  ∃ ds, formatBits (S fuel) u acc = ds ++ acc
        ∧ ds ≠ [] ∧ Forall (λ b, isDigit b = true) ds
        ∧ (length ds ≤ S fuel)%nat
        ∧ ∀ v0, accum (λ z, z) ds v0 = v0 * 10 ^ Z.of_nat (length ds) + u.
Proof.
  induction fuel as [| fuel IH]; intros u acc Hu; rewrite formatBits_S.
  - change (10 ^ Z.of_nat 1) with 10 in Hu.
    destruct (Z.ltb_spec u 10); [| lia].
    exists [byte_of (48 + u mod 10)]. rewrite Z.mod_small by lia.
    split_and!; try done.
    + constructor; [apply isDigit_byte_of; lia | done].
    + intros v0. cbn. rewrite code_byte_of by lia. lia.
  - destruct (Z.ltb_spec u 10).
    + exists [byte_of (48 + u mod 10)]. rewrite Z.mod_small by lia.
      split_and!; try done.
      * constructor; [apply isDigit_byte_of; lia | done].
      * cbn. lia.
      * intros v0. cbn. rewrite code_byte_of by lia. lia.
    + destruct (IH (u / 10) (byte_of (48 + u mod 10) :: acc))
        as (ds & Hf & Hne & Hds & Hlen & Hval).
      { split; [apply Z.div_pos; lia |].
        apply Z.div_lt_upper_bound; [lia |].
        rewrite <- Z.pow_succ_r by lia. rewrite <- Nat2Z.inj_succ. lia. }
      pose proof (Z.mod_pos_bound u 10 ltac:(lia)) as Hm.
      exists (ds ++ [byte_of (48 + u mod 10)]).
      split; [by rewrite Hf, <- app_assoc |].
      split; [by destruct ds |].
      split; [apply Forall_app; split; [done |];
              constructor; [apply isDigit_byte_of; lia | done] |].
      split; [rewrite length_app; simpl; lia |].
      intros v0. unfold accum in *. rewrite fold_left_app, Hval. cbn.
      rewrite code_byte_of by lia. rewrite length_app. cbn [length].
      rewrite Nat2Z.inj_add, Z.pow_add_r by lia.
      change (10 ^ Z.of_nat 1) with 10.
      pose proof (Z.div_mod u 10 ltac:(lia)). lia.
Qed.

Lemma skipWhile_app P ws rest :
  Forall (λ b, P b = true) ws → headNot P rest → skipWhile P (ws ++ rest) = rest.
Proof.
  intros Hws Hrest. induction Hws as [| b ws Hb _ IH]; cbn.
  - destruct rest as [| c t]; [done |]. cbn in *. by rewrite Hrest.
  - by rewrite Hb.
Qed.

Lemma takeWhile_app P ds rest :
  Forall (λ b, P b = true) ds → headNot P rest → takeWhile P (ds ++ rest) = ds.
Proof.
  intros Hds Hrest. induction Hds as [| b ds Hb _ IH]; cbn.
  - destruct rest as [| c t]; [done |]. cbn in *. by rewrite Hrest.
  - by rewrite Hb, IH.
Qed.

Lemma digit_not_special b :
  isDigit b = true → isSpace b = false ∧ b ≠ "-"%char ∧ b ≠ "+"%char.
Proof.
  destruct b as [[] [] [] [] [] [] [] []]; vm_compute; intuition congruence.
Qed.

(** The text of an [int]: an optional minus sign and a nonempty run of
    at most 20 digits whose value is the magnitude. *)
Lemma AppendInt_shape v :
  isInt v →
  ∃ ds, strconv_AppendInt [] v = (if v <? 0 then ["-"%char] else []) ++ ds
        ∧ ds ≠ [] ∧ Forall (λ b, isDigit b = true) ds
        ∧ (length ds ≤ 20)%nat
        ∧ accum (λ z, z) ds 0 = Z.abs v.
Proof.
  intros Hv. unfold isInt, MinInt, MaxInt in Hv. unfold strconv_AppendInt.
  assert (2 ^ 63 < 10 ^ Z.of_nat 20) as Hpow by (vm_compute; done).
  destruct (Z.ltb_spec v 0).
  - destruct (formatBits_spec 19 (- v) []) as (ds & -> & Hne & Hds & Hlen & Hval);
      [lia |].
    exists ds. rewrite app_nil_r.
    split; [reflexivity |]. split; [exact Hne |]. split; [exact Hds |].
    split; [exact Hlen |]. rewrite Hval. lia.
  - destruct (formatBits_spec 19 v []) as (ds & -> & Hne & Hds & Hlen & Hval);
      [lia |].
    exists ds. rewrite app_nil_r.
    split; [reflexivity |]. split; [exact Hne |]. split; [exact Hds |].
    split; [exact Hlen |]. rewrite Hval. lia.
Qed.

Lemma digits_head ds tail :
  ds ≠ [] → Forall (λ b, isDigit b = true) ds →
  headNot isSpace (ds ++ tail) ∧ signOf (ds ++ tail) = (1, ds ++ tail).
Proof.
  intros Hne Hds. destruct ds as [| d ds]; [done |].
  apply Forall_cons in Hds as [Hd _].
  destruct (digit_not_special d Hd) as (Hdsp & Hdm & Hdp).
  split; [done |]. cbn [app signOf]. by rewrite !bool_decide_false.
Qed.

(** Reading back the text of an [int]. *)
Lemma nextInt_spec_AppendInt ws v tail :
  Forall (λ b, isSpace b = true) ws → isInt v → headNot isDigit tail →
  nextInt_spec (ws ++ strconv_AppendInt [] v ++ tail) = ((v, None), tail).
Proof.
  intros Hws Hv Htail.
  destruct (AppendInt_shape v Hv) as (ds & -> & Hne & Hds & Hlen & Hval).
  destruct (digits_head ds tail Hne Hds) as [Hhd Hsign].
  assert (bump (length ds) 0 = Z.of_nat (length ds)) as Hbump.
  { rewrite bump_small; unfold MaxInt; lia. }
  assert (Z.of_nat (length ds) ≠ 0) as Hlen0 by (destruct ds; simpl; [done | lia]).
  assert (wrap ((if v <? 0 then -1 else 1) * accum wrap ds 0) = v) as Hres.
  { rewrite <- (wrap_isInt v Hv) at 2. apply eqm_wrap.
    pose proof (accum_wrap_eqm ds 0 0 eq_refl) as Hacc.
    rewrite Hval in Hacc. unfold eqm in *.
    rewrite Z.mul_mod, Hacc, <- Z.mul_mod by lia.
    f_equal. destruct (Z.ltb_spec v 0); lia. }
  unfold nextInt_spec. rewrite <- app_assoc.
  destruct (Z.ltb_spec v 0).
  - rewrite skipWhile_app; [| done | done].
    change (["-"%char] ++ ds ++ tail) with ("-"%char :: (ds ++ tail)).
    cbv iota. unfold signOf. rewrite bool_decide_true by done.
    rewrite takeWhile_app, skipWhile_app by done.
    unfold finish. rewrite Hbump.
    destruct (Z.eqb_spec (Z.of_nat (length ds)) 0); [done |].
    by rewrite Hres.
  - change ([] ++ ds ++ tail) with (ds ++ tail).
    rewrite skipWhile_app; [| done | done].
    destruct (ds ++ tail) as [| b t] eqn:Hdt; [by destruct ds |].
    rewrite Hsign, <- Hdt. cbv iota beta zeta.
    rewrite takeWhile_app, skipWhile_app by done.
    unfold finish. rewrite Hbump.
    destruct (Z.eqb_spec (Z.of_nat (length ds)) 0); [done |].
    by rewrite Hres.
Qed.

Section Generic.
Context {R : Type} `{io_Reader R}.
Implicit Types fr : FastReader R.


Lemma fill_pos fr :
  0 <= pos fr <= n fr → 0 <= pos (fill fr) <= n (fill fr).
Proof.
  intros Hi. unfold fill. destruct (err fr); [done |].
  destruct (io_Read (r fr) (length (buf fr))) as [[[data cnt] e] rd].
  cbn [pos n]. destruct (Z.ltb_spec cnt 0); lia.
Qed.

(** [ensureData] either reports the sticky error from a terminal state,
    or leaves an unread byte in the buffer. *)
Lemma ensureData_cases fr :
  (∃ e, ensureData fr = (Some e, fr) ∧ err fr = Some e ∧ terminal fr)
  ∨ (∃ e, ensureData fr = (Some e, eof_if_nil (fill fr))
          ∧ err (eof_if_nil (fill fr)) = Some e
          ∧ terminal (eof_if_nil (fill fr))
          ∧ err fr = None ∧ n fr <= pos fr ∧ n (fill fr) = 0)
  ∨ (ensureData fr = (None, fill fr)
     ∧ err fr = None ∧ n fr <= pos fr ∧ n (fill fr) ≠ 0)
  ∨ (ensureData fr = (None, fr) ∧ pos fr < n fr
     ∧ (err fr = None ∨ err fr = Some io_EOF)).
Proof.
  unfold ensureData, terminal.
  destruct (err fr) as [e |] eqn:He.
  - rewrite bool_decide_true by done. cbn [andb].
    destruct (decide (e = io_EOF)) as [-> | Hne].
    + rewrite bool_decide_true by done. cbn [andb].
      destruct (Z.ltb_spec (pos fr) (n fr)); cbn [negb].
      * destruct (Z.geb_spec (pos fr) (n fr)); [lia |]. right. right. right. tauto.
      * left. exists io_EOF. split_and!; try done. intros [_ ?]. lia.
    + rewrite bool_decide_false by congruence. cbn [andb negb].
      left. exists e. split_and!; try done. intros [? _]. congruence.
  - rewrite bool_decide_false by (intros Hx; by apply Hx). cbn [andb].
    destruct (Z.geb_spec (pos fr) (n fr)).
    + destruct (Z.eqb_spec (n (fill fr)) 0) as [Hz | Hnz].
      * right. left.
        assert (∃ e, err (eof_if_nil (fill fr)) = Some e) as [e He'].
        { unfold eof_if_nil. destruct (err (fill fr)) eqn:Hf; eauto. }
        exists e. cbv zeta. rewrite He'. split_and!; try done; try lia.
        intros [_ Hlt]. revert Hlt. unfold eof_if_nil.
           destruct (err (fill fr)); cbn [pos n set_err]; rewrite Hz;
             pose proof (fill_pos fr); unfold fill; rewrite He;
             destruct (io_Read (r fr) (length (buf fr))) as [[[data cnt] e'] rd];
             cbn [pos]; lia.
      * right. right. left. split_and!; try done; lia.
    + right. right. right. split_and!; try done; try lia. by left.
Qed.
End Generic.

Section Generic2.
Context {R : Type} `{io_Reader R}.
Implicit Types fr : FastReader R.

Lemma eof_if_nil_err fr : err (eof_if_nil fr) ≠ None.
Proof. unfold eof_if_nil. destruct (err fr) eqn:He; [by rewrite He | done]. Qed.

Lemma eof_if_nil_same fr :
  pos (eof_if_nil fr) = pos fr ∧ n (eof_if_nil fr) = n fr
  ∧ buf (eof_if_nil fr) = buf fr ∧ r (eof_if_nil fr) = r fr.
Proof. unfold eof_if_nil. by destruct (err fr). Qed.

Lemma terminal_intro fr e :
  err fr = Some e → n fr <= pos fr → terminal fr.
Proof. intros He Hle. split; [congruence | intros [_ ?]; lia]. Qed.

Lemma fill_pos0 fr : err fr = None → pos (fill fr) = 0 ∧ 0 <= n (fill fr).
Proof.
  intros He. unfold fill. rewrite He.
  destruct (io_Read (r fr) (length (buf fr))) as [[[data cnt] e'] rd].
  cbn [pos n]. destruct (Z.ltb_spec cnt 0); lia.
Qed.

(** The state in which [readAhead] leaves the reader. *)
Lemma readAhead_state fr b :
  ∃ fr1, snd (readAhead b fr) = fr1 ∨ snd (readAhead b fr) = eof_if_nil fr1.
Proof. unfold readAhead. repeat case_match; cbn [snd]; eauto. Qed.


Lemma readAhead_report fr b b' e fr' :
  readAhead b fr = ((b', Some e), fr') → terminal fr' ∧ err fr' = Some e.
Proof.
  unfold readAhead.
  destruct (Z.geb_spec (pos fr) (n fr)) as [Hge | Hlt]; cbn [andb].
  - destruct (bool_decide (err fr = None)) eqn:Hd.
    + apply bool_decide_eq_true in Hd. destruct (fill_pos0 fr Hd) as [Hp Hn].
      destruct (Z.eqb_spec (n (fill fr)) 0) as [Hz | Hnz].
      * intros [= _ He <-]. split; [| done].
        destruct (eof_if_nil_same (fill fr)) as (Hp' & Hn' & _).
        apply (terminal_intro _ e); [done | lia].
      * destruct (Z.geb_spec (pos (fill fr)) (n (fill fr))); [lia |].
        cbn [andb]. done.
    + destruct (Z.eqb_spec (n fr) 0) as [Hz | Hnz].
      * intros [= _ He <-]. split; [| done].
        destruct (eof_if_nil_same fr) as (Hp' & Hn' & _).
        apply (terminal_intro _ e); [done | lia].
      * destruct (Z.geb_spec (pos fr) (n fr)); [| lia]. cbn [andb].
        destruct (bool_decide (err fr ≠ None)); [| done].
        intros [= _ He <-]. split; [| done]. by apply (terminal_intro _ e).
  - destruct (Z.geb_spec (pos fr) (n fr)); [lia |]. cbn [andb]. done.
Qed.



End Generic2.

Section Safety.
Context {R : Type} `{io_Reader R}.
Implicit Types fr : FastReader R.
Hypothesis bounded : Bounded (R := R).













End Safety.

Section Sticky.
Context {R : Type} `{io_Reader R}.
Implicit Types fr : FastReader R.

Lemma ensureData_terminal fr e :
  terminal fr → err fr = Some e → ensureData fr = (Some e, fr).
Proof.
  intros [Hne Hnot] He. unfold ensureData.
  rewrite bool_decide_true by done. cbn [andb].
  destruct (bool_decide (err fr = Some io_EOF)) eqn:Hd; cbn [andb negb].
  - apply bool_decide_eq_true in Hd.
    destruct (Z.ltb_spec (pos fr) (n fr)); [tauto |]. cbn [negb]. by rewrite He.
  - by rewrite He.
Qed.

Lemma ensureData_report fr e fr' :
  ensureData fr = (Some e, fr') → terminal fr' ∧ err fr' = Some e.
Proof.
  intros Hed.
  destruct (ensureData_cases fr) as
    [(e0 & He & ? & ?) | [(e0 & He & ? & ? & _) | [(He & _) | (He & _)]]];
    rewrite He in Hed; try done; by injection Hed as <- <-.
Qed.

Lemma PeekByte_report fr b e fr' :
  PeekByte fr = Done ((b, Some e), fr') → terminal fr' ∧ err fr' = Some e.
Proof.
  unfold PeekByte. destruct (ensureData fr) as [[e0 |] fr1] eqn:Hed.
  - intros [= _ <- <-]. by apply ensureData_report in Hed.
  - by destruct (index (buf fr1) (pos fr1)).
Qed.

Lemma ReadByte_report fr b e fr' :
  ReadByte fr = Done ((b, Some e), fr') → terminal fr' ∧ err fr' = Some e.
Proof.
  unfold ReadByte. destruct (ensureData fr) as [[e0 |] fr1] eqn:Hed.
  - intros [= _ <- <-]. by apply ensureData_report in Hed.
  - destruct (index (buf fr1) (pos fr1)); [| done].
    intros [= Hra]. by apply readAhead_report in Hra.
Qed.

Lemma PeekByte_terminal fr e :
  terminal fr → err fr = Some e → PeekByte fr = Done ((zero, Some e), fr).
Proof.
  intros Ht He. unfold PeekByte. by rewrite (ensureData_terminal fr e).
Qed.

Lemma ReadByte_terminal fr e :
  terminal fr → err fr = Some e → ReadByte fr = Done ((zero, Some e), fr).
Proof.
  intros Ht He. unfold ReadByte. by rewrite (ensureData_terminal fr e).
Qed.

(** After a successful peek the reader is either terminal (the refill
    brought bytes together with an error that is not [io.EOF]) or
    peeking again gives the same byte and changes nothing. *)
Lemma PeekByte_again fr b fr' :
  PeekByte fr = Done ((b, None), fr') →
  PeekByte fr' = Done ((b, None), fr') ∨ terminal fr'.
Proof.
  unfold PeekByte at 1. destruct (ensureData fr) as [[e0 |] fr1] eqn:Hed; [done |].
  destruct (index (buf fr1) (pos fr1)) as [b1 |] eqn:Hix; [| done].
  intros [= <- <-].
  destruct (ensureData_cases fr1) as
    [(e0 & He & _ & Ht) | [(e0 & He & _ & _ & Hn & Hle & _)
     | [(He & Hn & Hle & Hnz) | (He & Hlt & Herr)]]].
  - by right.
  - destruct (ensureData_cases fr) as
      [(? & He' & _) | [(? & He' & _) | [(He' & Hn' & _ & Hnz) | (He' & Hlt & _)]]];
      rewrite He' in Hed; try done; injection Hed as <-.
    + destruct (fill_pos0 fr Hn'). lia.
    + lia.
  - destruct (ensureData_cases fr) as
      [(? & He' & _) | [(? & He' & _) | [(He' & Hn' & _ & Hnz') | (He' & Hlt & _)]]];
      rewrite He' in Hed; try done; injection Hed as <-.
    + destruct (fill_pos0 fr Hn'). lia.
    + lia.
  - left. unfold PeekByte. by rewrite He, Hix.
Qed.

Lemma SkipSpaces_report fuel : ∀ fr e fr',
  SkipSpaces fuel fr = Done (Some e, fr') → terminal fr' ∧ err fr' = Some e.
Proof.
  induction fuel as [| fuel IH]; intros fr e fr'; cbn [SkipSpaces]; [done |].
  unbind. destruct (PeekByte fr) as [[[b [e0 |]] fr1] | |] eqn:Hpk; try done.
  - destruct (errors_Is e0 io_EOF); [done |].
    intros [= <- <-]. by apply PeekByte_report in Hpk.
  - destruct (isSpace b); [| done].
    destruct (ReadByte fr1) as [[out fr2] | |]; try done. apply IH.
Qed.

(** When [SkipSpaces] returns without error, the next peek does not
    give a whitespace byte. *)
Lemma SkipSpaces_None fuel : ∀ fr fr',
  SkipSpaces fuel fr = Done (None, fr') →
  (∃ e, terminal fr' ∧ err fr' = Some e)
  ∨ (∃ b, PeekByte fr' = Done ((b, None), fr') ∧ isSpace b = false).
Proof.
  induction fuel as [| fuel IH]; intros fr fr'; cbn [SkipSpaces]; [done |].
  unbind. destruct (PeekByte fr) as [[[b [e0 |]] fr1] | |] eqn:Hpk; try done.
  - destruct (errors_Is e0 io_EOF); [| done].
    intros [= <-]. left. apply PeekByte_report in Hpk. eauto.
  - destruct (isSpace b) eqn:Hsp.
    + destruct (ReadByte fr1) as [[out fr2] | |]; try done. apply IH.
    + intros [= <-]. destruct (PeekByte_again _ _ _ Hpk) as [Hpk' | [Hne Hnot]].
      * right. eauto.
      * left. destruct (err fr1) eqn:He; [| done]. eexists. split; [| done].
        split; [by rewrite He | by rewrite He].
Qed.

Lemma digitLoop_report norm fuel : ∀ fr val cnt e v c fr',
  digitLoop norm fuel val cnt fr = Done ((Some e, v, c), fr') →
  terminal fr' ∧ err fr' = Some e.
Proof.
  induction fuel as [| fuel IH]; intros fr val cnt e v c fr'; cbn [digitLoop];
    [done |].
  unbind. destruct (PeekByte fr) as [[[b [e0 |]] fr1] | |] eqn:Hpk; try done.
  - destruct (errors_Is e0 io_EOF); [done |].
    intros [= <- _ _ <-]. by apply PeekByte_report in Hpk.
  - destruct (isDigit b); cbn [negb]; [| done].
    destruct (ReadByte fr1) as [[out fr2] | |]; try done. apply IH.
Qed.

Lemma wordLoop_report fuel : ∀ fr acc out e fr',
  wordLoop fuel acc fr = Done ((out, Some e), fr') →
  acc ≠ [] ∨ (∀ b fr1, PeekByte fr = Done ((b, None), fr1) → isSpace b = false) →
  terminal fr' ∧ ∃ e', err fr' = Some e' ∧ behind e e'.
Proof.
  induction fuel as [| fuel IH]; intros fr acc out e fr'; cbn [wordLoop];
    [done |].
  unbind. destruct (PeekByte fr) as [[[b [e0 |]] fr1] | |] eqn:Hpk; try done.
  - apply PeekByte_report in Hpk as [Ht He0].
    destruct (errors_Is e0 io_EOF) eqn:Heof.
    + case_bool_decide; [| done]. intros [= _ <- <-] _.
      split; [done |]. exists e0. split; [done |]. by right.
    + intros [= _ <- <-] _. split; [done |]. exists e0. split; [done |]. by left.
  - destruct (isSpace b) eqn:Hsp.
    + case_bool_decide as Hlen; [| done]. intros _ [Hacc | Hpeek].
      * by destruct acc.
      * specialize (Hpeek b fr1 eq_refl). congruence.
    + destruct (ReadByte fr1) as [[o fr2] | |]; try done.
      intros Hw _. apply (IH _ _ _ _ _ Hw). left. by destruct acc.
Qed.

Lemma lineLoop_report fuel : ∀ fr acc out e fr',
  lineLoop fuel acc fr = Done ((out, Some e), fr') →
  terminal fr' ∧ ∃ e', err fr' = Some e' ∧ behind e e'.
Proof.
  induction fuel as [| fuel IH]; intros fr acc out e fr'; cbn [lineLoop];
    [done |].
  unbind. destruct (ReadByte fr) as [[[b [e0 |]] fr1] | |] eqn:Hrd; try done.
  - apply ReadByte_report in Hrd as [Ht He0].
    destruct (errors_Is e0 io_EOF) eqn:Heof.
    + case_bool_decide; [| done]. intros [= _ <- <-].
      split; [done |]. exists e0. split; [done |]. by right.
    + intros [= _ <- <-]. split; [done |]. exists e0. split; [done |]. by left.
  - case_bool_decide; [done |]. apply IH.
Qed.

Lemma call_report o fuel fr e fr' :
  call o fuel fr = Done (Some e, fr') →
  (∃ fn, e = errNoDigits fn)
  ∨ (terminal fr' ∧ ∃ e', err fr' = Some e' ∧ behind e e').
Proof.
  assert (∀ fn norm sign out, snd (finish fn norm sign out) = Some e →
            e = errNoDigits fn ∨ fst (fst out) = Some e) as Hfin.
  { intros fn norm sign [[[e0 |] v] c]; cbn [finish fst snd].
    - intros [= <-]. by right.
    - destruct (c =? 0); [| done]. intros [= <-]. by left. }
  assert (∀ fr1, terminal fr1 → err fr1 = Some e →
            terminal fr1 ∧ ∃ e', err fr1 = Some e' ∧ behind e e') as Hsame.
  { intros fr1 Ht He. split; [done |]. exists e. split; [done | by left]. }
  destruct o; unfold call; unbind.
  - destruct (ReadByte fr) as [[[b e0] fr1] | |] eqn:Hrd; try done.
    cbn [snd]. intros [= -> <-]. right.
    apply ReadByte_report in Hrd as [? ?]. by apply Hsame.
  - destruct (PeekByte fr) as [[[b e0] fr1] | |] eqn:Hpk; try done.
    cbn [snd]. intros [= -> <-]. right.
    apply PeekByte_report in Hpk as [? ?]. by apply Hsame.
  - intros Hsk. right. apply SkipSpaces_report in Hsk as [? ?]. by apply Hsame.
  - unfold NextWord. unbind.
    destruct (SkipSpaces fuel fr) as [[[e0 |] fr1] | |] eqn:Hsk; try done.
    + apply SkipSpaces_report in Hsk as [Ht He0].
      destruct (errors_Is e0 io_EOF) eqn:Heof; cbn [snd]; intros [= <- <-];
        right; (split; [done |]); exists e0; (split; [done |]);
        [by right | by left].
    + destruct (wordLoop fuel [] fr1) as [[[out e1] fr2] | |] eqn:Hw; try done.
      cbn [snd]. intros [= -> <-]. right. apply (wordLoop_report _ _ _ _ _ _ Hw).
      right. intros b fr2' Hpk.
      destruct (SkipSpaces_None _ _ _ Hsk) as [(e1 & Ht & He1) | (b' & Hpk' & Hsp)].
      * rewrite (PeekByte_terminal fr1 e1) in Hpk; done.
      * rewrite Hpk' in Hpk. by injection Hpk as <- _.
  - unfold NextInt. unbind.
    destruct (SkipSpaces fuel fr) as [[[e0 |] fr1] | |] eqn:Hsk; try done.
    { cbn [snd]. intros [= <- <-]. right.
      apply SkipSpaces_report in Hsk as [? ?]. by apply Hsame. }
    destruct (PeekByte fr1) as [[[b [e0 |]] fr2] | |] eqn:Hpk; try done.
    { cbn [snd]. intros [= <- <-]. right.
      apply PeekByte_report in Hpk as [? ?]. by apply Hsame. }
    destruct (readSign b fr2) as [[sign fr3] | |]; try done.
    destruct (digitLoop wrap fuel 0 0 fr3) as [[out fr4] | |] eqn:Hdl; try done.
    intros [= Hf <-]. apply Hfin in Hf as [-> | Hf]; [left; eauto |].
    right. destruct out as [[e1 v] c]. cbn [fst] in Hf. subst e1.
    apply digitLoop_report in Hdl as [? ?]. by apply Hsame.
  - unfold NextInt64. unbind.
    destruct (SkipSpaces fuel fr) as [[[e0 |] fr1] | |] eqn:Hsk; try done.
    { cbn [snd]. intros [= <- <-]. right.
      apply SkipSpaces_report in Hsk as [? ?]. by apply Hsame. }
    destruct (PeekByte fr1) as [[[b [e0 |]] fr2] | |] eqn:Hpk; try done.
    { cbn [snd]. intros [= <- <-]. right.
      apply PeekByte_report in Hpk as [? ?]. by apply Hsame. }
    destruct (readSign b fr2) as [[sign fr3] | |]; try done.
    destruct (digitLoop wrap fuel 0 0 fr3) as [[out fr4] | |] eqn:Hdl; try done.
    intros [= Hf <-]. apply Hfin in Hf as [-> | Hf]; [left; eauto |].
    right. destruct out as [[e1 v] c]. cbn [fst] in Hf. subst e1.
    apply digitLoop_report in Hdl as [? ?]. by apply Hsame.
  - unfold NextUint64. unbind.
    destruct (SkipSpaces fuel fr) as [[[e0 |] fr1] | |] eqn:Hsk; try done.
    { cbn [snd]. intros [= <- <-]. right.
      apply SkipSpaces_report in Hsk as [? ?]. by apply Hsame. }
    destruct (PeekByte fr1) as [[[b [e0 |]] fr2] | |] eqn:Hpk; try done.
    { cbn [snd]. intros [= <- <-]. right.
      apply PeekByte_report in Hpk as [? ?]. by apply Hsame. }
    match goal with |- context [match ?m fr2 with _ => _ end] =>
      destruct (m fr2) as [[u fr3] | |] end; try done.
    destruct (digitLoop wrapU fuel 0 0 fr3) as [[out fr4] | |] eqn:Hdl; try done.
    intros [= Hf <-]. apply Hfin in Hf as [-> | Hf]; [left; eauto |].
    right. destruct out as [[e1 v] c]. cbn [fst] in Hf. subst e1.
    apply digitLoop_report in Hdl as [? ?]. by apply Hsame.
  - unfold NextLine. unbind.
    destruct (lineLoop fuel [] fr) as [[[acc [e0 |]] fr1] | |] eqn:Hl; try done.
    cbn [snd]. intros [= <- <-]. right. by apply lineLoop_report in Hl.
Qed.

(** In a terminal state every call returns at once, with [answer], and
    leaves the state as it is. *)
Lemma call_sticky o fuel fr e :
  terminal fr → err fr = Some e →
  call o (S fuel) fr = Done (answer o e, fr).
Proof.
  intros Ht He.
  pose proof (PeekByte_terminal fr e Ht He) as Hpk.
  pose proof (ReadByte_terminal fr e Ht He) as Hrd.
  destruct o; unfold call, answer, NextWord, NextInt, NextInt64, NextUint64,
    NextLine; cbn [SkipSpaces wordLoop lineLoop]; unbind;
    rewrite ?Hrd, ?Hpk; try done;
    destruct (errors_Is e io_EOF) eqn:Heof; rewrite ?Hpk, ?Heof; done.
Qed.
End Sticky.

(** ** The claims about the read engine *)





Lemma strings_Bounded : Bounded (R := strings_Reader).
Proof.
  intros rd len. unfold io_Read, strings_Reader_Read.
  destruct (length (s rd) <=? i rd)%nat; cbn [fst snd]; [lia |].
  rewrite length_take. lia.
Qed.


(** The first peek into an empty buffer when the source has nothing:
    its error, or [io.EOF] when it gave none, becomes the sticky
    error. *)
Lemma PeekByte_refill_empty {R} `{io_Reader R} (fr : FastReader R)
    data cnt e rd :
  err fr = None → n fr <= pos fr →
  io_Read (r fr) (length (buf fr)) = ((data, cnt, e), rd) → cnt <= 0 →
  let e' := match e with Some e => e | None => io_EOF end in
  let fr' := {| r := rd; buf := stored (buf fr) data; pos := 0; n := 0;
                err := Some e' |} in
  PeekByte fr = Done ((zero, Some e'), fr') ∧ terminal fr'.
Proof.
  intros He Hle Hrd Hcnt e' fr'.
  assert (fill fr = {| r := rd; buf := stored (buf fr) data; pos := 0;
                       n := 0; err := e |}) as Hfill.
  { unfold fill. rewrite He, Hrd. destruct (Z.ltb_spec cnt 0); [done |].
    by replace cnt with 0 by lia. }
  assert (eof_if_nil (fill fr) = fr') as Heof.
  { rewrite Hfill. unfold eof_if_nil, fr', e'. by destruct e. }
  split; [| by apply (terminal_intro _ e')].
  destruct (ensureData_cases fr) as
    [(e0 & _ & He0 & _) | [(e0 & Hed & He0 & _)
     | [(_ & _ & _ & Hnz) | (_ & Hlt & _)]]]; try congruence; try lia.
  - unfold PeekByte. rewrite Hed, Heof. rewrite Heof in He0.
    cbn [err fr'] in He0. by injection He0 as <-.
  - rewrite Hfill in Hnz. done.
Qed.

Lemma NextLine_terminal {R} `{io_Reader R} (fr : FastReader R) e fuel :
  terminal fr → err fr = Some e →
  NextLine (S fuel) fr
  = Done (([], if errors_Is e io_EOF then Some io_EOF else Some e), fr).
Proof.
  intros Ht He. unfold NextLine. cbn [lineLoop]. unbind.
  rewrite (ReadByte_terminal fr e Ht He).
  by destruct (errors_Is e io_EOF).
Qed.

(** C5, as the claim states it, fails.  After [ReadByte] reported the
    end of the input, [SkipSpaces] returns without error, not with that
    error; and when the source failed with an error that wraps
    [io.EOF], [NextLine] returns [io.EOF] itself, not the error that
    [PeekByte] reported. *)
Lemma not_the_same_error :
  (∃ fr1 fr2,
      ReadByte (NewReader (strings_NewReader []))
      = Done ((zero, Some io_EOF), fr1)
      ∧ SkipSpaces 1 fr1 = Done (None, fr2))
  ∧ (let e := fmt_Errorf "read" io_EOF in
     ∃ fr1,
       PeekByte (NewReader {| script := [([], 0, Some e)] |})
       = Done ((zero, Some e), fr1)
       ∧ NextLine 1 fr1 = Done (([], Some io_EOF), fr1)
       ∧ e ≠ io_EOF).
Proof.
  split.
  - destruct (ReadByte_nil _ (Rep_NewReader [])) as (fr1 & Hrd & HR1 & _).
    destruct (SkipSpaces_Rep [] [] fr1 1) as (fr2 & Hsk & _);
      [constructor | exact I | exact HR1 | simpl; lia |].
    eauto.
  - intros e.
    destruct (PeekByte_refill_empty
                (NewReader {| script := [([], 0, Some e)] |})
                [] 0 (Some e) {| script := [] |}) as [Hpk Ht];
      [reflexivity | cbn [n pos NewReader]; lia | reflexivity | lia |].
    eexists. split; [exact Hpk |]. split; [| done].
    by rewrite (NextLine_terminal _ e 0 Ht eq_refl).
Qed.

(** C5, amended.  Once a call has returned an end-of-input or I/O error
    [e] (any error but the no-digits error of the number tokenizers), a
    sticky error [e'] is set, which is [e] itself or, when a tokenizer
    returned [io.EOF], an error that [errors.Is] classifies as end of
    input.  From then on every call returns at once and leaves the
    engine, the source included, untouched: no further read is made.
    [ReadByte], [PeekByte], [NextInt], [NextInt64] and [NextUint64]
    return [e']; [NextWord] and [NextLine] return [io.EOF] when [e'] is
    or wraps [io.EOF] and [e'] otherwise; [SkipSpaces] returns success
    when [e'] is or wraps [io.EOF] and [e'] otherwise. *)
Theorem sticky_error {R} `{io_Reader R} (o1 o2 : readOp) (fuel1 fuel2 : nat)
    (fr fr1 : FastReader (Metered R)) (e : error) :
  call o1 fuel1 fr = Done (Some e, fr1) → (∀ fn, e ≠ errNoDigits fn) →
  ∃ e' fr2,
    err fr1 = Some e' ∧ behind e e'
    ∧ call o2 (S fuel2) fr1 = Done (answer o2 e', fr2)
    ∧ fr2 = fr1 ∧ reads (r fr2) = reads (r fr1)
    ∧ (o2 ≠ opSkipSpaces → e' = io_EOF ∨ errors_Is e' io_EOF = false →
       answer o2 e' = Some e').
Proof.
  intros Hcall Hval.
  destruct (call_report o1 fuel1 fr e fr1 Hcall) as
    [[fn ->] | (Ht & e' & He' & Hbehind)]; [by destruct (Hval fn) |].
  exists e', fr1. split_and!; try done.
  - by apply call_sticky.
  - intros Ho [-> | Hno]; destruct o2; cbn [answer]; try done;
      by rewrite Hno.
Qed.

Lemma sticky_error_witness :
  ∃ e' fr2,
    err (eof_if_nil (fill (NewReader {| device := strings_NewReader []; reads := 0 |})))
    = Some e'
    ∧ behind io_EOF e'
    ∧ call opNextLine 1
        (eof_if_nil (fill (NewReader {| device := strings_NewReader []; reads := 0 |})))
      = Done (answer opNextLine e', fr2)
    ∧ fr2 = eof_if_nil (fill (NewReader {| device := strings_NewReader []; reads := 0 |}))
    ∧ reads (r fr2)
      = reads (r (eof_if_nil (fill (NewReader {| device := strings_NewReader []; reads := 0 |}))))
    ∧ (opNextLine ≠ opSkipSpaces → e' = io_EOF ∨ errors_Is e' io_EOF = false →
       answer opNextLine e' = Some e').
Proof.
  apply (sticky_error opNextInt opNextLine 1 0
           (NewReader {| device := strings_NewReader []; reads := 0 |})).
  - reflexivity.
  - intros fn. unfold errNoDigits. discriminate.
Defined.

(** C9: when [ReadByte] takes the last byte the reader holds and the
    source then yields no byte and no failure (or its end-of-input
    error), that same call returns the byte, which is the byte at
    [pos], together with [io.EOF]; the error is then sticky. *)
Theorem ReadByte_last_byte {R} `{io_Reader R} (fr fr1 : FastReader R)
    (b : byte) (data : list byte) (cnt : Z) (e : option error) (rd : R) :
  ensureData fr = (None, fr1) → err fr1 = None →
  0 <= pos fr1 → pos fr1 + 1 = n fr1 →
  buf fr1 !! Z.to_nat (pos fr1) = Some b →
  io_Read (r fr1) (length (buf fr1)) = ((data, cnt, e), rd) →
  cnt <= 0 → e = None ∨ e = Some io_EOF →
  ∃ fr', ReadByte fr = Done ((b, Some io_EOF), fr')
         ∧ err fr' = Some io_EOF ∧ n fr' = 0 ∧ pos fr' = 0
         ∧ ReadByte fr' = Done ((zero, Some io_EOF), fr').
Proof.
  intros Hed He1 Hpos Hlast Hb Hrd Hcnt He.
  unfold ReadByte at 1. rewrite Hed, (index_Some _ _ b Hpos Hb).
  set (fr2 := set_pos (pos fr1 + 1) fr1).
  assert (fill fr2 = {| r := rd; buf := stored (buf fr1) data; pos := 0;
                        n := 0; err := e |}) as Hfill.
  { unfold fill, fr2. cbn [err r buf set_pos]. rewrite He1, Hrd.
    destruct (Z.ltb_spec cnt 0); [done |]. by replace cnt with 0 by lia. }
  assert (readAhead b fr2
          = ((b, Some io_EOF),
             {| r := rd; buf := stored (buf fr1) data; pos := 0; n := 0;
                err := Some io_EOF |})) as ->.
  { unfold readAhead. cbn [pos n err fr2 set_pos].
    destruct (Z.geb_spec (pos fr1 + 1) (n fr1)); [| lia].
    rewrite bool_decide_true by done. fold fr2. rewrite Hfill. cbn [n andb].
    unfold eof_if_nil. cbn [err set_err].
    destruct He as [-> | ->]; done. }
  eexists. split; [done |]. cbn [err n pos].
  split; [reflexivity |]. split; [reflexivity |]. split; [reflexivity |].
  apply ReadByte_terminal; [| done].
  by apply (terminal_intro _ io_EOF).
Qed.

Lemma ReadByte_last_byte_witness :
  let fr1 := {| r := {| script := [([], 0, None)] |}; buf := bytes "xyz";
                pos := 2; n := 3; err := None |} in
  ∃ fr', ReadByte fr1 = Done (("z"%char, Some io_EOF), fr')
         ∧ err fr' = Some io_EOF ∧ n fr' = 0 ∧ pos fr' = 0
         ∧ ReadByte fr' = Done ((zero, Some io_EOF), fr').
Proof.
  intros fr1.
  apply (ReadByte_last_byte fr1 fr1 "z"%char [] 0 None {| script := [] |}).
  - reflexivity.
  - reflexivity.
  - simpl. lia.
  - reflexivity.
  - reflexivity.
  - reflexivity.
  - lia.
  - left. reflexivity.
Defined.

(** *** [NextInt] without a digit *)

(** Every input is white space, then a sign or no sign, then the rest;
    without a sign the rest is empty or starts with a byte that is
    neither white space nor a sign. *)
Lemma input_shape (l : list byte) :
  ∃ ws sg rest,
    l = ws ++ sg ++ rest ∧ Forall (λ b, isSpace b = true) ws
    ∧ (sg = ["-"%char] ∨ sg = ["+"%char]
       ∨ (sg = [] ∧ match rest with
                    | [] => True
                    | b :: _ => isSpace b = false ∧ b ≠ "-"%char ∧ b ≠ "+"%char
                    end)).
Proof.
  destruct (span_While isSpace l) as (Hl & Hws & Hhd).
  destruct (skipWhile isSpace l) as [| b t] eqn:Hsk.
  - exists (takeWhile isSpace l), [], []. split; [done |]. split; [done |].
    right. right. done.
  - destruct (decide (b = "-"%char)) as [-> | Hm].
    { exists (takeWhile isSpace l), ["-"%char], t. split; [done |]. split; auto. }
    destruct (decide (b = "+"%char)) as [-> | Hp].
    { exists (takeWhile isSpace l), ["+"%char], t. split; [done |]. split; auto. }
    exists (takeWhile isSpace l), [], (b :: t). split; [done |]. split; [done |].
    right. right. done.
Qed.







End ReaderFacts.

(** * The write engine *)

Module WriterFacts.
Import Writer.

Section Effects.
Context {W : Type} `{io_Writer W}.
Implicit Types fw : FastWriter (Logged W).

Lemma sinkWrite_log fw p :
  sinkWrite p fw
  = (fst (io_Write (sink (w fw)) p),
     set_w {| sink := snd (io_Write (sink (w fw)) p);
              calls := calls (w fw) ++ [p] |} fw).
Proof.
  unfold sinkWrite, io_Write at 1, Logged_Writer.
  by destruct (io_Write (sink (w fw)) p).
Qed.

Lemma replay_app (m1 m2 : list (list byte)) (d : W) :
  replay (m1 ++ m2) d = replay m2 (replay m1 d).
Proof. unfold replay. by rewrite fold_left_app. Qed.

Lemma allAccepted_app (m1 m2 : list (list byte)) : ∀ d : W,
  allAccepted d (m1 ++ m2) = allAccepted d m1 && allAccepted (replay m1 d) m2.
Proof.
  induction m1 as [| c m1 IH]; intros d; cbn [app allAccepted]; [done |].
  rewrite IH. cbn [replay fold_left]. by rewrite <- !andb_assoc.
Qed.

Lemma allAccepted_Accepting (cs : list (list byte)) : ∀ d : W,
  Accepting (W := W) → allAccepted d cs = true.
Proof.
  induction cs as [| c cs IH]; intros d Hacc; cbn [allAccepted]; [done |].
  rewrite (Hacc d c). cbn [fst snd]. rewrite bool_decide_true by done.
  rewrite IH by done. destruct (Z.leb_spec (Z.of_nat (length c)) (Z.of_nat (length c))); [done | lia].
Qed.

Lemma effect_refl fw payload :
  Inv fw → err fw ≠ None → ∀ e, effect [] payload (Some e) fw fw.
Proof.
  intros Hi He e. unfold effect. rewrite app_nil_r.
  split_and!; done.
Qed.

Lemma effect_skip fw :
  Inv fw → err fw = None → effect [] [] None fw fw.
Proof.
  intros Hi He. unfold effect. rewrite !app_nil_r.
  split_and!; done.
Qed.

(** Sequencing: a successful operation followed by another one. *)
Lemma effect_seq m1 m2 p1 p2 out fw fw1 fw2 :
  effect m1 p1 None fw fw1 → effect m2 p2 out fw1 fw2 →
  effect (m1 ++ m2) (p1 ++ p2) out fw fw2.
Proof.
  intros (Hi1 & Hl1 & Ha1 & Hm1 & Hc1 & Hs1 & Hf1 & He & He1 & Hcat1)
         (Hi2 & Hl2 & Ha2 & Hm2 & Hc2 & Hs2 & Hf2 & Hout).
  unfold effect. split; [done |]. split; [congruence |].
  split; [congruence |]. split; [congruence |].
  split; [by rewrite Hc2, Hc1, app_assoc |].
  split; [by rewrite Hs2, Hs1, replay_app |].
  split; [apply Forall_app; split; [done | by rewrite <- Hl1] |].
  destruct out as [e |].
  - destruct Hout as [He2 Hacc]. split; [done |]. intros _.
    rewrite allAccepted_app, <- Hs1, (Hacc He1). apply andb_false_r.
  - destruct Hout as (_ & He2 & Hcat2). split; [done |]. split; [done |].
    by rewrite concat_app, <- app_assoc, Hcat2, !app_assoc, Hcat1.
Qed.

Lemma slice_to_pending fw :
  Inv fw → slice_to (buf fw) (pos fw) = Some (pending fw).
Proof.
  intros [_ Hp]. unfold slice_to, pending.
  destruct (Z.leb_spec 0 (pos fw)); [| lia].
  destruct (Z.leb_spec (pos fw) (Z.of_nat (length (buf fw)))); [done | lia].
Qed.

Lemma length_pending fw :
  Inv fw → Z.of_nat (length (pending fw)) = pos fw.
Proof. intros [_ Hp]. unfold pending. rewrite length_take. lia. Qed.

(** [Flush]: nothing, or one call with the buffered bytes. *)
Lemma Flush_effect fw :
  Inv fw →
  ∃ out fw' more,
    Flush fw = Done (out, fw') ∧ effect more [] out fw fw'
    ∧ buf fw' = buf fw ∧ scratch fw' = scratch fw
    ∧ (out = None → pos fw' = 0)
    ∧ (pos fw = 0 → more = [] ∧ fw' = fw)
    ∧ (more = [] ∨ (more = [pending fw] ∧ pos fw ≠ 0)).
Proof.
  intros Hi. pose proof Hi as [Hcap Hpos]. unfold Flush.
  destruct (err fw) as [e |] eqn:He.
  { exists (Some e), fw, []. split; [done |].
    split; [apply effect_refl; [done | by rewrite He] |].
    split_and!; try done. by left. }
  destruct (Z.eqb_spec (pos fw) 0) as [Hz | Hnz].
  { exists None, fw, []. split; [done |].
    split; [by apply effect_skip |]. split_and!; try done. by left. }
  rewrite (slice_to_pending fw Hi), sinkWrite_log.
  pose proof (length_pending fw Hi) as Hlen.
  destruct (io_Write (sink (w fw)) (pending fw)) as [[cnt [e |]] d] eqn:Hio;
    cbn [fst snd].
  - eexists _, _, [pending fw]. split; [done |]. split.
    + unfold effect. cbn. rewrite Hio. cbn.
      split_and!; try done.
      constructor; [| done]. unfold pending. rewrite length_take. lia.
    + cbn. split_and!; try done; try lia; by right.
  - cbn [pos set_w]. destruct (Z.ltb_spec cnt (pos fw)).
    + eexists _, _, [pending fw]. split; [done |]. split.
      * unfold effect. cbn. rewrite Hio. cbn.
        split_and!; try done.
        -- constructor; [| done]. unfold pending. rewrite length_take. lia.
        -- intros _. destruct (Z.leb_spec (Z.of_nat (length (pending fw))) cnt);
             [lia | done].
      * cbn. split_and!; try done; try lia; by right.
    + eexists _, _, [pending fw]. split; [done |]. split.
      * unfold effect. cbn. rewrite Hio. cbn.
        split_and!; try done; try lia.
        -- split; [done | cbn; lia].
        -- constructor; [| done]. unfold pending. rewrite length_take. lia.
        -- unfold pending at 2. cbn. by rewrite !app_nil_r.
      * cbn. split_and!; try done; try lia; by right.
Qed.

(** A zero-length write: the probe of [checkWriter], and the write of
    [buf[:0]] in [ensureSpace]. *)
Lemma emptyWrite_effect fw :
  Inv fw → err fw = None →
  ∃ out fw',
    emptyWrite fw = Done (out, fw') ∧ effect [[]] [] out fw fw'
    ∧ buf fw' = buf fw ∧ scratch fw' = scratch fw ∧ pos fw' = pos fw.
Proof.
  intros Hi He. pose proof Hi as [Hcap Hpos].
  unfold emptyWrite. rewrite sinkWrite_log.
  destruct (io_Write (sink (w fw)) []) as [[cnt [e |]] d] eqn:Hio;
    cbn [fst snd]; eexists _, _; (split; [done |]); (split; [| done]);
    unfold effect, pending; cbn; rewrite Hio; cbn;
    split_and!; try done; try (constructor; [simpl; lia | done]).
  by rewrite app_nil_r.
Qed.

Lemma checkWriter_effect fw :
  Inv fw → err fw = None →
  ∃ out fw',
    checkWriter fw = Done (out, fw') ∧ effect [[]] [] out fw fw'
    ∧ buf fw' = buf fw ∧ scratch fw' = scratch fw ∧ pos fw' = pos fw
    ∧ ∀ cnt e d, io_Write (sink (w fw)) [] = ((cnt, Some e), d) →
        out = Some (writerError e)
        ∧ fw' = set_err (Some (writerError e))
                  (set_w {| sink := d; calls := calls (w fw) ++ [[]] |} fw).
Proof.
  intros Hi He. pose proof Hi as [Hcap Hpos].
  unfold checkWriter. rewrite He, sinkWrite_log.
  destruct (io_Write (sink (w fw)) []) as [[cnt [e |]] d] eqn:Hio;
    cbn [fst snd]; eexists _, _; (split; [done |]); (split; [| split_and!; try done]);
    try (unfold effect, pending; cbn; rewrite Hio; cbn;
         split_and!; try done; try (constructor; [simpl; lia | done])).
  - by intros ? ? ? [= _ <- <-].
  - by rewrite app_nil_r.
Qed.

Lemma flushed_nothing fw fw1 :
  Inv fw → pos fw1 = 0 → concat [] ++ pending fw1 = pending fw ++ [] →
  pos fw = 0.
Proof.
  intros Hi Hp1 Hcat. unfold pending at 1 in Hcat. rewrite Hp1 in Hcat.
  cbn in Hcat. rewrite app_nil_r in Hcat.
  pose proof (length_pending fw Hi) as Hl. rewrite <- Hcat in Hl. simpl in Hl. lia.
Qed.

Lemma makeRoom_effect fw k :
  Inv fw → err fw = None → 0 < k →
  let cap := Z.of_nat (length (buf fw)) in
  ∃ out fw' more,
    makeRoom k fw = Done (out, fw') ∧ effect more [] out fw fw'
    ∧ buf fw' = buf fw ∧ scratch fw' = scratch fw
    ∧ (out = None →
       more = (if cap <? k then (if pos fw =? 0 then [] else [pending fw]) ++ [[]]
               else if cap <? pos fw + k then [pending fw] else [])
       ∧ (k <= cap → pos fw' + k <= cap) ∧ (cap < k → pos fw' = 0)
       ∧ (pos fw + k <= cap → fw' = fw)
       ∧ (cap < pos fw + k → pos fw' = 0)).
Proof.
  intros Hi He Hk cap. pose proof Hi as [Hcap Hpos]. unfold makeRoom. fold cap.
  rewrite !Z.gtb_ltb.
  destruct (Flush_effect fw Hi)
    as (o1 & fw1 & m1 & HF & HeF & HbF & HsF & HpF & HzF & HmF).
  destruct (Z.ltb_spec cap k) as [Hbig | Hfit].
  - unbind. rewrite HF.
    destruct o1 as [e1 |].
    { eexists _, _, _. split; [done |]. split; [exact HeF |]. done. }
    pose proof HeF as (Hi1 & Hl1 & _ & _ & _ & _ & _ & _ & He1 & _).
    destruct (emptyWrite_effect fw1 Hi1 He1) as (o2 & fw2 & HE & HeE & HbE & HsE & HpE).
    rewrite HE. eexists _, _, _. split; [done |].
    split; [apply (effect_seq m1 [[]] [] [] o2 fw fw1 fw2); done |].
    split; [congruence |]. split; [congruence |].
    intros ->. assert (pos fw2 = 0) as Hp2 by (rewrite HpE; by apply HpF).
    split_and!; try lia.
    + f_equal. destruct (Z.eqb_spec (pos fw) 0) as [Hz | Hnz].
      * by destruct (HzF Hz).
      * destruct HmF as [-> | [-> _]]; [| done].
        destruct HeF as (_ & _ & _ & _ & _ & _ & _ & _ & _ & Hcat).
        exfalso. apply Hnz. apply (flushed_nothing fw fw1); [done | | done].
        by apply HpF.
  - destruct (Z.ltb_spec cap (pos fw + k)) as [Hov | Hroom].
    + unbind. rewrite HF.
      destruct o1 as [e1 |].
      { eexists _, _, _. split; [done |]. split; [exact HeF |]. done. }
      eexists _, _, _. split; [done |]. split; [exact HeF |].
      split; [done |]. split; [done |]. intros _.
      pose proof (HpF eq_refl) as Hp1. split_and!; try lia.
      destruct HmF as [-> | [-> _]]; [| done].
      destruct HeF as (_ & _ & _ & _ & _ & _ & _ & _ & _ & Hcat).
      exfalso. pose proof (flushed_nothing fw fw1 Hi Hp1 Hcat). lia.
    + exists None, fw, []. split; [done |].
      split; [by apply effect_skip |]. split; [done |]. split; [done |].
      intros _. split_and!; try done; lia.
Qed.

(** [ensureSpace]: on success there is room for [k] bytes when [k] is
    within the capacity, and the buffer is empty when it is not. *)
Lemma ensureSpace_effect fw k :
  Inv fw → 0 < k →
  let cap := Z.of_nat (length (buf fw)) in
  ∃ out fw' more,
    ensureSpace k fw = Done (out, fw') ∧ effect more [] out fw fw'
    ∧ buf fw' = buf fw ∧ scratch fw' = scratch fw
    ∧ (pos fw = 0 → err fw = None → ∃ more', more = [] :: more')
    ∧ (out = None →
       more = roomCalls k fw
       ∧ (k <= cap → pos fw' + k <= cap) ∧ (cap < k → pos fw' = 0)
       ∧ (pos fw + k <= cap → pos fw' = pos fw)
       ∧ (cap < pos fw + k → pos fw' = 0)).
Proof.
  intros Hi Hk cap. pose proof Hi as [Hcap Hpos]. unfold ensureSpace, roomCalls.
  fold cap.
  destruct (err fw) as [e |] eqn:He.
  { exists (Some e), fw, []. split; [done |].
    split; [apply effect_refl; [done | by rewrite He] |]. done. }
  unbind. destruct (Z.eqb_spec (pos fw) 0) as [Hz | Hnz].
  - destruct (checkWriter_effect fw Hi He)
      as (o1 & fw1 & HC & HeC & HbC & HsC & HpC & _).
    rewrite HC. destruct o1 as [e1 |].
    { eexists _, _, _. split; [done |]. split; [exact HeC |].
      split_and!; try done. intros _ _. eauto. }
    pose proof HeC as (Hi1 & Hl1 & _ & _ & _ & _ & _ & _ & He1 & _).
    destruct (makeRoom_effect fw1 k Hi1 He1 Hk)
      as (o2 & fw2 & m2 & HM & HeM & HbM & HsM & HoM).
    rewrite HM. eexists _, _, _. split; [done |].
    split; [apply (effect_seq [[]] m2 [] [] o2 fw fw1 fw2); done |].
    split; [congruence |]. split; [congruence |].
    split; [intros _ _; eauto |].
    intros ->. destruct (HoM eq_refl) as (Hm2 & Hr1 & Hr2 & Hr3 & Hr4).
    assert (pending fw1 = pending fw) as Hpend
      by (unfold pending; congruence).
    rewrite HbC, HpC, Hpend in *. fold cap in Hm2, Hr1, Hr2, Hr3, Hr4.
    split; [by rewrite Hm2, Hz |]. split_and!; try done.
    intros Hle. by rewrite (Hr3 Hle).
  - destruct (makeRoom_effect fw k Hi He Hk)
      as (o2 & fw2 & m2 & HM & HeM & HbM & HsM & HoM).
    rewrite HM. eexists _, _, _. split; [done |]. split; [exact HeM |].
    split; [done |]. split; [done |]. split; [done |].
    intros ->. destruct (HoM eq_refl) as (Hm2 & Hr1 & Hr2 & Hr3 & Hr4).
    fold cap in Hm2. rewrite (proj2 (Z.eqb_neq _ _) Hnz) in Hm2.
    split; [by rewrite Hm2 |]. split_and!; try done.
    intros Hle. by rewrite (Hr3 Hle).
Qed.

Lemma effect_failed m p1 p2 e fw fw' :
  effect m p1 (Some e) fw fw' → effect m p2 (Some e) fw fw'.
Proof. done. Qed.

Lemma slice_from_pos fw :
  Inv fw → slice_from (buf fw) (pos fw) = Some (drop (Z.to_nat (pos fw)) (buf fw)).
Proof.
  intros [_ Hp]. unfold slice_from.
  destruct (Z.leb_spec 0 (pos fw)); [| lia].
  destruct (Z.leb_spec (pos fw) (Z.of_nat (length (buf fw)))); [done | lia].
Qed.

(** [copy] takes as many bytes of [p] as the free room holds and puts
    them behind the buffered ones. *)
Lemma copyIn_effect fw p :
  Inv fw → err fw = None →
  let k := Nat.min (length (buf fw) - Z.to_nat (pos fw)) (length p) in
  ∃ fw', copyIn p fw = Done (k, fw') ∧ effect [] (take k p) None fw fw'
         ∧ scratch fw' = scratch fw ∧ pos fw' = pos fw + Z.of_nat k
         ∧ pending fw' = pending fw ++ take k p.
Proof.
  intros Hi He k. pose proof Hi as [Hcap Hpos].
  unfold copyIn. rewrite (slice_from_pos fw Hi). rewrite length_drop. fold k.
  eexists. split; [done |].
  assert (pending
            (set_pos (pos fw + Z.of_nat k)
               (set_buf (take (Z.to_nat (pos fw)) (buf fw) ++ take k p
                         ++ drop k (drop (Z.to_nat (pos fw)) (buf fw))) fw))
          = pending fw ++ take k p) as Hpend.
  { unfold pending. cbn [pos buf set_pos set_buf].
    rewrite app_assoc. apply take_app_length'.
    rewrite length_app, !length_take. lia. }
  split; [| done].
  unfold effect. rewrite Hpend. cbn -[Nat.min].
  rewrite !length_app, !length_take, !length_drop.
  split_and!; try done; try lia.
  - unfold Inv. cbn -[Nat.min].
    rewrite !length_app, !length_take, !length_drop. lia.
  - by rewrite app_nil_r.
Qed.

Lemma putByte_effect fw b :
  Inv fw → err fw = None → pos fw + 1 <= Z.of_nat (length (buf fw)) →
  ∃ fw', putByte b fw = Done (tt, fw') ∧ effect [] [b] None fw fw'
         ∧ scratch fw' = scratch fw.
Proof.
  intros Hi He Hroom. pose proof Hi as [Hcap Hpos]. unfold putByte, index.
  destruct (Z.leb_spec 0 (pos fw)); [| lia].
  destruct (Z.ltb_spec (pos fw) (Z.of_nat (length (buf fw)))); [| lia].
  cbn [andb].
  destruct (lookup_lt_is_Some_2 (buf fw) (Z.to_nat (pos fw))) as [c ->]; [lia |].
  eexists. split; [done |]. split; [| done].
  unfold effect, pending. cbn. rewrite length_insert.
  split_and!; try done; try lia.
  - unfold Inv. cbn. rewrite length_insert. lia.
  - by rewrite app_nil_r.
  - replace (Z.to_nat (pos fw + 1)) with (S (Z.to_nat (pos fw))) by lia.
    rewrite (take_S_r _ _ b); [by rewrite take_insert_ge by lia |].
    apply list_lookup_insert_eq. lia.
Qed.

Lemma flushIfDue_effect fw :
  Inv fw → err fw = None →
  ∃ out fw' more,
    flushIfDue fw = Done (out, fw') ∧ effect more [] out fw fw'
    ∧ scratch fw' = scratch fw
    ∧ (autoFlush fw = false → more = [] ∧ fw' = fw ∧ out = None).
Proof.
  intros Hi He. unfold flushIfDue.
  destruct (autoFlush fw && (pos fw >=? limit fw)) eqn:Hdue.
  - destruct (Flush_effect fw Hi) as (o & fw' & m & HF & HeF & _ & HsF & _).
    exists o, fw', m. split_and!; try done. intros Ha. by rewrite Ha in Hdue.
  - exists None, fw, []. split; [done |]. split; [by apply effect_skip |]. done.
Qed.

(** The loop of [Write] ends within [len(p)] rounds; when it returns
    no error all of [p] went to the sink or the buffer, in order. *)
Lemma writeLoop_effect fuel : ∀ p total fw,
  Inv fw → err fw = None → (length p ≤ fuel)%nat →
  ∃ res fw' more,
    writeLoop fuel p total fw = Done (res, fw')
    ∧ effect more p (snd res) fw fw'
    ∧ scratch fw' = scratch fw
    ∧ (pos fw = 0 → p ≠ [] → ∃ more', more = [] :: more')
    ∧ (snd res = None → fst res = total + Z.of_nat (length p)).
Proof.
  induction fuel as [| fuel IH]; intros p total fw Hi He Hfuel.
  { destruct p; [| simpl in Hfuel; lia].
    exists (total, None), fw, []. cbn [writeLoop]. unbind.
    split; [done |]. split; [by apply effect_skip |].
    split_and!; try done. intros _. cbn. lia. }
  destruct p as [| b t].
  { exists (total, None), fw, []. cbn [writeLoop]. unbind.
    split; [done |]. split; [by apply effect_skip |].
    split_and!; try done. intros _. cbn. lia. }
  set (p := b :: t) in *.
  assert (0 < Z.of_nat (length p)) as Hlen by (simpl; lia).
  change (writeLoop (S fuel) p total fw)
    with ((e ← ensureSpace (Z.of_nat (length p));
           match e with
           | Some e => mret (total, Some e)
           | None =>
               k ← copyIn p;
               e ← flushIfDue;
               match e with
               | Some e => mret (total + Z.of_nat k, Some e)
               | None => writeLoop fuel (drop k p) (total + Z.of_nat k)
               end
           end) fw).
  unbind.
  destruct (ensureSpace_effect fw _ Hi Hlen)
    as (o1 & fw1 & m1 & HE & HeE & HbE & HsE & HprE & HoE).
  rewrite HE. destruct o1 as [e1 |].
  { exists (total, Some e1), fw1, m1. split; [done |].
    split; [exact HeE |]. split; [done |]. split; [| done].
    intros Hz _. by apply HprE. }
  pose proof HeE as (Hi1 & Hl1 & _ & _ & _ & _ & _ & _ & He1 & _).
  destruct (HoE eq_refl) as (_ & Hr1 & Hr2 & _ & _).
  destruct (copyIn_effect fw1 p Hi1 He1) as (fw2 & HC & HeC & HsC & HpC & _).
  rewrite HC.
  set (k := Nat.min (length (buf fw1) - Z.to_nat (pos fw1)) (length p)) in *.
  assert (1 ≤ k)%nat as Hk1.
  { pose proof Hi1 as [Hcap1 Hpos1]. rewrite HbE in *.
    destruct (Z.le_gt_cases (Z.of_nat (length p)) (Z.of_nat (length (buf fw)))).
    - specialize (Hr1 ltac:(done)). unfold k. rewrite HbE. lia.
    - specialize (Hr2 ltac:(lia)). unfold k. rewrite HbE. lia. }
  pose proof HeC as (Hi2 & Hl2 & _ & _ & _ & _ & _ & _ & He2 & _).
  destruct (flushIfDue_effect fw2 Hi2 He2) as (o3 & fw3 & m3 & HF & HeF & HsF & _).
  rewrite HF.
  pose proof (effect_seq _ _ _ _ _ _ _ _ HeE HeC) as He12.
  pose proof (effect_seq _ _ _ _ _ _ _ _ He12 HeF) as He123.
  rewrite !app_nil_r in He123. cbn [app] in He123.
  destruct o3 as [e3 |].
  { exists (total + Z.of_nat k, Some e3), fw3, (m1 ++ m3).
    split; [done |]. split; [exact He123 |]. split; [congruence |].
    split; [| done]. intros Hz _. destruct (HprE Hz He) as [m' ->]. eauto. }
  pose proof HeF as (Hi3 & Hl3 & _ & _ & _ & _ & _ & _ & He3 & _).
  destruct (IH (drop k p) (total + Z.of_nat k) fw3 Hi3 He3)
    as (res & fw4 & m4 & HW & HeW & HsW & _ & HrW).
  { rewrite length_drop. lia. }
  rewrite HW. exists res, fw4, ((m1 ++ m3) ++ m4). split; [done |].
  split.
  { pose proof (effect_seq _ _ _ _ _ _ _ _ He123 HeW) as Hall.
    by rewrite take_drop in Hall. }
  split; [congruence |]. split.
  - intros Hz _. destruct (HprE Hz He) as [m' ->]. eauto.
  - intros Hn. rewrite (HrW Hn), length_drop.
    assert (k ≤ length p)%nat by (unfold k; lia). lia.
Qed.

Lemma Write_effect fw p :
  Inv fw →
  ∃ res fw' more,
    Write p fw = Done (res, fw') ∧ effect more p (snd res) fw fw'
    ∧ scratch fw' = scratch fw
    ∧ (pos fw = 0 → err fw = None → p ≠ [] → ∃ more', more = [] :: more')
    ∧ (snd res = None → fst res = Z.of_nat (length p))
    ∧ (p = [] → err fw = None → res = (0, None) ∧ fw' = fw ∧ more = []).
Proof.
  intros Hi. unfold Write. destruct (err fw) as [e |] eqn:He.
  { exists (0, Some e), fw, []. split; [done |].
    split; [apply effect_refl; [done | by rewrite He] |]. done. }
  destruct (writeLoop_effect (length p) p 0 fw Hi He)
    as (res & fw' & m & HW & HeW & HsW & HprW & HrW); [done |].
  exists res, fw', m. split; [done |]. split; [done |]. split; [done |].
  split; [intros Hz _ Hp; by apply HprW |].
  split; [intros Hn; rewrite (HrW Hn); lia |].
  intros -> _. cbn in HW. unfold mret, M_ret in HW. injection HW as <- <-.
  split; [done |]. split; [done |].
  destruct HeW as (_ & _ & _ & _ & Hc & _).
  apply (f_equal length) in Hc. rewrite length_app in Hc.
  destruct m; [done | simpl in Hc; lia].
Qed.

Lemma WriteByte_effect fw b :
  Inv fw →
  ∃ out fw' more,
    WriteByte b fw = Done (out, fw') ∧ effect more [b] out fw fw'
    ∧ scratch fw' = scratch fw
    ∧ (pos fw = 0 → err fw = None → ∃ more', more = [] :: more').
Proof.
  intros Hi. pose proof Hi as [Hcap Hpos]. unfold WriteByte. unbind.
  destruct (ensureSpace_effect fw 1 Hi)
    as (o1 & fw1 & m1 & HE & HeE & HbE & HsE & HprE & HoE); [lia |].
  rewrite HE. destruct o1 as [e1 |].
  { exists (Some e1), fw1, m1. split; [done |]. split; [exact HeE |]. done. }
  pose proof HeE as (Hi1 & Hl1 & _ & _ & _ & _ & _ & _ & He1 & _).
  destruct (HoE eq_refl) as (_ & Hr1 & _).
  destruct (putByte_effect fw1 b Hi1 He1) as (fw2 & HP & HeP & HsP).
  { rewrite HbE. apply Hr1. lia. }
  rewrite HP.
  pose proof HeP as (Hi2 & Hl2 & _ & _ & _ & _ & _ & _ & He2 & _).
  destruct (flushIfDue_effect fw2 Hi2 He2) as (o3 & fw3 & m3 & HF & HeF & HsF & _).
  rewrite HF.
  pose proof (effect_seq _ _ _ _ _ _ _ _ HeE HeP) as He12.
  pose proof (effect_seq _ _ _ _ _ _ _ _ He12 HeF) as He123.
  rewrite !app_nil_r in He123. cbn [app] in He123.
  exists o3, fw3, (m1 ++ m3). split; [done |]. split; [done |].
  split; [congruence |].
  intros Hz He. destruct (HprE Hz He) as [m' ->]. eauto.
Qed.

(** Every append operation returns; it makes no sink call larger than
    the buffer; when it returns no error its bytes are behind what was
    buffered or sent before; and from an empty buffer its first sink
    call is the empty probe. *)
Lemma run_effect (o : appendOp) fw :
  Inv fw →
  ∃ out fw' more,
    run o fw = Done (out, fw') ∧ effect more (payload o) out fw fw'
    ∧ (pos fw = 0 → err fw = None → payload o ≠ [] →
       ∃ more', more = [] :: more').
Proof.
  intros Hi.
  assert (∀ p fw0, Inv fw0 →
            ∃ out fw' more,
              WriteBytes p fw0 = Done (out, fw') ∧ effect more p out fw0 fw'
              ∧ (pos fw0 = 0 → err fw0 = None → p ≠ [] →
                 ∃ more', more = [] :: more')
              ∧ (p = [] → err fw0 = None → out = None ∧ fw' = fw0 ∧ more = []))
    as HWB.
  { intros p fw0 Hi0. unfold WriteBytes. unbind.
    destruct (Write_effect fw0 p Hi0)
      as ([cnt out] & fw' & m & HW & HeW & _ & HprW & _ & HnW).
    rewrite HW. exists out, fw', m. split; [done |]. split; [done |].
    split; [done |]. intros Hp He. destruct (HnW Hp He) as ([= _ <-] & -> & ->).
    done. }
  destruct o as [b | p | p | str | str | v | v | v]; cbn [run payload].
  - destruct (WriteByte_effect fw b Hi) as (out & fw' & m & HW & HeW & _ & HprW).
    exists out, fw', m. split; [done |]. split; [done |].
    intros Hz He _. by apply HprW.
  - unbind. destruct (Write_effect fw p Hi)
      as (res & fw' & m & HW & HeW & _ & HprW & _).
    rewrite HW. by exists (snd res), fw', m.
  - destruct (HWB p fw Hi) as (out & fw' & m & HW & HeW & HprW & _).
    by exists out, fw', m.
  - destruct (HWB str fw Hi) as (out & fw' & m & HW & HeW & HprW & _).
    by exists out, fw', m.
  - unfold WriteLine, WriteString. unbind.
    destruct (HWB str fw Hi) as (o1 & fw1 & m1 & HW & HeW & HprW & HnW).
    rewrite HW. destruct o1 as [e1 |].
    { exists (Some e1), fw1, m1. split; [done |]. split; [exact HeW |].
      intros Hz He _. destruct str as [| c str'].
      - by destruct (HnW eq_refl He).
      - by apply HprW. }
    pose proof HeW as (Hi1 & _).
    destruct (WriteByte_effect fw1 LF Hi1) as (o2 & fw2 & m2 & HB & HeB & _ & HprB).
    rewrite HB. exists o2, fw2, (m1 ++ m2). split; [done |].
    split; [by apply (effect_seq _ _ _ _ _ _ _ _ HeW HeB) |].
    intros Hz He _. destruct str as [| c str'].
    + destruct (HnW eq_refl He) as (_ & -> & ->).
      destruct (HprB Hz He) as [m' ->]. eauto.
    + destruct (HprW Hz He) as [m' ->]; [done |]. eauto.
  - unfold WriteInt.
    destruct (HWB (strconv_AppendInt [] v)
                (set_scratch (strconv_AppendInt [] v) fw) Hi)
      as (out & fw' & m & HW & HeW & HprW & _).
    exists out, fw', m. split; [exact HW |]. split; [exact HeW |]. exact HprW.
  - unfold WriteInt64.
    destruct (HWB (strconv_AppendInt [] v)
                (set_scratch (strconv_AppendInt [] v) fw) Hi)
      as (out & fw' & m & HW & HeW & HprW & _).
    exists out, fw', m. split; [exact HW |]. split; [exact HeW |]. exact HprW.
  - unfold WriteUint64.
    destruct (HWB (strconv_AppendUint [] v)
                (set_scratch (strconv_AppendUint [] v) fw) Hi)
      as (out & fw' & m & HW & HeW & HprW & _).
    exists out, fw', m. split; [exact HW |]. split; [exact HeW |]. exact HprW.
Qed.
End Effects.

Section Claims.
Context {W : Type} `{io_Writer W}.
Implicit Types fw : FastWriter (Logged W).

Lemma writeLoop_S fuel p total fw :
  p ≠ [] →
  writeLoop (S fuel) p total fw
  = (e ← ensureSpace (Z.of_nat (length p));
     match e with
     | Some e => mret (total, Some e)
     | None =>
         k ← copyIn p;
         e ← flushIfDue;
         match e with
         | Some e => mret (total + Z.of_nat k, Some e)
         | None => writeLoop fuel (drop k p) (total + Z.of_nat k)
         end
     end) fw.
Proof. by destruct p. Qed.


(** With a sink that takes everything, no operation fails. *)
Lemma effect_Accepting m p e fw fw' :
  Accepting (W := W) → err fw = None → effect m p (Some e) fw fw' → False.
Proof.
  intros Hacc He (_ & _ & _ & _ & _ & _ & _ & _ & Hf).
  specialize (Hf He). by rewrite allAccepted_Accepting in Hf.
Qed.



(** C4: [Flush] with a sticky error set returns it and leaves the
    writer, the sink included, as it is; with an empty buffer it
    returns success and makes no sink call; otherwise it makes exactly
    one sink call, with all buffered bytes, records a sticky error when
    the sink fails or takes fewer bytes than it was given, and empties
    the buffer exactly when the call fully succeeds. *)
Theorem Flush_contract fw :
  Inv fw →
  (∀ e, err fw = Some e → Flush fw = Done (Some e, fw))
  ∧ (err fw = None → pos fw = 0 → Flush fw = Done (None, fw))
  ∧ (err fw = None → pos fw ≠ 0 →
     ∀ cnt e d, io_Write (sink (w fw)) (pending fw) = ((cnt, e), d) →
     ∃ out fw',
       Flush fw = Done (out, fw')
       ∧ calls (w fw') = calls (w fw) ++ [pending fw] ∧ sink (w fw') = d
       ∧ buf fw' = buf fw
       ∧ match e with
         | Some e0 =>
             out = Some e0 ∧ err fw' = Some (writerError e0)
             ∧ pos fw' = pos fw
         | None =>
             if cnt <? pos fw
             then out = Some (writerError io_ErrShortWrite)
                  ∧ err fw' = Some (writerError io_ErrShortWrite)
                  ∧ pos fw' = pos fw
             else out = None ∧ err fw' = None ∧ pos fw' = 0
         end
       ∧ (pos fw' = 0 ↔ e = None ∧ pos fw <= cnt)).
Proof.
  intros Hi. unfold Flush. split; [by intros e -> |].
  split; [by intros -> -> |].
  intros He Hnz cnt e d Hio. rewrite He.
  destruct (Z.eqb_spec (pos fw) 0); [done |].
  rewrite (slice_to_pending fw Hi), sinkWrite_log, Hio. cbn [fst snd].
  destruct e as [e0 |].
  - eexists _, _. split; [done |]. cbn. split_and!; try done.
    split; [intros ?; done | by intros [? _]].
  - cbn [pos set_w]. destruct (Z.ltb_spec cnt (pos fw)).
    + eexists _, _. split; [done |]. cbn. split_and!; try done.
      split; [intros ?; done | intros [_ ?]; lia].
    + eexists _, _. split; [done |]. cbn. split_and!; done.
Qed.
End Claims.

Lemma Flush_contract_witness :
  let fw := {| w := logged {| room := 2; taken := [] |}; buf := bytes "abcd";
               pos := 3; err := None; autoFlush := false; limit := 2;
               scratch := [] |} in
  (∀ e, err fw = Some e → Flush fw = Done (Some e, fw))
  ∧ (err fw = None → pos fw = 0 → Flush fw = Done (None, fw))
  ∧ (err fw = None → pos fw ≠ 0 →
     ∀ cnt e d, io_Write (sink (w fw)) (pending fw) = ((cnt, e), d) →
     ∃ out fw',
       Flush fw = Done (out, fw')
       ∧ calls (w fw') = calls (w fw) ++ [pending fw] ∧ sink (w fw') = d
       ∧ buf fw' = buf fw
       ∧ match e with
         | Some e0 =>
             out = Some e0 ∧ err fw' = Some (writerError e0)
             ∧ pos fw' = pos fw
         | None =>
             if cnt <? pos fw
             then out = Some (writerError io_ErrShortWrite)
                  ∧ err fw' = Some (writerError io_ErrShortWrite)
                  ∧ pos fw' = pos fw
             else out = None ∧ err fw' = None ∧ pos fw' = 0
         end
       ∧ (pos fw' = 0 ↔ e = None ∧ pos fw <= cnt)).
Proof.
  intros fw. apply (Flush_contract fw).
  unfold Inv. simpl. lia.
Defined.

Section MoreClaims.
Context {W : Type} `{io_Writer W}.
Implicit Types fw : FastWriter (Logged W).

End MoreClaims.



Section Paths.
Context {W : Type} `{io_Writer W}.
Implicit Types fw : FastWriter (Logged W).
Hypothesis accepting : Accepting (W := W).


End Paths.

Lemma bytes_Buffer_Accepting : Accepting (W := bytes_Buffer).
Proof. intros d p. reflexivity. Qed.

Lemma Inv_NewWriter {W} `{io_Writer W} (wr : W) : Inv (NewWriter wr).
Proof.
  unfold Inv, NewWriter. cbn [buf pos]. rewrite length_replicate.
  unfold defaultWriterBufSize. lia.
Qed.



End WriterFacts.

(** * Writing and reading back *)

Module RoundTripFacts.
Import RoundTrip.

Lemma contents_replay (more : list (list byte)) : ∀ b : bytes_Buffer,
  contents (Writer.replay more b) = contents b ++ concat more.
Proof.
  induction more as [| c more IH]; intros b; cbn [Writer.replay fold_left concat].
  - by rewrite app_nil_r.
  - change (fold_left _ more ?d) with (Writer.replay more d).
    rewrite IH. cbn. by rewrite app_assoc.
Qed.

Lemma isSpace_not_digit b : isSpace b = true → isDigit b = false.
Proof.
  intros Hs. apply ReaderFacts.isSpace_codes in Hs. unfold isDigit.
  destruct Hs as [-> | [-> | [-> | ->]]]; reflexivity.
Qed.

Section Written.
Context {W : Type} `{io_Writer W}.
Hypothesis accepting : Writer.Accepting (W := W).

Lemma writeInts_effect (items : list (Z * byte)) :
  ∀ fw : Writer.FastWriter (Logged W),
    Writer.Inv fw → Writer.err fw = None →
    ∃ fw' more,
      writeInts items fw = Done (None, fw')
      ∧ Writer.effect more (render items) None fw fw'
      ∧ Writer.pos fw' = 0.
Proof.
  induction items as [| [v sep] rest IH]; intros fw Hi He.
  - destruct (WriterFacts.Flush_effect fw Hi)
      as (out & fw' & more & HF & Heff & _ & _ & Hp & _).
    destruct out as [e |];
      [by destruct (WriterFacts.effect_Accepting _ _ _ _ _ accepting He Heff) |].
    exists fw', more. split; [exact HF |]. split; [exact Heff |]. by apply Hp.
  - destruct (WriterFacts.run_effect (Writer.opWriteInt v) fw Hi)
      as (o1 & fw1 & m1 & H1 & Heff1 & _).
    cbn [Writer.run Writer.payload] in H1, Heff1.
    destruct o1 as [e |];
      [by destruct (WriterFacts.effect_Accepting _ _ _ _ _ accepting He Heff1) |].
    pose proof Heff1 as (Hi1 & _ & _ & _ & _ & _ & _ & _ & He1 & _).
    destruct (WriterFacts.WriteByte_effect fw1 sep Hi1)
      as (o2 & fw2 & m2 & H2 & Heff2 & _).
    destruct o2 as [e |];
      [by destruct (WriterFacts.effect_Accepting _ _ _ _ _ accepting He1 Heff2) |].
    pose proof Heff2 as (Hi2 & _ & _ & _ & _ & _ & _ & _ & He2 & _).
    destruct (IH fw2 Hi2 He2) as (fw3 & m3 & H3 & Heff3 & Hp3).
    exists fw3, (m1 ++ m2 ++ m3). split.
    { cbn [writeInts]. unbind. rewrite H1, H2. exact H3. }
    split; [| exact Hp3].
    replace (render ((v, sep) :: rest))
      with (strconv_AppendInt [] v ++ [sep] ++ render rest)
      by (unfold render; cbn; by rewrite <- app_assoc).
    eapply WriterFacts.effect_seq; [exact Heff1 |].
    eapply WriterFacts.effect_seq; [exact Heff2 | exact Heff3].
Qed.
End Written.

Lemma readInts_render (items : list (Z * byte)) :
  ∀ (ws : list byte) (fr : Reader.FastReader strings_Reader) (fuel : nat),
    Forall (λ it, isInt (fst it) ∧ isSpace (snd it) = true) items →
    Forall (λ b, isSpace b = true) ws →
    Reader.Rep fr (ws ++ render items) →
    (length (ws ++ render items) < fuel)%nat →
    ∃ fr', readInts (length items) fuel fr = Done ((map fst items, None), fr').
Proof.
  induction items as [| [v sep] rest IH]; intros ws fr fuel Hok Hws HR Hfuel.
  - eexists. reflexivity.
  - apply Forall_cons in Hok as [[Hv Hsep] Hok]. cbn [fst snd] in Hv, Hsep.
    replace (render ((v, sep) :: rest))
      with (strconv_AppendInt [] v ++ [sep] ++ render rest) in *
      by (unfold render; cbn; by rewrite <- app_assoc).
    destruct (ReaderFacts.NextInt_spec fr _ fuel HR Hfuel) as (fr1 & HN & HR1).
    assert (Reader.headNot isDigit ([sep] ++ render rest)) as Hhd
      by (cbn; by rewrite isSpace_not_digit).
    rewrite (ReaderFacts.nextInt_spec_AppendInt ws v _ Hws Hv Hhd) in HN, HR1.
    cbn [fst snd] in HN, HR1.
    destruct (IH [sep] fr1 fuel Hok) as (fr2 & H2).
    { by constructor. }
    { exact HR1. }
    { rewrite !length_app in Hfuel. rewrite length_app. lia. }
    exists fr2. cbn [readInts length map]. unbind. rewrite HN. cbn [fst snd].
    rewrite H2. reflexivity.
Qed.

(** C1: for every sequence of values of type int, each written with
    [WriteInt] and followed by one white-space byte written with
    [WriteByte], and a final [Flush], the write engine (with or without
    auto-flush) reports no error, and as many [NextInt] calls on the
    bytes the sink has received return exactly the values, in order and
    without an error. *)
Theorem write_read_roundtrip (items : list (Z * byte))
    (fw : Writer.FastWriter (Logged bytes_Buffer)) :
  Writer.Inv fw → Writer.err fw = None → Writer.pos fw = 0 →
  contents (sink (Writer.w fw)) = [] →
  Forall (λ it, isInt (fst it) ∧ isSpace (snd it) = true) items →
  ∃ fw',
    writeInts items fw = Done (None, fw')
    ∧ contents (sink (Writer.w fw')) = render items
    ∧ ∀ fuel, (length (render items) < fuel)%nat →
        ∃ fr',
          readInts (length items) fuel
            (Reader.NewReader (strings_NewReader (contents (sink (Writer.w fw')))))
          = Done ((map fst items, None), fr').
Proof.
  intros Hi He Hp Hc Hok.
  destruct (writeInts_effect WriterFacts.bytes_Buffer_Accepting items fw Hi He)
    as (fw' & more & HW & Heff & Hp').
  destruct Heff as (_ & _ & _ & _ & _ & Hsink & _ & _ & _ & Hcat).
  unfold Writer.pending in Hcat. rewrite Hp, Hp' in Hcat.
  change (Z.to_nat 0) with 0%nat in Hcat. rewrite !take_0, app_nil_r in Hcat.
  cbn [app] in Hcat.
  assert (contents (sink (Writer.w fw')) = render items) as Hout.
  { rewrite Hsink, contents_replay, Hc, Hcat. reflexivity. }
  exists fw'. split; [exact HW |]. split; [exact Hout |].
  intros fuel Hfuel. rewrite Hout.
  apply (readInts_render items [] _ fuel Hok); [constructor | | exact Hfuel].
  apply ReaderFacts.Rep_NewReader.
Qed.

Lemma write_read_roundtrip_witness :
  let items := [(-5, SP); (0, LF); (MaxInt, TAB); (MinInt, SP)] in
  let fw := Writer.NewWriterWithAutoFlush (logged {| contents := [] |}) 3 in
  ∃ fw',
    writeInts items fw = Done (None, fw')
    ∧ contents (sink (Writer.w fw')) = render items
    ∧ ∀ fuel, (length (render items) < fuel)%nat →
        ∃ fr',
          readInts (length items) fuel
            (Reader.NewReader (strings_NewReader (contents (sink (Writer.w fw')))))
          = Done ((map fst items, None), fr').
Proof.
  intros items fw. apply (write_read_roundtrip items fw).
  - unfold Writer.Inv, fw, Writer.NewWriterWithAutoFlush.
    cbn [Writer.buf Writer.pos]. rewrite length_replicate.
    unfold Writer.defaultWriterBufSize. lia.
  - reflexivity.
  - reflexivity.
  - reflexivity.
  - unfold items, isInt, MinInt, MaxInt.
    repeat (constructor; [split; [cbn [fst]; lia | reflexivity] |]).
    constructor.
Defined.

End RoundTripFacts.

(** * More on the read engine *)

Module ReaderMore.
Import Reader ReaderFacts.

Section Tokens.
Implicit Types fr : FastReader strings_Reader.

(** The digit loop on a run of digits [ds] that ends before [tail]. *)
Lemma digitLoop_digits norm fr ds tail fuel :
  Rep fr (ds ++ tail) → Forall (λ b, isDigit b = true) ds →
  Z.of_nat (length ds) <= MaxInt → headNot isDigit tail →
  (length (ds ++ tail) < fuel)%nat →
  ∃ fr', digitLoop norm fuel 0 0 fr
         = Done ((None, accum norm ds 0, Z.of_nat (length ds)), fr')
         ∧ Rep fr' tail.
Proof.
  intros HR Hds Hlen Htail Hfuel.
  destruct (digitLoop_spec norm fr _ fuel 0 0 HR Hfuel) as (fr' & HD & HR').
  rewrite takeWhile_app in HD by done. rewrite skipWhile_app in HR' by done.
  rewrite bump_small in HD by lia. exists fr'. by split.
Qed.

Lemma eqm_mul s x y : eqm x y → eqm (s * x) (s * y).
Proof.
  unfold eqm. intros Hxy.
  rewrite (Z.mul_mod s x), (Z.mul_mod s y), Hxy by lia. done.
Qed.

Lemma wrapU_eqm x : eqm (wrapU x) x.
Proof. unfold eqm, wrapU. by rewrite Z.mod_mod by lia. Qed.

Lemma accum_wrapU_eqm ds : ∀ x y,
  eqm x y → eqm (accum wrapU ds x) (accum (λ z, z) ds y).
Proof.
  induction ds as [| d ds IH]; intros x y Hxy; [done |].
  cbn [accum fold_left]. apply IH. unfold eqm in *. rewrite wrapU_eqm.
  rewrite (Z.add_mod (x * 10)), (Z.add_mod (y * 10)) by lia.
  rewrite (Z.mul_mod x), (Z.mul_mod y), Hxy by lia. done.
Qed.

(** Skipping the white space and taking the sign. *)
Lemma sign_prefix fr ws sg rest fuel :
  Rep fr (ws ++ sg ++ rest) → Forall (λ b, isSpace b = true) ws →
  sg = [] ∨ sg = ["+"%char] ∨ sg = ["-"%char] →
  (∃ d t, rest = d :: t ∧ isDigit d = true) →
  (length (ws ++ sg ++ rest) < fuel)%nat →
  ∃ fr1 fr2 fr3 b,
    SkipSpaces fuel fr = Done (None, fr1)
    ∧ PeekByte fr1 = Done ((b, None), fr2)
    ∧ readSign b fr2
      = Done (if bool_decide (sg = ["-"%char]) then -1 else 1, fr3)
    ∧ Rep fr3 rest.
Proof.
  intros HR Hws Hsg (d & t & -> & Hd) Hfuel.
  destruct (digit_not_special d Hd) as (Hdsp & Hdm & Hdp).
  destruct (SkipSpaces_spec fr _ fuel HR Hfuel) as (fr1 & HS & HR1).
  rewrite skipWhile_app in HR1; [| done |]; cycle 1.
  { destruct Hsg as [-> | [-> | ->]]; done. }
  destruct Hsg as [-> | [-> | ->]]; cbn [app] in HR1.
  - destruct (PeekByte_cons fr1 _ _ HR1) as (fr2 & HP & HR2 & _).
    destruct (readSign_Rep fr2 _ _ HR2) as (fr3 & HG & HR3).
    cbn [signOf] in HG, HR3. rewrite !bool_decide_false in HG, HR3 by done.
    exists fr1, fr2, fr3, d. rewrite bool_decide_false by done. done.
  - destruct (PeekByte_cons fr1 _ _ HR1) as (fr2 & HP & HR2 & _).
    destruct (readSign_Rep fr2 _ _ HR2) as (fr3 & HG & HR3).
    exists fr1, fr2, fr3, "+"%char. done.
  - destruct (PeekByte_cons fr1 _ _ HR1) as (fr2 & HP & HR2 & _).
    destruct (readSign_Rep fr2 _ _ HR2) as (fr3 & HG & HR3).
    exists fr1, fr2, fr3, "-"%char. done.
Qed.

Lemma finish_digits fn sign ds :
  ds ≠ [] →
  finish fn wrap sign (None, accum wrap ds 0, Z.of_nat (length ds))
  = (wrap (sign * decimal ds), None).
Proof.
  intros Hne. unfold finish.
  destruct (Z.eqb_spec (Z.of_nat (length ds)) 0) as [H0 | _];
    [destruct ds; [done | simpl in H0; lia] |].
  f_equal. apply eqm_wrap, eqm_mul, accum_wrap_eqm. done.
Qed.

(** X1: [NextInt] reads white space, an optional sign and a run of
    digits that ends at a byte which is no digit or at the end of the
    input, and returns the number the digits denote, negated after a
    minus sign, as a 64-bit value: it wraps around on overflow and
    reports no error, takes leading zeros and a plus sign, and leaves
    the reader in front of what follows the digits. *)
Theorem NextInt_decimal fr (ws sg ds tail : list byte) (fuel : nat) :
  Rep fr (ws ++ sg ++ ds ++ tail) →
  Forall (λ b, isSpace b = true) ws →
  sg = [] ∨ sg = ["+"%char] ∨ sg = ["-"%char] →
  ds ≠ [] → Forall (λ b, isDigit b = true) ds →
  Z.of_nat (length ds) <= MaxInt →
  headNot isDigit tail →
  (length (ws ++ sg ++ ds ++ tail) < fuel)%nat →
  ∃ fr',
    NextInt fuel fr
    = Done ((wrap ((if bool_decide (sg = ["-"%char]) then -1 else 1)
                   * decimal ds), None), fr')
    ∧ Rep fr' tail.
Proof.
  intros HR Hws Hsg Hne Hds Hlen Htail Hfuel.
  destruct (sign_prefix fr ws sg (ds ++ tail) fuel HR Hws Hsg)
    as (fr1 & fr2 & fr3 & b & HS & HP & HG & HR3); [| exact Hfuel |].
  { destruct ds as [| d ds]; [done |]. apply Forall_cons in Hds as [Hd _].
    by exists d, (ds ++ tail). }
  destruct (digitLoop_digits wrap fr3 ds tail fuel HR3 Hds Hlen Htail)
    as (fr4 & HD & HR4).
  { rewrite !length_app in Hfuel. rewrite length_app. lia. }
  exists fr4. split; [| exact HR4].
  unfold NextInt. unbind. rewrite HS, HP, HG, HD. cbn [fst snd].
  by rewrite finish_digits.
Qed.

Lemma NextInt_decimal_witness :
  ∃ fr',
    NextInt 40 (NewReader (strings_NewReader (bytes " -0018446744073709551617x")))
    = Done ((wrap (-1 * decimal (bytes "0018446744073709551617")), None), fr')
    ∧ Rep fr' (bytes "x").
Proof.
  apply (NextInt_decimal _ [SP] ["-"%char] (bytes "0018446744073709551617")
           (bytes "x") 40).
  - apply Rep_NewReader.
  - repeat constructor.
  - right. right. reflexivity.
  - discriminate.
  - repeat constructor.
  - vm_compute. discriminate.
  - reflexivity.
  - vm_compute. lia.
Defined.

(** [NextInt64] on white space, an optional sign and a run of digits. *)
Lemma NextInt64_reads fr (ws sg ds tail : list byte) (fuel : nat) :
  Rep fr (ws ++ sg ++ ds ++ tail) →
  Forall (λ b, isSpace b = true) ws →
  sg = [] ∨ sg = ["+"%char] ∨ sg = ["-"%char] →
  ds ≠ [] → Forall (λ b, isDigit b = true) ds →
  Z.of_nat (length ds) <= MaxInt →
  headNot isDigit tail →
  (length (ws ++ sg ++ ds ++ tail) < fuel)%nat →
  ∃ fr',
    NextInt64 fuel fr
    = Done ((wrap ((if bool_decide (sg = ["-"%char]) then -1 else 1)
                   * decimal ds), None), fr')
    ∧ Rep fr' tail.
Proof.
  intros HR Hws Hsg Hne Hds Hlen Htail Hfuel.
  destruct (sign_prefix fr ws sg (ds ++ tail) fuel HR Hws Hsg)
    as (fr1 & fr2 & fr3 & b & HS & HP & HG & HR3); [| exact Hfuel |].
  { destruct ds as [| d ds]; [done |]. apply Forall_cons in Hds as [Hd _].
    by exists d, (ds ++ tail). }
  destruct (digitLoop_digits wrap fr3 ds tail fuel HR3 Hds Hlen Htail)
    as (fr4 & HD & HR4).
  { rewrite !length_app in Hfuel. rewrite length_app. lia. }
  exists fr4. split; [| exact HR4].
  unfold NextInt64. unbind. rewrite HS, HP, HG, HD. cbn [fst snd].
  by rewrite finish_digits.
Qed.

(** X2: [NextInt64] reads a number as [NextInt] does: white space, an
    optional sign, a run of digits; the value wraps around as a 64-bit
    integer and the reader is left in front of what follows. *)
Theorem NextInt64_decimal fr (ws sg ds tail : list byte) (fuel : nat) :
  Rep fr (ws ++ sg ++ ds ++ tail) →
  Forall (λ b, isSpace b = true) ws →
  sg = [] ∨ sg = ["+"%char] ∨ sg = ["-"%char] →
  ds ≠ [] → Forall (λ b, isDigit b = true) ds →
  Z.of_nat (length ds) <= MaxInt →
  headNot isDigit tail →
  (length (ws ++ sg ++ ds ++ tail) < fuel)%nat →
  ∃ fr',
    NextInt64 fuel fr
    = Done ((wrap ((if bool_decide (sg = ["-"%char]) then -1 else 1)
                   * decimal ds), None), fr')
    ∧ Rep fr' tail.
Proof. exact (NextInt64_reads fr ws sg ds tail fuel). Qed.

Lemma NextInt64_decimal_witness :
  ∃ fr',
    NextInt64 40 (NewReader (strings_NewReader (bytes "+9223372036854775808")))
    = Done ((wrap (1 * decimal (bytes "9223372036854775808")), None), fr')
    ∧ Rep fr' [].
Proof.
  apply (NextInt64_decimal _ [] ["+"%char] (bytes "9223372036854775808") [] 40).
  - apply Rep_NewReader.
  - constructor.
  - right. left. reflexivity.
  - discriminate.
  - repeat constructor.
  - vm_compute. discriminate.
  - exact I.
  - vm_compute. lia.
Defined.

(** [NextUint64] on white space, an optional plus sign and a run of
    digits. *)
Lemma NextUint64_reads fr (ws sg ds tail : list byte) (fuel : nat) :
  Rep fr (ws ++ sg ++ ds ++ tail) →
  Forall (λ b, isSpace b = true) ws →
  sg = [] ∨ sg = ["+"%char] →
  ds ≠ [] → Forall (λ b, isDigit b = true) ds →
  Z.of_nat (length ds) <= MaxInt →
  headNot isDigit tail →
  (length (ws ++ sg ++ ds ++ tail) < fuel)%nat →
  ∃ fr',
    NextUint64 fuel fr = Done ((wrapU (decimal ds), None), fr')
    ∧ Rep fr' tail.
Proof.
  intros HR Hws Hsg Hne Hds Hlen Htail Hfuel.
  destruct ds as [| d ds0] eqn:Eds; [done |]. rewrite <- Eds in *.
  assert (isDigit d = true) as Hd by (rewrite Eds in Hds; by inversion Hds).
  destruct (digit_not_special d Hd) as (Hdsp & Hdm & Hdp).
  destruct (SkipSpaces_spec fr _ fuel HR Hfuel) as (fr1 & HS & HR1).
  rewrite skipWhile_app in HR1; [| done |]; cycle 1.
  { destruct Hsg as [-> | ->]; [| done]. rewrite Eds. done. }
  assert (∃ b fr2 fr3,
            PeekByte fr1 = Done ((b, None), fr2)
            ∧ ((bool_decide (b = "+"%char) = false ∧ fr3 = fr2)
               ∨ (bool_decide (b = "+"%char) = true
                  ∧ ∃ out, ReadByte fr2 = Done (out, fr3)))
            ∧ Rep fr3 (ds ++ tail)) as (b & fr2 & fr3 & HP & HG & HR3).
  { destruct Hsg as [-> | ->]; cbn [app] in HR1.
    - rewrite Eds in HR1 |- *. cbn [app] in HR1 |- *.
      destruct (PeekByte_cons fr1 _ _ HR1) as (fr2 & HP & HR2 & _).
      exists d, fr2, fr2. rewrite bool_decide_false by done.
      split; [exact HP |]. split; [by left | exact HR2].
    - destruct (PeekByte_cons fr1 _ _ HR1) as (fr2 & HP & HR2 & _).
      destruct (ReadByte_cons fr2 _ _ HR2) as (fr3 & HB & HR3).
      exists "+"%char, fr2, fr3. rewrite bool_decide_true by done.
      split; [exact HP |]. split; [right; eauto | exact HR3]. }
  destruct (digitLoop_digits wrapU fr3 ds tail fuel HR3 Hds Hlen Htail)
    as (fr4 & HD & HR4).
  { rewrite !length_app in Hfuel. rewrite length_app. lia. }
  exists fr4. split; [| exact HR4].
  unfold NextUint64. unbind. rewrite HS, HP.
  destruct HG as [[-> ->] | [-> [out HB]]]; rewrite ?HB, HD; unfold finish;
    (destruct (Z.eqb_spec (Z.of_nat (length ds)) 0) as [H0 | _];
      [rewrite Eds in H0; simpl in H0; lia |]);
    do 2 f_equal; f_equal; unfold wrapU; rewrite Z.mul_1_l;
    apply (accum_wrapU_eqm ds 0 0 eq_refl).
Qed.

(** X3: [NextUint64] reads white space, an optional plus sign and a run
    of digits, and returns the number the digits denote modulo 2^64,
    without an error on overflow, leaving the reader in front of what
    follows the digits. *)
Theorem NextUint64_decimal fr (ws sg ds tail : list byte) (fuel : nat) :
  Rep fr (ws ++ sg ++ ds ++ tail) →
  Forall (λ b, isSpace b = true) ws →
  sg = [] ∨ sg = ["+"%char] →
  ds ≠ [] → Forall (λ b, isDigit b = true) ds →
  Z.of_nat (length ds) <= MaxInt →
  headNot isDigit tail →
  (length (ws ++ sg ++ ds ++ tail) < fuel)%nat →
  ∃ fr',
    NextUint64 fuel fr = Done ((wrapU (decimal ds), None), fr')
    ∧ Rep fr' tail.
Proof. exact (NextUint64_reads fr ws sg ds tail fuel). Qed.

Lemma NextUint64_decimal_witness :
  ∃ fr',
    NextUint64 40 (NewReader (strings_NewReader (bytes "+18446744073709551615 7")))
    = Done ((wrapU (decimal (bytes "18446744073709551615")), None), fr')
    ∧ Rep fr' (bytes " 7").
Proof.
  apply (NextUint64_decimal _ [] ["+"%char] (bytes "18446744073709551615")
           (bytes " 7") 40).
  - apply Rep_NewReader.
  - constructor.
  - right. reflexivity.
  - discriminate.
  - repeat constructor.
  - vm_compute. discriminate.
  - reflexivity.
  - vm_compute. lia.
Defined.

(** X4: [NextUint64] takes no minus sign: in front of one (after white
    space) it returns the no-digits error, consumes the white space
    only, and sets no sticky error. *)
Theorem NextUint64_minus fr (ws rest : list byte) (fuel : nat) :
  Rep fr (ws ++ "-"%char :: rest) →
  Forall (λ b, isSpace b = true) ws →
  (length (ws ++ "-"%char :: rest) < fuel)%nat →
  ∃ fr',
    NextUint64 fuel fr = Done ((0, Some (errNoDigits "NextUint64")), fr')
    ∧ Rep fr' ("-"%char :: rest) ∧ err fr' = None.
Proof.
  intros HR Hws Hfuel.
  destruct (SkipSpaces_spec fr _ fuel HR Hfuel) as (fr1 & HS & HR1).
  rewrite skipWhile_app in HR1 by done.
  destruct (PeekByte_cons fr1 _ _ HR1) as (fr2 & HP & HR2 & _).
  destruct (digitLoop_spec wrapU fr2 _ fuel 0 0 HR2) as (fr3 & HD & HR3).
  { rewrite length_app in Hfuel. lia. }
  cbn in HD, HR3. exists fr3. split.
  { unfold NextUint64. unbind. rewrite HS, HP.
    rewrite bool_decide_false by done. rewrite HD. reflexivity. }
  split; [exact HR3 |].
  destruct (Rep_err _ _ HR3) as [He | [_ Hnil]]; [exact He | done].
Qed.

Lemma NextUint64_minus_witness :
  ∃ fr',
    NextUint64 10 (NewReader (strings_NewReader (bytes " -5")))
    = Done ((0, Some (errNoDigits "NextUint64")), fr')
    ∧ Rep fr' (bytes "-5") ∧ err fr' = None.
Proof.
  apply (NextUint64_minus _ [SP] (bytes "5") 10).
  - apply Rep_NewReader.
  - repeat constructor.
  - vm_compute. lia.
Defined.

(** The loop of [NextWord] on a run of bytes that are no white space. *)
Lemma wordLoop_spec word tail : ∀ acc fr fuel,
  Rep fr (word ++ tail) → Forall (λ b, isSpace b = false) word →
  match tail with [] => True | b :: _ => isSpace b = true end →
  (length (word ++ tail) < fuel)%nat →
  ∃ fr', wordLoop fuel acc fr
         = Done (match acc ++ word with
                 | [] => ([], Some io_EOF)
                 | _ => (acc ++ word, None)
                 end, fr')
         ∧ Rep fr' tail.
Proof.
  induction word as [| c word IH]; intros acc fr fuel HR Hword Htail Hfuel.
  - destruct fuel as [| fuel]; [simpl in Hfuel; lia |].
    cbn [app] in HR. rewrite app_nil_r. cbn [wordLoop]. unbind.
    destruct tail as [| b t].
    + destruct (PeekByte_nil fr HR) as (fr' & -> & HR' & _).
      exists fr'. split; [| exact HR']. cbn. by destruct acc.
    + destruct (PeekByte_cons fr b t HR) as (fr' & -> & HR' & _).
      exists fr'. split; [| exact HR']. rewrite Htail. by destruct acc.
  - destruct fuel as [| fuel]; [simpl in Hfuel; lia |].
    apply Forall_cons in Hword as [Hc Hword]. cbn [app] in HR.
    destruct (PeekByte_cons fr _ _ HR) as (fr1 & HP & HR1 & _).
    destruct (ReadByte_cons fr1 _ _ HR1) as (fr2 & HB & HR2).
    destruct (IH (acc ++ [c]) fr2 fuel HR2 Hword Htail) as (fr3 & HW & HR3).
    { simpl in Hfuel. lia. }
    exists fr3. split; [| exact HR3].
    cbn [wordLoop]. unbind. rewrite HP, Hc, HB, HW.
    by rewrite <- app_assoc.
Qed.

(** [NextWord] on white space and a word. *)
Lemma NextWord_reads fr (ws word tail : list byte) (fuel : nat) :
  Rep fr (ws ++ word ++ tail) →
  Forall (λ b, isSpace b = true) ws →
  word ≠ [] → Forall (λ b, isSpace b = false) word →
  match tail with [] => True | b :: _ => isSpace b = true end →
  (length (ws ++ word ++ tail) < fuel)%nat →
  ∃ fr', NextWord fuel fr = Done ((word, None), fr') ∧ Rep fr' tail.
Proof.
  intros HR Hws Hne Hword Htail Hfuel.
  destruct (SkipSpaces_spec fr _ fuel HR Hfuel) as (fr1 & HS & HR1).
  rewrite skipWhile_app in HR1; [| done |]; cycle 1.
  { destruct word as [| c word]; [done |]. by inversion Hword. }
  destruct (wordLoop_spec word tail [] fr1 fuel HR1 Hword Htail)
    as (fr2 & HW & HR2).
  { rewrite length_app in Hfuel. lia. }
  exists fr2. split; [| exact HR2].
  unfold NextWord. unbind. rewrite HS, HW. cbn [app]. by destruct word.
Qed.

(** X5: [NextWord] skips white space and returns the maximal run of
    bytes that are no white space, ended by a white-space byte, which
    it leaves in place, or by the end of the input. *)
Theorem NextWord_token fr (ws word tail : list byte) (fuel : nat) :
  Rep fr (ws ++ word ++ tail) →
  Forall (λ b, isSpace b = true) ws →
  word ≠ [] → Forall (λ b, isSpace b = false) word →
  match tail with [] => True | b :: _ => isSpace b = true end →
  (length (ws ++ word ++ tail) < fuel)%nat →
  ∃ fr', NextWord fuel fr = Done ((word, None), fr') ∧ Rep fr' tail.
Proof. exact (NextWord_reads fr ws word tail fuel). Qed.

Lemma NextWord_token_witness :
  ∃ fr',
    NextWord 20 (NewReader (strings_NewReader (bytes "  hello, world")))
    = Done ((bytes "hello,", None), fr')
    ∧ Rep fr' (bytes " world").
Proof.
  apply (NextWord_token _ [SP; SP] (bytes "hello,") (bytes " world") 20).
  - apply Rep_NewReader.
  - repeat constructor.
  - discriminate.
  - repeat constructor.
  - reflexivity.
  - vm_compute. lia.
Defined.

(** X6: on an input of white space only (the empty input included)
    [NextWord] returns [io.EOF], and the end of the input is then the
    sticky error. *)
Theorem NextWord_blank fr (ws : list byte) (fuel : nat) :
  Rep fr ws → Forall (λ b, isSpace b = true) ws → (length ws < fuel)%nat →
  ∃ fr', NextWord fuel fr = Done (([], Some io_EOF), fr')
         ∧ Rep fr' [] ∧ err fr' = Some io_EOF.
Proof.
  intros HR Hws Hfuel.
  destruct (SkipSpaces_spec fr _ fuel HR Hfuel) as (fr1 & HS & HR1).
  rewrite <- (app_nil_r ws) in HR1. rewrite skipWhile_app in HR1 by done.
  destruct (PeekByte_nil fr1 HR1) as (fr2 & HP & HR2 & He2).
  exists fr2. split; [| by split].
  unfold NextWord. unbind. rewrite HS.
  destruct fuel as [| fuel]; [lia |]. cbn [wordLoop]. unbind. by rewrite HP.
Qed.

Lemma NextWord_blank_witness :
  ∃ fr', NextWord 10 (NewReader (strings_NewReader [SP; LF; TAB]))
         = Done (([], Some io_EOF), fr')
         ∧ Rep fr' [] ∧ err fr' = Some io_EOF.
Proof.
  apply (NextWord_blank _ [SP; LF; TAB] 10).
  - apply Rep_NewReader.
  - repeat constructor.
  - vm_compute. lia.
Defined.

(** The loop of [NextLine] on a line that a line feed ends. *)
Lemma lineLoop_terminated l rest : ∀ acc fr fuel,
  Forall (λ b, b ≠ LF) l → Rep fr (l ++ LF :: rest) →
  (length l < fuel)%nat →
  ∃ fr', lineLoop fuel acc fr
         = Done (match rest, acc ++ l with
                 | [], [] => ([], Some io_EOF)
                 | _, _ => (acc ++ l, None)
                 end, fr')
         ∧ Rep fr' rest.
Proof.
  induction l as [| c l IH]; intros acc fr fuel Hl HR Hfuel.
  - destruct fuel as [| fuel]; [simpl in Hfuel; lia |].
    cbn [app] in HR. rewrite app_nil_r.
    destruct (ReadByte_cons fr _ _ HR) as (fr' & HB & HR').
    exists fr'. split; [| exact HR'].
    cbn [lineLoop]. unbind. rewrite HB.
    destruct rest as [| b t].
    + cbn. by destruct acc.
    + rewrite bool_decide_true by done. by destruct acc.
  - destruct fuel as [| fuel]; [simpl in Hfuel; lia |].
    apply Forall_cons in Hl as [Hc Hl]. cbn [app] in HR.
    destruct (ReadByte_cons fr _ _ HR) as (fr1 & HB & HR1).
    destruct (IH (acc ++ [c]) fr1 fuel Hl HR1) as (fr2 & HL & HR2).
    { simpl in Hfuel. lia. }
    exists fr2. split; [| exact HR2].
    cbn [lineLoop]. unbind. rewrite HB.
    destruct (l ++ LF :: rest) as [| x y] eqn:E; [by destruct l |].
    rewrite bool_decide_false by done. rewrite HL.
    rewrite <- app_assoc. cbn [app].
    destruct rest; [| done]. by destruct acc.
Qed.

(** [NextLine] on a line and its line feed. *)
Lemma NextLine_reads fr (l rest : list byte) (fuel : nat) :
  Forall (λ b, b ≠ LF) l → Rep fr (l ++ LF :: rest) →
  (length l < fuel)%nat →
  ∃ fr', NextLine fuel fr
         = Done (match rest, l with
                 | [], [] => ([], Some io_EOF)
                 | _, _ => (stripCR l, None)
                 end, fr')
         ∧ Rep fr' rest.
Proof.
  intros Hl HR Hfuel.
  destruct (lineLoop_terminated l rest [] fr fuel Hl HR Hfuel)
    as (fr' & HL & HR').
  exists fr'. split; [| exact HR'].
  unfold NextLine. unbind. rewrite HL. cbn [app].
  destruct rest, l; reflexivity.
Qed.

(** X7: on a line that a line feed ends, [NextLine] returns the bytes
    before the line feed, less one trailing carriage return, and leaves
    the reader behind the line feed; but an empty line whose line feed
    is the last byte of the input is reported as [io.EOF]. *)
Theorem NextLine_terminated fr (l rest : list byte) (fuel : nat) :
  Forall (λ b, b ≠ LF) l → Rep fr (l ++ LF :: rest) →
  (length l < fuel)%nat →
  ∃ fr', NextLine fuel fr
         = Done (match rest, l with
                 | [], [] => ([], Some io_EOF)
                 | _, _ => (stripCR l, None)
                 end, fr')
         ∧ Rep fr' rest.
Proof. exact (NextLine_reads fr l rest fuel). Qed.

Lemma NextLine_terminated_witness :
  ∃ fr', NextLine 10 (NewReader (strings_NewReader (bytes "one" ++ [CR; LF; LF])))
         = Done ((stripCR (bytes "one" ++ [CR]), None), fr')
         ∧ Rep fr' [LF].
Proof.
  apply (NextLine_terminated _ (bytes "one" ++ [CR]) [LF] 10).
  - repeat constructor; discriminate.
  - apply Rep_NewReader.
  - vm_compute. lia.
Defined.

(** X8: in front of the input [b :: t], [PeekByte] returns [b] without
    an error and without consuming it, and [ReadByte] returns [b] and
    consumes it, also when the byte comes with a refill of the buffer;
    [ReadByte] adds [io.EOF] exactly when [b] is the last byte of the
    input. *)
Theorem peek_then_read fr (b : byte) (t : list byte) :
  Rep fr (b :: t) →
  ∃ fr1 fr2,
    PeekByte fr = Done ((b, None), fr1) ∧ Rep fr1 (b :: t)
    ∧ ReadByte fr1
      = Done ((b, match t with [] => Some io_EOF | _ => None end), fr2)
    ∧ Rep fr2 t
    ∧ ∃ fr3, ReadByte fr
             = Done ((b, match t with [] => Some io_EOF | _ => None end), fr3)
             ∧ Rep fr3 t.
Proof.
  intros HR.
  destruct (PeekByte_cons fr b t HR) as (fr1 & HP & HR1 & _).
  destruct (ReadByte_cons fr1 b t HR1) as (fr2 & HB & HR2).
  destruct (ReadByte_cons fr b t HR) as (fr3 & HB3 & HR3).
  exists fr1, fr2. split; [exact HP |]. split; [exact HR1 |].
  split; [exact HB |]. split; [exact HR2 |]. by exists fr3.
Qed.

Lemma peek_then_read_witness :
  ∃ fr1 fr2,
    PeekByte (NewReader (strings_NewReader (bytes "ab")))
    = Done (("a"%char, None), fr1) ∧ Rep fr1 (bytes "ab")
    ∧ ReadByte fr1 = Done (("a"%char, None), fr2)
    ∧ Rep fr2 (bytes "b")
    ∧ ∃ fr3, ReadByte (NewReader (strings_NewReader (bytes "ab")))
             = Done (("a"%char, None), fr3)
             ∧ Rep fr3 (bytes "b").
Proof.
  apply (peek_then_read _ "a"%char (bytes "b")). apply Rep_NewReader.
Defined.

End Tokens.

Section AnySource.
Context {R : Type} `{io_Reader R}.

(** X9: a source that answers a refill with no byte and no error ends
    the input: [PeekByte] returns [io.EOF], which is then the sticky
    error, and every later call is answered from it without another
    read, whatever the source would have delivered next. *)
Theorem empty_read_ends_input (fr : FastReader R) (data : list byte)
    (cnt : Z) (rd : R) (o : readOp) (fuel : nat) :
  err fr = None → n fr <= pos fr →
  io_Read (r fr) (length (buf fr)) = ((data, cnt, None), rd) → cnt <= 0 →
  ∃ fr', PeekByte fr = Done ((zero, Some io_EOF), fr')
         ∧ r fr' = rd ∧ err fr' = Some io_EOF
         ∧ call o (S fuel) fr' = Done (answer o io_EOF, fr').
Proof.
  intros He Hpos Hio Hcnt.
  destruct (PeekByte_refill_empty fr data cnt None rd He Hpos Hio Hcnt)
    as [HP Ht].
  eexists. split; [exact HP |]. split; [reflexivity |].
  split; [reflexivity |]. by apply call_sticky.
Qed.


(** X11: bytes that arrived together with [io.EOF] are all handed out:
    with [io.EOF] set and unread bytes in the buffer, [ReadByte]
    returns the next byte without touching the source, and reports
    [io.EOF] with the last of them. *)
Theorem buffered_bytes_before_EOF (fr : FastReader R) :
  Inv fr → err fr = Some io_EOF → pos fr < n fr →
  ∃ b, buf fr !! Z.to_nat (pos fr) = Some b
       ∧ ReadByte fr
         = Done ((b, if pos fr + 1 <? n fr then None else Some io_EOF),
                 set_pos (pos fr + 1) fr).
Proof.
  intros (Hp0 & Hpn & Hnb) He Hlt.
  destruct (lookup_lt_is_Some_2 (buf fr) (Z.to_nat (pos fr))) as [b Hb]; [lia |].
  exists b. split; [exact Hb |].
  unfold ReadByte, ensureData. rewrite He.
  rewrite bool_decide_true by done. rewrite (bool_decide_true (_ = _)) by done.
  destruct (Z.ltb_spec (pos fr) (n fr)); [| lia]. cbn [andb negb].
  destruct (Z.geb_spec (pos fr) (n fr)); [lia |].
  unfold index.
  destruct (Z.leb_spec 0 (pos fr)); [| lia].
  destruct (Z.ltb_spec (pos fr) (Z.of_nat (length (buf fr)))); [| lia].
  cbn [andb]. rewrite Hb. f_equal.
  unfold readAhead. cbn [pos n err set_pos]. rewrite He.
  rewrite (bool_decide_false (Some io_EOF = None)) by done.
  destruct (Z.geb_spec (pos fr + 1) (n fr));
    destruct (Z.ltb_spec (pos fr + 1) (n fr)); try lia;
    cbn [pos n err set_pos andb]; rewrite ?He.
  - destruct (Z.eqb_spec (n fr) 0); [lia |].
    destruct (Z.geb_spec (pos fr + 1) (n fr)); [| lia].
    by rewrite bool_decide_true by done.
  - destruct (Z.geb_spec (pos fr + 1) (n fr)); [lia |]. done.
Qed.
End AnySource.

Lemma empty_read_ends_input_witness :
  let fr := {| r := {| script := [([], 0, None); (bytes "late", 4, None)] |};
               buf := bytes "....."; pos := 0; n := 0; err := None |} in
  ∃ fr', PeekByte fr = Done ((zero, Some io_EOF), fr')
         ∧ r fr' = {| script := [(bytes "late", 4, None)] |}
         ∧ err fr' = Some io_EOF
         ∧ call opNextWord 5 fr' = Done (answer opNextWord io_EOF, fr').
Proof.
  intros fr.
  apply (empty_read_ends_input fr [] 0 {| script := [(bytes "late", 4, None)] |}
           opNextWord 4).
  - reflexivity.
  - simpl. lia.
  - reflexivity.
  - lia.
Defined.


Lemma buffered_bytes_before_EOF_witness :
  let fr := {| r := {| script := [] |}; buf := bytes "abc..";
               pos := 2; n := 3; err := Some io_EOF |} in
  ∃ b, buf fr !! Z.to_nat (pos fr) = Some b
       ∧ ReadByte fr
         = Done ((b, if pos fr + 1 <? n fr then None else Some io_EOF),
                 set_pos (pos fr + 1) fr).
Proof.
  intros fr. apply (buffered_bytes_before_EOF fr).
  - unfold Inv. simpl. lia.
  - reflexivity.
  - simpl. lia.
Defined.

End ReaderMore.

(** * More on the write engine *)

Module WriterMore.
Import Writer WriterFacts.

Section AnySink.
Context {W : Type} `{io_Writer W}.
Implicit Types fw : FastWriter (Logged W).

Lemma WriteBytes_failed fw e p :
  err fw = Some e → WriteBytes p fw = Done (Some e, fw).
Proof. intros He. unfold WriteBytes, Write. unbind. by rewrite He. Qed.

Lemma WriteByte_failed fw e b :
  err fw = Some e → WriteByte b fw = Done (Some e, fw).
Proof. intros He. unfold WriteByte, ensureSpace. unbind. by rewrite He. Qed.

(** X12: a writer with a sticky error does nothing more: [Flush] and
    every append operation return that error at once, make no sink call
    and leave sink, buffer and position as they are; only the number
    formatters still overwrite the scratch buffer. *)
Theorem failed_writer_stays_failed (o : appendOp) fw (e : error) :
  err fw = Some e →
  Flush fw = Done (Some e, fw)
  ∧ ∃ fw', run o fw = Done (Some e, fw')
           ∧ fw' = set_scratch (scratch fw') fw
           ∧ match o with
             | opWriteInt _ | opWriteInt64 _ | opWriteUint64 _ =>
                 scratch fw' = payload o
             | _ => fw' = fw
             end.
Proof.
  intros He. split; [unfold Flush; by rewrite He |].
  destruct o as [b | p | p | str | str | v | v | v]; cbn [run payload].
  - exists fw. rewrite (WriteByte_failed fw e b He). by destruct fw.
  - exists fw. unfold Write. unbind. rewrite He. by destruct fw.
  - exists fw. rewrite (WriteBytes_failed fw e p He). by destruct fw.
  - exists fw. unfold WriteString. rewrite (WriteBytes_failed fw e str He).
    by destruct fw.
  - exists fw. unfold WriteLine, WriteString. unbind.
    rewrite (WriteBytes_failed fw e str He). by destruct fw.
  - eexists. unfold WriteInt. rewrite (WriteBytes_failed _ e) by exact He.
    split; [reflexivity |]. by destruct fw.
  - eexists. unfold WriteInt64. rewrite (WriteBytes_failed _ e) by exact He.
    split; [reflexivity |]. by destruct fw.
  - eexists. unfold WriteUint64. rewrite (WriteBytes_failed _ e) by exact He.
    split; [reflexivity |]. by destruct fw.
Qed.

(** X13: every append operation returns, keeps the buffer invariant,
    the buffer size and the settings, and never hands the sink more
    than a buffer-full in one call.  It returns an error exactly when
    it leaves a sticky error; when it succeeds no byte is lost,
    duplicated or reordered: the bytes of its sink calls followed by
    the buffered bytes are the bytes buffered before followed by the
    bytes to append. *)
Theorem append_conserves_bytes (o : appendOp) fw :
  Inv fw →
  ∃ out fw' more,
    run o fw = Done (out, fw')
    ∧ Inv fw' ∧ length (buf fw') = length (buf fw)
    ∧ autoFlush fw' = autoFlush fw ∧ limit fw' = limit fw
    ∧ calls (w fw') = calls (w fw) ++ more
    ∧ Forall (λ c, (length c ≤ length (buf fw))%nat) more
    ∧ (out = None ↔ err fw' = None)
    ∧ (out = None →
       err fw = None ∧ concat more ++ pending fw' = pending fw ++ payload o).
Proof.
  intros Hi. destruct (run_effect o fw Hi) as (out & fw' & more & HR & Heff & _).
  exists out, fw', more. split; [exact HR |].
  destruct Heff as (Hi' & Hlen & Ha & Hl & Hc & _ & Hfa & Hout).
  split; [exact Hi' |]. split; [exact Hlen |]. split; [exact Ha |].
  split; [exact Hl |]. split; [exact Hc |]. split; [exact Hfa |].
  destruct out as [e |].
  - destruct Hout as [Hne _]. split; [split; [done | intros ?; done] | done].
  - destruct Hout as (He & He' & Hcat). split; [done |]. intros _. done.
Qed.

(** After [flushIfDue] has succeeded with auto-flush on, the buffer is
    below the limit. *)
Lemma flushIfDue_below fw fw' :
  flushIfDue fw = Done (None, fw') → autoFlush fw = true → 0 < limit fw →
  pos fw' < limit fw.
Proof.
  unfold flushIfDue. intros HF Ha Hlim. rewrite Ha in HF. cbn [andb] in HF.
  destruct (Z.geb_spec (pos fw) (limit fw)) as [Hge | Hlt];
    [| injection HF as <-; lia].
  unfold Flush in HF. destruct (err fw) as [e |]; [done |].
  destruct (Z.eqb_spec (pos fw) 0) as [Hz | Hnz]; [injection HF as <-; lia |].
  destruct (slice_to (buf fw) (pos fw)) as [p |]; [| done].
  unfold sinkWrite in HF.
  destruct (io_Write (w fw) p) as [[cnt [e |]] wr]; [done |].
  cbn [pos set_w] in HF. destruct (cnt <? pos fw); [done |].
  injection HF as <-. cbn. lia.
Qed.

Lemma writeLoop_below fuel : ∀ p total fw t fw',
  Inv fw → err fw = None → autoFlush fw = true → 0 < limit fw →
  p ≠ [] ∨ pos fw < limit fw →
  writeLoop fuel p total fw = Done ((t, None), fw') →
  pos fw' < limit fw.
Proof.
  induction fuel as [| fuel IH]; intros p total fw t fw' Hi He Ha Hlim Hp HW.
  { destruct p; [| done]. cbn in HW. injection HW as _ <-.
    by destruct Hp. }
  destruct p as [| b q].
  { cbn in HW. injection HW as _ <-. by destruct Hp. }
  set (p := b :: q) in *.
  assert (0 < Z.of_nat (length p)) as Hlen by (simpl; lia).
  rewrite writeLoop_S in HW by done. unfold mbind, M_bind in HW.
  destruct (ensureSpace_effect fw _ Hi Hlen)
    as (o1 & fw1 & m1 & HE & HeE & _).
  rewrite HE in HW. destruct o1 as [e1 |]; [done |].
  pose proof HeE as (Hi1 & _ & Ha1 & Hl1 & _ & _ & _ & _ & He1 & _).
  destruct (copyIn_effect fw1 p Hi1 He1) as (fw2 & HC & HeC & _).
  rewrite HC in HW.
  pose proof HeC as (Hi2 & _ & Ha2 & Hl2 & _ & _ & _ & _ & He2 & _).
  destruct (flushIfDue_effect fw2 Hi2 He2) as (o3 & fw3 & m3 & HF & HeF & _).
  rewrite HF in HW. destruct o3 as [e3 |]; [done |].
  pose proof HeF as (Hi3 & _ & Ha3 & Hl3 & _ & _ & _ & _ & He3 & _).
  assert (pos fw3 < limit fw2) as Hb3.
  { apply (flushIfDue_below fw2 fw3 HF); congruence. }
  replace (limit fw) with (limit fw3) by congruence.
  eapply (IH _ _ fw3 t fw' Hi3 He3); [congruence | lia | | exact HW].
  right. lia.
Qed.

Lemma WriteBytes_below fw fw' p :
  Inv fw → autoFlush fw = true → 0 < limit fw → p ≠ [] →
  WriteBytes p fw = Done (None, fw') → pos fw' < limit fw.
Proof.
  intros Hi Ha Hlim Hp HW. unfold WriteBytes, Write in HW.
  unfold mbind, M_bind in HW.
  destruct (err fw) as [e |] eqn:He; [done |].
  destruct (writeLoop (length p) p 0 fw) as [[[t o] fw1] | |] eqn:HL; [| done..].
  cbn in HW. injection HW as -> ->.
  eapply writeLoop_below; [exact Hi | exact He | exact Ha | exact Hlim | | exact HL].
  by left.
Qed.

Lemma WriteByte_below fw fw' b :
  Inv fw → autoFlush fw = true → 0 < limit fw →
  WriteByte b fw = Done (None, fw') → pos fw' < limit fw.
Proof.
  intros Hi Ha Hlim HW. unfold WriteByte in HW. unfold mbind, M_bind in HW.
  destruct (ensureSpace_effect fw 1 Hi)
    as (o1 & fw1 & m1 & HE & HeE & HbE & _ & _ & HoE); [lia |].
  rewrite HE in HW. destruct o1 as [e1 |]; [done |].
  pose proof HeE as (Hi1 & _ & Ha1 & Hl1 & _ & _ & _ & _ & He1 & _).
  destruct (HoE eq_refl) as (_ & Hr1 & _).
  destruct (putByte_effect fw1 b Hi1 He1) as (fw2 & HP & HeP & _).
  { rewrite HbE. apply Hr1. pose proof Hi as [? ?]. lia. }
  rewrite HP in HW.
  pose proof HeP as (_ & _ & Ha2 & Hl2 & _).
  replace (limit fw) with (limit fw2) by congruence.
  apply (flushIfDue_below fw2 fw' HW); congruence.
Qed.

(** X15: with auto-flush on and a positive limit, every append
    operation that has a byte to append and succeeds leaves fewer bytes
    in the buffer than the limit. *)
Theorem autoflush_below_limit (o : appendOp) fw :
  Inv fw → autoFlush fw = true → 0 < limit fw → payload o ≠ [] →
  ∃ out fw',
    run o fw = Done (out, fw')
    ∧ autoFlush fw' = true ∧ limit fw' = limit fw
    ∧ (out = None → 0 <= pos fw' < limit fw).
Proof.
  intros Hi Ha Hlim Hp.
  destruct (run_effect o fw Hi) as (out & fw' & more & HR & Heff & _).
  exists out, fw'. split; [exact HR |].
  pose proof Heff as ([_ Hpos'] & _ & Ha' & Hl' & _).
  split; [congruence |]. split; [exact Hl' |].
  intros ->. split; [lia |].
  destruct o as [b | p | p | str | str | v | v | v]; cbn [run payload] in *.
  - by apply (WriteByte_below fw fw' b).
  - apply (WriteBytes_below fw fw' p); try done.
    unfold WriteBytes. unfold mbind, M_bind in HR |- *.
    destruct (Write p fw) as [[[t o] fw1] | |]; [| done..].
    cbn in HR |- *. by injection HR as -> ->.
  - by apply (WriteBytes_below fw fw' p).
  - by apply (WriteBytes_below fw fw' str).
  - unfold WriteLine, WriteString in HR. unfold mbind, M_bind in HR.
    destruct (run_effect (opWriteString str) fw Hi)
      as (o1 & fw1 & m1 & HS & HeS & _).
    cbn [run payload] in HS, HeS. unfold WriteString in HS.
    rewrite HS in HR. destruct o1 as [e1 |]; [done |].
    pose proof HeS as (Hi1 & _ & Ha1 & Hl1 & _).
    replace (limit fw) with (limit fw1) by congruence.
    apply (WriteByte_below fw1 fw' LF); [done | congruence | lia | exact HR].
  - unfold WriteInt in HR.
    apply (WriteBytes_below (set_scratch _ fw) fw' _ Hi Ha Hlim Hp HR).
  - unfold WriteInt64 in HR.
    apply (WriteBytes_below (set_scratch _ fw) fw' _ Hi Ha Hlim Hp HR).
  - unfold WriteUint64 in HR.
    apply (WriteBytes_below (set_scratch _ fw) fw' _ Hi Ha Hlim Hp HR).
Qed.
End AnySink.

(** X14: [NewWriterWithAutoFlush] gives an empty writer with auto-flush
    on and a limit between 1 and the buffer size: the requested limit
    when that is in this range, half the buffer size otherwise;
    [NewWriter] gives an empty writer with auto-flush off. *)
Theorem NewWriterWithAutoFlush_limit {W} `{io_Writer W} (wr : W) (lim : Z) :
  let fw := NewWriterWithAutoFlush wr lim in
  let cap := Z.of_nat defaultWriterBufSize in
  Inv fw ∧ length (buf fw) = defaultWriterBufSize
  ∧ pos fw = 0 ∧ err fw = None ∧ w fw = wr ∧ autoFlush fw = true
  ∧ 0 < limit fw <= cap
  ∧ (0 < lim <= cap → limit fw = lim)
  ∧ (lim <= 0 ∨ cap < lim → limit fw = cap / 2)
  ∧ NewWriter wr = {| w := wr; buf := buf fw; pos := 0; err := None;
                      autoFlush := false; limit := cap / 2; scratch := [] |}.
Proof.
  intros fw cap. unfold fw, NewWriterWithAutoFlush, NewWriter, Inv.
  cbn [buf pos err w autoFlush limit]. rewrite length_replicate. fold cap.
  assert (cap = 65536) as Hcap by reflexivity.
  assert (cap / 2 = 32768) as Hhalf by (rewrite Hcap; reflexivity).
  split; [unfold defaultWriterBufSize; lia |].
  do 5 (split; [reflexivity |]).
  destruct (Z.leb_spec lim 0); destruct (Z.gtb_spec lim cap);
    cbn [orb]; rewrite ?Hhalf; split_and!; try reflexivity; lia.
Qed.

Lemma failed_writer_stays_failed_witness :
  let e := writerError (errors_New "write error") in
  let fw := {| w := logged mkErrorWriter; buf := bytes "abcd"; pos := 0;
               err := Some e; autoFlush := false; limit := 2;
               scratch := bytes "17" |} in
  Flush fw = Done (Some e, fw)
  ∧ ∃ fw', run (opWriteInt 42) fw = Done (Some e, fw')
           ∧ fw' = set_scratch (scratch fw') fw
           ∧ scratch fw' = payload (opWriteInt 42).
Proof.
  intros e fw. apply (failed_writer_stays_failed (opWriteInt 42) fw e).
  reflexivity.
Defined.

Lemma append_conserves_bytes_witness :
  let fw := {| w := logged {| contents := [] |}; buf := bytes "abcd"; pos := 3;
               err := None; autoFlush := false; limit := 2;
               scratch := [] |} in
  let o := opWriteLine (bytes "hello") in
  ∃ out fw' more,
    run o fw = Done (out, fw')
    ∧ Inv fw' ∧ length (buf fw') = length (buf fw)
    ∧ autoFlush fw' = autoFlush fw ∧ limit fw' = limit fw
    ∧ calls (w fw') = calls (w fw) ++ more
    ∧ Forall (λ c, (length c ≤ length (buf fw))%nat) more
    ∧ (out = None ↔ err fw' = None)
    ∧ (out = None →
       err fw = None ∧ concat more ++ pending fw' = pending fw ++ payload o).
Proof.
  intros fw o. apply (append_conserves_bytes o fw).
  unfold Inv. simpl. lia.
Defined.

Lemma autoflush_below_limit_witness :
  let fw := {| w := logged {| contents := [] |}; buf := bytes "abcd"; pos := 1;
               err := None; autoFlush := true; limit := 3;
               scratch := [] |} in
  let o := opWriteUint64 1234567 in
  ∃ out fw',
    run o fw = Done (out, fw')
    ∧ autoFlush fw' = true ∧ limit fw' = limit fw
    ∧ (out = None → 0 <= pos fw' < limit fw).
Proof.
  intros fw o. apply (autoflush_below_limit o fw).
  - unfold Inv. simpl. lia.
  - reflexivity.
  - simpl. lia.
  - vm_compute. discriminate.
Defined.

End WriterMore.

(** * Sequences of calls, and reading back what was written *)

Module CallsFacts.
Import Reader Calls.

(** The effect of a sequence of calls and the closing [Flush] on a
    sink that takes everything. *)
Lemma runAll_effect {W} `{io_Writer W} (ops : list Writer.appendOp) :
  Writer.Accepting (W := W) →
  ∀ fw : Writer.FastWriter (Logged W),
    Writer.Inv fw → Writer.err fw = None →
    ∃ fw' more,
      runAll ops fw = Done (None, fw')
      ∧ Writer.effect more (payloads ops) None fw fw'
      ∧ Writer.pos fw' = 0.
Proof.
  intros accepting.
  induction ops as [| o ops IH]; intros fw Hi He.
  - destruct (WriterFacts.Flush_effect fw Hi)
      as (out & fw' & more & HF & Heff & _ & _ & Hp & _).
    destruct out as [e |];
      [by destruct (WriterFacts.effect_Accepting _ _ _ _ _ accepting He Heff) |].
    exists fw', more. split; [exact HF |]. split; [exact Heff |]. by apply Hp.
  - destruct (WriterFacts.run_effect o fw Hi) as (o1 & fw1 & m1 & H1 & Heff1 & _).
    destruct o1 as [e |];
      [by destruct (WriterFacts.effect_Accepting _ _ _ _ _ accepting He Heff1) |].
    pose proof Heff1 as (Hi1 & _ & _ & _ & _ & _ & _ & _ & He1 & _).
    destruct (IH fw1 Hi1 He1) as (fw2 & m2 & H2 & Heff2 & Hp2).
    exists fw2, (m1 ++ m2). split.
    { cbn [runAll]. unbind. rewrite H1. exact H2. }
    split; [| exact Hp2].
    change (payloads (o :: ops)) with (Writer.payload o ++ payloads ops).
    eapply WriterFacts.effect_seq; [exact Heff1 | exact Heff2].
Qed.

(** What the sink holds after the calls and the closing [Flush]. *)
Lemma runAll_contents (ops : list Writer.appendOp)
    (fw : Writer.FastWriter (Logged bytes_Buffer)) :
  Writer.Inv fw → Writer.err fw = None →
  ∃ fw',
    runAll ops fw = Done (None, fw')
    ∧ contents (sink (Writer.w fw'))
      = contents (sink (Writer.w fw)) ++ Writer.pending fw ++ payloads ops
    ∧ Writer.pos fw' = 0 ∧ Writer.err fw' = None.
Proof.
  intros Hi He.
  destruct (runAll_effect ops WriterFacts.bytes_Buffer_Accepting fw Hi He)
    as (fw' & more & HR & Heff & Hp).
  exists fw'. split; [exact HR |].
  destruct Heff as (_ & _ & _ & _ & _ & Hsink & _ & _ & He' & Hcat).
  split; [| by split].
  rewrite Hsink, RoundTripFacts.contents_replay. f_equal.
  rewrite <- Hcat. unfold Writer.pending at 1. rewrite Hp.
  change (Z.to_nat 0) with 0%nat. by rewrite take_0, app_nil_r.
Qed.

(** X16: a sequence of append calls and a closing [Flush] on a writer
    over a [bytes.Buffer] never fails, and afterwards the sink holds
    what it held before, then the bytes that were buffered, then the
    bytes of the calls in order; the buffer is empty. *)
Theorem runAll_output (ops : list Writer.appendOp)
    (fw : Writer.FastWriter (Logged bytes_Buffer)) :
  Writer.Inv fw → Writer.err fw = None →
  ∃ fw',
    runAll ops fw = Done (None, fw')
    ∧ contents (sink (Writer.w fw'))
      = contents (sink (Writer.w fw)) ++ Writer.pending fw ++ payloads ops
    ∧ Writer.pos fw' = 0 ∧ Writer.err fw' = None.
Proof. exact (runAll_contents ops fw). Qed.

Lemma runAll_output_witness :
  let ops := [Writer.opWriteInt 123; Writer.opWriteByte SP;
              Writer.opWriteInt (-456); Writer.opWriteByte LF;
              Writer.opWriteLine (bytes "test")] in
  let fw := Writer.NewWriter (logged {| contents := [] |}) in
  ∃ fw',
    runAll ops fw = Done (None, fw')
    ∧ contents (sink (Writer.w fw'))
      = contents (sink (Writer.w fw)) ++ Writer.pending fw ++ payloads ops
    ∧ Writer.pos fw' = 0 ∧ Writer.err fw' = None.
Proof.
  intros ops fw. apply (runAll_output ops fw).
  - unfold Writer.Inv, fw, Writer.NewWriter.
    cbn [Writer.buf Writer.pos]. rewrite length_replicate.
    unfold Writer.defaultWriterBufSize. lia.
  - reflexivity.
Defined.

(** The text of a [uint64]: a nonempty run of digits with its value. *)
Lemma AppendUint_shape v :
  0 <= v < 2 ^ 64 →
  ∃ ds, strconv_AppendUint [] v = ds ∧ ds ≠ []
        ∧ Forall (λ b, isDigit b = true) ds
        ∧ (length ds ≤ 20)%nat ∧ decimal ds = v.
Proof.
  intros Hv. unfold strconv_AppendUint.
  assert (2 ^ 64 < 10 ^ Z.of_nat 20) as Hpow by (vm_compute; done).
  destruct (ReaderFacts.formatBits_spec 19 v [])
    as (ds & -> & Hne & Hds & Hlen & Hval); [lia |].
  exists ds. rewrite app_nil_r.
  split; [reflexivity |]. split; [exact Hne |]. split; [exact Hds |].
  split; [exact Hlen |]. unfold decimal. rewrite Hval. lia.
Qed.

Section RoundTrips.
Implicit Types fw : Writer.FastWriter (Logged bytes_Buffer).

(** What the sink of a fresh writer holds after a sequence of calls. *)
Lemma fresh_output (ops : list Writer.appendOp) fw :
  Writer.Inv fw → Writer.err fw = None → Writer.pos fw = 0 →
  contents (sink (Writer.w fw)) = [] →
  ∃ fw', runAll ops fw = Done (None, fw')
         ∧ contents (sink (Writer.w fw')) = payloads ops.
Proof.
  intros Hi He Hp Hc.
  destruct (runAll_contents ops fw Hi He) as (fw' & HR & Hout & _).
  exists fw'. split; [exact HR |]. rewrite Hout, Hc.
  unfold Writer.pending. rewrite Hp. change (Z.to_nat 0) with 0%nat.
  by rewrite take_0.
Qed.

Lemma Inv_fresh (lim : Z) (auto : bool) :
  let fw := if auto
            then Writer.NewWriterWithAutoFlush (logged {| contents := [] |}) lim
            else Writer.NewWriter (logged {| contents := [] |}) in
  Writer.Inv fw ∧ Writer.err fw = None ∧ Writer.pos fw = 0
  ∧ contents (sink (Writer.w fw)) = [].
Proof.
  destruct auto; cbn zeta;
    unfold Writer.Inv, Writer.NewWriterWithAutoFlush, Writer.NewWriter;
    cbn [Writer.buf Writer.pos Writer.err Writer.w]; rewrite length_replicate;
    unfold Writer.defaultWriterBufSize; (split; [lia | done]).
Qed.

(** X17: a [uint64] written with [WriteUint64] and followed by a byte
    that is no digit is read back by [NextUint64] from what the sink
    received, whatever is written after it. *)
Theorem uint64_roundtrip (v : Z) (sep : byte) (ops : list Writer.appendOp)
    fw (fuel : nat) :
  Writer.Inv fw → Writer.err fw = None → Writer.pos fw = 0 →
  contents (sink (Writer.w fw)) = [] →
  0 <= v < 2 ^ 64 → isDigit sep = false →
  let calls := Writer.opWriteUint64 v :: Writer.opWriteByte sep :: ops in
  (length (payloads calls) < fuel)%nat →
  ∃ fw' fr',
    runAll calls fw = Done (None, fw')
    ∧ NextUint64 fuel
        (NewReader (strings_NewReader (contents (sink (Writer.w fw')))))
      = Done ((v, None), fr')
    ∧ Rep fr' (sep :: payloads ops).
Proof.
  intros Hi He Hp Hc Hv Hsep calls Hfuel.
  destruct (fresh_output calls fw Hi He Hp Hc) as (fw' & HR & Hout).
  change (payloads calls)
    with (strconv_AppendUint [] v ++ [sep] ++ payloads ops) in Hout, Hfuel.
  destruct (AppendUint_shape v Hv) as (ds & Hds & Hne & Hdig & Hlen & Hval).
  rewrite Hds in Hout, Hfuel.
  destruct (ReaderMore.NextUint64_reads
              (NewReader (strings_NewReader (ds ++ [sep] ++ payloads ops)))
              [] [] ds (sep :: payloads ops) fuel)
    as (fr' & HN & HR'); try done.
  { apply ReaderFacts.Rep_NewReader. }
  { by left. }
  { unfold MaxInt. lia. }
  exists fw', fr'. split; [exact HR |]. rewrite Hout, HN, Hval.
  split; [| exact HR']. unfold wrapU. by rewrite Z.mod_small by lia.
Qed.

(** X18: an [int64] written with [WriteInt64] and followed by a byte
    that is no digit is read back by [NextInt64], the extreme values
    included. *)
Theorem int64_roundtrip (v : Z) (sep : byte) (ops : list Writer.appendOp)
    fw (fuel : nat) :
  Writer.Inv fw → Writer.err fw = None → Writer.pos fw = 0 →
  contents (sink (Writer.w fw)) = [] →
  isInt v → isDigit sep = false →
  let calls := Writer.opWriteInt64 v :: Writer.opWriteByte sep :: ops in
  (length (payloads calls) < fuel)%nat →
  ∃ fw' fr',
    runAll calls fw = Done (None, fw')
    ∧ NextInt64 fuel
        (NewReader (strings_NewReader (contents (sink (Writer.w fw')))))
      = Done ((v, None), fr')
    ∧ Rep fr' (sep :: payloads ops).
Proof.
  intros Hi He Hp Hc Hv Hsep calls Hfuel.
  destruct (fresh_output calls fw Hi He Hp Hc) as (fw' & HR & Hout).
  change (payloads calls)
    with (strconv_AppendInt [] v ++ [sep] ++ payloads ops) in Hout, Hfuel.
  destruct (ReaderFacts.AppendInt_shape v Hv)
    as (ds & Hds & Hne & Hdig & Hlen & Hval).
  rewrite Hds in Hout, Hfuel. rewrite <- app_assoc in Hout, Hfuel.
  destruct (ReaderMore.NextInt64_reads
              (NewReader (strings_NewReader
                 ((if v <? 0 then ["-"%char] else [])
                  ++ ds ++ [sep] ++ payloads ops)))
              [] (if v <? 0 then ["-"%char] else []) ds
              (sep :: payloads ops) fuel)
    as (fr' & HN & HR'); try done.
  { apply ReaderFacts.Rep_NewReader. }
  { destruct (v <? 0); auto. }
  { unfold MaxInt. lia. }
  exists fw', fr'. split; [exact HR |]. rewrite Hout, HN.
  split; [| exact HR']. do 2 f_equal. f_equal.
  transitivity (wrap v); [| by apply ReaderFacts.wrap_isInt]. f_equal.
  unfold decimal. rewrite Hval.
  destruct (Z.ltb_spec v 0);
    [rewrite bool_decide_true by done | rewrite bool_decide_false by done]; lia.
Qed.

(** X19: a line written with [WriteLine] that holds no line feed and
    does not end in a carriage return is read back by [NextLine] from
    what the sink received; only an empty line with nothing written
    after it is read back as [io.EOF]. *)
Theorem line_roundtrip (str : list byte) (ops : list Writer.appendOp)
    fw (fuel : nat) :
  Writer.Inv fw → Writer.err fw = None → Writer.pos fw = 0 →
  contents (sink (Writer.w fw)) = [] →
  Forall (λ b, b ≠ LF) str → last str ≠ Some CR →
  (length str < fuel)%nat →
  ∃ fw' fr',
    runAll (Writer.opWriteLine str :: ops) fw = Done (None, fw')
    ∧ NextLine fuel
        (NewReader (strings_NewReader (contents (sink (Writer.w fw')))))
      = Done (match payloads ops, str with
              | [], [] => ([], Some io_EOF)
              | _, _ => (str, None)
              end, fr')
    ∧ Rep fr' (payloads ops).
Proof.
  intros Hi He Hp Hc Hstr Hcr Hfuel.
  destruct (fresh_output (Writer.opWriteLine str :: ops) fw Hi He Hp Hc)
    as (fw' & HR & Hout).
  change (payloads (Writer.opWriteLine str :: ops))
    with ((str ++ [LF]) ++ payloads ops) in Hout.
  rewrite <- app_assoc in Hout. cbn [app] in Hout.
  destruct (ReaderMore.NextLine_reads
              (NewReader (strings_NewReader (str ++ LF :: payloads ops)))
              str (payloads ops) fuel Hstr)
    as (fr' & HN & HR'); [apply ReaderFacts.Rep_NewReader | exact Hfuel |].
  exists fw', fr'. split; [exact HR |]. rewrite Hout, HN.
  split; [| exact HR'].
  assert (stripCR str = str) as ->; [| done].
  unfold stripCR. destruct (last str) as [b |]; [| done].
  rewrite bool_decide_false; [done | congruence].
Qed.

(** X20: a nonempty word without white space written with
    [WriteString] and followed by a white-space byte is read back by
    [NextWord], which leaves the reader in front of that byte. *)
Theorem word_roundtrip (word : list byte) (sep : byte)
    (ops : list Writer.appendOp) fw (fuel : nat) :
  Writer.Inv fw → Writer.err fw = None → Writer.pos fw = 0 →
  contents (sink (Writer.w fw)) = [] →
  word ≠ [] → Forall (λ b, isSpace b = false) word → isSpace sep = true →
  let calls := Writer.opWriteString word :: Writer.opWriteByte sep :: ops in
  (length (payloads calls) < fuel)%nat →
  ∃ fw' fr',
    runAll calls fw = Done (None, fw')
    ∧ NextWord fuel
        (NewReader (strings_NewReader (contents (sink (Writer.w fw')))))
      = Done ((word, None), fr')
    ∧ Rep fr' (sep :: payloads ops).
Proof.
  intros Hi He Hp Hc Hne Hword Hsep calls Hfuel.
  destruct (fresh_output calls fw Hi He Hp Hc) as (fw' & HR & Hout).
  change (payloads calls) with (word ++ [sep] ++ payloads ops) in Hout, Hfuel.
  destruct (ReaderMore.NextWord_reads
              (NewReader (strings_NewReader (word ++ [sep] ++ payloads ops)))
              [] word (sep :: payloads ops) fuel)
    as (fr' & HN & HR'); try done.
  { apply ReaderFacts.Rep_NewReader. }
  exists fw', fr'. split; [exact HR |]. by rewrite Hout, HN.
Qed.
End RoundTrips.

Lemma uint64_roundtrip_witness :
  let fw := Writer.NewWriterWithAutoFlush (logged {| contents := [] |}) 4 in
  let calls := [Writer.opWriteUint64 18446744073709551615;
                Writer.opWriteByte LF; Writer.opWriteInt 7] in
  ∃ fw' fr',
    runAll calls fw = Done (None, fw')
    ∧ NextUint64 40
        (NewReader (strings_NewReader (contents (sink (Writer.w fw')))))
      = Done ((18446744073709551615, None), fr')
    ∧ Rep fr' (LF :: payloads [Writer.opWriteInt 7]).
Proof.
  intros fw calls.
  apply (uint64_roundtrip 18446744073709551615 LF [Writer.opWriteInt 7] fw 40).
  - apply (Inv_fresh 4 true).
  - reflexivity.
  - reflexivity.
  - reflexivity.
  - lia.
  - reflexivity.
  - vm_compute. lia.
Defined.

Lemma int64_roundtrip_witness :
  let fw := Writer.NewWriter (logged {| contents := [] |}) in
  let calls := [Writer.opWriteInt64 MinInt; Writer.opWriteByte SP] in
  ∃ fw' fr',
    runAll calls fw = Done (None, fw')
    ∧ NextInt64 40
        (NewReader (strings_NewReader (contents (sink (Writer.w fw')))))
      = Done ((MinInt, None), fr')
    ∧ Rep fr' (SP :: payloads []).
Proof.
  intros fw calls. apply (int64_roundtrip MinInt SP [] fw 40).
  - apply (Inv_fresh 0 false).
  - reflexivity.
  - reflexivity.
  - reflexivity.
  - unfold isInt, MinInt, MaxInt. lia.
  - reflexivity.
  - vm_compute. lia.
Defined.

Lemma line_roundtrip_witness :
  let fw := Writer.NewWriter (logged {| contents := [] |}) in
  ∃ fw' fr',
    runAll [Writer.opWriteLine (bytes "a b"); Writer.opWriteLine []] fw
    = Done (None, fw')
    ∧ NextLine 10
        (NewReader (strings_NewReader (contents (sink (Writer.w fw')))))
      = Done ((bytes "a b", None), fr')
    ∧ Rep fr' (payloads [Writer.opWriteLine []]).
Proof.
  intros fw.
  apply (line_roundtrip (bytes "a b") [Writer.opWriteLine []] fw 10).
  - apply (Inv_fresh 0 false).
  - reflexivity.
  - reflexivity.
  - reflexivity.
  - repeat constructor; discriminate.
  - discriminate.
  - vm_compute. lia.
Defined.

Lemma word_roundtrip_witness :
  let fw := Writer.NewWriter (logged {| contents := [] |}) in
  let calls := [Writer.opWriteString (bytes "hello"); Writer.opWriteByte SP;
                Writer.opWriteBytes (bytes "world")] in
  ∃ fw' fr',
    runAll calls fw = Done (None, fw')
    ∧ NextWord 20
        (NewReader (strings_NewReader (contents (sink (Writer.w fw')))))
      = Done ((bytes "hello", None), fr')
    ∧ Rep fr' (SP :: payloads [Writer.opWriteBytes (bytes "world")]).
Proof.
  intros fw calls.
  apply (word_roundtrip (bytes "hello") SP
           [Writer.opWriteBytes (bytes "world")] fw 20).
  - apply (Inv_fresh 0 false).
  - reflexivity.
  - reflexivity.
  - reflexivity.
  - discriminate.
  - repeat constructor.
  - reflexivity.
  - vm_compute. lia.
Defined.

End CallsFacts.

(** * The example program *)

Module ExampleFacts.
Import RoundTrip Example.

Local Abbreviation valid :=
  (Forall (λ it : Z * byte, isInt (fst it) ∧ isSpace (snd it) = true)).

Lemma render_cons v sep items :
  render ((v, sep) :: items) = strconv_AppendInt [] v ++ [sep] ++ render items.
Proof. unfold render. cbn. by rewrite <- app_assoc. Qed.

(** One [NextInt] in front of the text of a value. *)
Lemma NextInt_render ws v sep items (fr : Reader.FastReader strings_Reader)
    fuel :
  Forall (λ b, isSpace b = true) ws → isInt v → isSpace sep = true →
  Reader.Rep fr (ws ++ render ((v, sep) :: items)) →
  (length (ws ++ render ((v, sep) :: items)) < fuel)%nat →
  ∃ fr', Reader.NextInt fuel fr = Done ((v, None), fr')
         ∧ Reader.Rep fr' ([sep] ++ render items).
Proof.
  intros Hws Hv Hsep HR Hfuel. rewrite render_cons in HR, Hfuel.
  destruct (ReaderFacts.NextInt_spec fr _ fuel HR Hfuel) as (fr1 & HN & HR1).
  assert (Reader.headNot isDigit ([sep] ++ render items)) as Hhd
    by (cbn; by rewrite RoundTripFacts.isSpace_not_digit).
  rewrite (ReaderFacts.nextInt_spec_AppendInt ws v _ Hws Hv Hhd) in HN, HR1.
  by exists fr1.
Qed.

(** [NextInt] in front of white space only. *)
Lemma NextInt_blank ws (fr : Reader.FastReader strings_Reader) fuel :
  Forall (λ b, isSpace b = true) ws → Reader.Rep fr ws →
  (length ws < fuel)%nat →
  ∃ fr', Reader.NextInt fuel fr = Done ((0, Some io_EOF), fr').
Proof.
  intros Hws HR Hfuel.
  destruct (ReaderFacts.NextInt_spec fr _ fuel HR Hfuel) as (fr1 & HN & _).
  exists fr1. rewrite HN. unfold Reader.nextInt_spec.
  rewrite <- (app_nil_r ws). by rewrite ReaderFacts.skipWhile_app.
Qed.

Lemma sumLoop_render (items : list (Z * byte)) :
  ∀ ws (fr : Reader.FastReader strings_Reader) fuel sum,
    valid items → Forall (λ b, isSpace b = true) ws →
    Reader.Rep fr (ws ++ render items) →
    (length (ws ++ render items) < fuel)%nat →
    ∃ fr', sumLoop (length items) fuel sum fr
           = Done (Some (fold_left (λ s x, wrap (s + x)) (map fst items) sum),
                   fr').
Proof.
  induction items as [| [v sep] rest IH]; intros ws fr fuel sum Hok Hws HR Hfuel.
  - eexists. reflexivity.
  - apply Forall_cons in Hok as [[Hv Hsep] Hok]. cbn [fst snd] in Hv, Hsep.
    destruct (NextInt_render ws v sep rest fr fuel Hws Hv Hsep HR Hfuel)
      as (fr1 & HN & HR1).
    destruct (IH [sep] fr1 fuel (wrap (sum + v)) Hok) as (fr2 & H2).
    { by constructor. }
    { exact HR1. }
    { rewrite render_cons, !length_app in Hfuel. rewrite length_app. lia. }
    exists fr2. cbn [sumLoop length map fold_left fst]. unbind.
    rewrite HN. exact H2.
Qed.

Lemma sumLoop_short (items : list (Z * byte)) :
  ∀ k ws (fr : Reader.FastReader strings_Reader) fuel sum,
    valid items → Forall (λ b, isSpace b = true) ws →
    Reader.Rep fr (ws ++ render items) →
    (length (ws ++ render items) < fuel)%nat →
    (length items < k)%nat →
    ∃ fr', sumLoop k fuel sum fr = Done (None, fr').
Proof.
  induction items as [| [v sep] rest IH];
    intros k ws fr fuel sum Hok Hws HR Hfuel Hk;
    (destruct k as [| k]; [simpl in Hk; lia |]).
  - cbn [render map concat] in HR, Hfuel. rewrite app_nil_r in HR, Hfuel.
    destruct (NextInt_blank ws fr fuel Hws HR Hfuel) as (fr1 & HN).
    exists fr1. cbn [sumLoop]. unbind. by rewrite HN.
  - apply Forall_cons in Hok as [[Hv Hsep] Hok]. cbn [fst snd] in Hv, Hsep.
    destruct (NextInt_render ws v sep rest fr fuel Hws Hv Hsep HR Hfuel)
      as (fr1 & HN & HR1).
    destruct (IH k [sep] fr1 fuel (wrap (sum + v)) Hok) as (fr2 & H2).
    { by constructor. }
    { exact HR1. }
    { rewrite render_cons, !length_app in Hfuel. rewrite length_app. lia. }
    { simpl in Hk. lia. }
    exists fr2. cbn [sumLoop]. unbind. rewrite HN. exact H2.
Qed.

Lemma Inv_stdout :
  Writer.Inv (Writer.NewWriter (logged {| contents := [] |})).
Proof. apply WriterFacts.Inv_NewWriter. Qed.

(** X21: on an input that holds a count and as many numbers, each
    followed by a white-space byte, the example program writes the sum
    of the numbers, with the wrap-around of [int], and a line feed, and
    nothing else. *)
Theorem main_sums (items : list (Z * byte)) (sep0 : byte) (fuel : nat) :
  valid items → isSpace sep0 = true →
  Z.of_nat (length items) <= MaxInt →
  let text := render ((Z.of_nat (length items), sep0) :: items) in
  (length text < fuel)%nat →
  ∃ fw',
    main fuel (strings_NewReader text) (logged {| contents := [] |})
    = Done fw'
    ∧ contents (sink (Writer.w fw'))
      = strconv_AppendInt [] (total (map fst items)) ++ [LF].
Proof.
  intros Hok Hsep0 Hcnt text Hfuel.
  assert (isInt (Z.of_nat (length items))) as Hn
    by (unfold isInt, MinInt, MaxInt in *; lia).
  destruct (NextInt_render [] (Z.of_nat (length items)) sep0 items
              (Reader.NewReader (strings_NewReader text)) fuel
              (Forall_nil_2 _) Hn Hsep0 (ReaderFacts.Rep_NewReader text) Hfuel)
    as (fr1 & HN & HR1).
  destruct (sumLoop_render items [sep0] fr1 fuel 0 Hok) as (fr2 & HS).
  { by constructor. }
  { exact HR1. }
  { unfold text in Hfuel. rewrite render_cons, !length_app in Hfuel.
    rewrite length_app. lia. }
  set (sum := fold_left (λ s x, wrap (s + x)) (map fst items) 0) in *.
  destruct (RoundTripFacts.writeInts_effect WriterFacts.bytes_Buffer_Accepting
              [(sum, LF)] (Writer.NewWriter (logged {| contents := [] |}))
              Inv_stdout eq_refl)
    as (fw' & more & HW & Heff & Hp').
  cbn [writeInts] in HW. unfold mbind, M_bind, mret, M_ret in HW.
  destruct (Writer.WriteInt sum _) as [[[e1 |] fw1] | |] eqn:H1; try done.
  destruct (Writer.WriteByte LF fw1) as [[[e2 |] fw2] | |] eqn:H2; try done.
  exists fw'. split.
  { unfold main, body. rewrite HN, Nat2Z.id, HS. unbind.
    rewrite H1, H2, HW. done. }
  destruct Heff as (_ & _ & _ & _ & _ & Hsink & _ & _ & _ & Hcat).
  rewrite Hsink, RoundTripFacts.contents_replay.
  unfold Writer.pending in Hcat. rewrite Hp' in Hcat.
  change (concat more ++ [] = [] ++ render [(sum, LF)]) in Hcat.
  rewrite app_nil_r in Hcat. cbn [app] in Hcat. rewrite Hcat.
  cbn [contents sink logged Writer.w Writer.NewWriter app].
  unfold render. cbn [map concat fst snd]. by rewrite app_nil_r.
Qed.

(** X22: when the input holds fewer numbers than its count says, the
    example program writes nothing and makes no call on the standard
    output at all. *)
Theorem main_short_input (cnt : Z) (items : list (Z * byte)) (sep0 : byte)
    (fuel : nat) :
  valid items → isSpace sep0 = true → isInt cnt →
  Z.of_nat (length items) < cnt →
  let text := render ((cnt, sep0) :: items) in
  (length text < fuel)%nat →
  main fuel (strings_NewReader text) (logged {| contents := [] |})
  = Done (Writer.NewWriter (logged {| contents := [] |})).
Proof.
  intros Hok Hsep0 Hn Hlt text Hfuel.
  destruct (NextInt_render [] cnt sep0 items
              (Reader.NewReader (strings_NewReader text)) fuel
              (Forall_nil_2 _) Hn Hsep0 (ReaderFacts.Rep_NewReader text) Hfuel)
    as (fr1 & HN & HR1).
  destruct (sumLoop_short items (Z.to_nat cnt) [sep0] fr1 fuel 0 Hok)
    as (fr2 & HS).
  { by constructor. }
  { exact HR1. }
  { unfold text in Hfuel. rewrite render_cons, !length_app in Hfuel.
    rewrite length_app. lia. }
  { lia. }
  unfold main, body. rewrite HN, HS. reflexivity.
Qed.

Lemma main_sums_witness :
  let items := [(MaxInt, SP); (1, LF); (-7, LF)] in
  let text := render ((3, LF) :: items) in
  ∃ fw',
    main 60 (strings_NewReader text) (logged {| contents := [] |}) = Done fw'
    ∧ contents (sink (Writer.w fw'))
      = strconv_AppendInt [] (total (map fst items)) ++ [LF].
Proof.
  intros items text. apply (main_sums items LF 60).
  - unfold items, isInt, MinInt, MaxInt.
    repeat (constructor; [split; [cbn [fst]; lia | reflexivity] |]).
    constructor.
  - reflexivity.
  - unfold MaxInt. simpl. lia.
  - vm_compute. lia.
Defined.

Lemma main_short_input_witness :
  main 20 (strings_NewReader (render [(3, LF); (10, SP); (20, LF)]))
    (logged {| contents := [] |})
  = Done (Writer.NewWriter (logged {| contents := [] |})).
Proof.
  apply (main_short_input 3 [(10, SP); (20, LF)] LF 20).
  - unfold isInt, MinInt, MaxInt.
    repeat (constructor; [split; [cbn [fst]; lia | reflexivity] |]).
    constructor.
  - reflexivity.
  - unfold isInt, MinInt, MaxInt. lia.
  - simpl. lia.
  - vm_compute. lia.
Defined.

End ExampleFacts.
